(** * RDMA scatter benchmark, server side: a shallow embedding

    The program under study is [examples/11_rdma_scatter/sw/src/server/main.cpp].
    The file holds two servers:

    - the FPGA-side scatter server (lines 1-155): four buffers on one GPU, their
      addresses written to the vFPGA registers, two benchmark calls per size;
    - the host-side scatter server (lines 157-407): one buffer on each of four
      GPUs, the received payload copied to them chunk by chunk in [run_bench],
      one benchmark call per size.

    Both are embedded, as [Module Baseline] and [Module Scatter].

    Everything the program does to the outside world is a call into the Coyote
    thread object or into the HIP run time.  A run is therefore modelled as a
    computation that reads the history of calls made so far, asks an
    environment what each new call returns, and produces the list of new
    events together with the way the computation ended. *)

From Stdlib Require Import ZArith List String Bool Lia.
Import ListNotations.
Local Open Scope string_scope.
Local Open Scope list_scope.
Local Open Scope Z_scope.

(** ** Machine integers *)

(** [unsigned int] is 32 bits wide and wraps around. *)
Definition wrap32 (z : Z) : Z := z mod 2 ^ 32.

(** [int] is 32 bits wide; leaving its range is undefined behaviour. *)
Definition INT_MAX : Z := 2 ^ 31 - 1.

Definition sizeof_int : Z := 4.

Definition hipSuccess : Z := 0.

Definition EXIT_SUCCESS : Z := 0.

(** ** External calls and events *)

Inductive CoyoteOper : Type :=
| LOCAL_WRITE
| REMOTE_RDMA_WRITE.

(** Pointers are block-and-offset: the host staging buffer [mem] is one block,
    addressed by byte offset; the device buffer [dest_buffers[k]] is block [k]. *)
Inductive call : Type :=
| hipSetDevice (dev : Z)
| hipStreamCreate (i : Z)
| hipEventCreate (i : Z)
| hipMemcpyAsync (dst_buf dst_off src_off nbytes : Z)
| hipDeviceSynchronize
| hipStreamDestroy (i : Z)
| hipEventDestroy (i : Z)
| hipFree (buf : Z)
| clearCompleted
| connSync (client : bool)
| checkCompleted (op : CoyoteOper)
| invoke (op : CoyoteOper) (len : Z)
| initRDMA (size : Z)
| getMem (size dev : Z)
| setCSR (val reg : Z).

Inductive event : Type :=
| Ext (c : call) (r : Z)
    (* an external call and the value it returned *)
| Fill (n : Z) (zero : bool)
    (* mem[i] = zero ? 0 : i, for every i < n *)
| Enter (len transfers n_runs : Z) (operation : bool).
    (* run_bench entered with these arguments *)

Definition trace : Type := list event.

(** The environment answers a call from the history of the run so far. *)
Definition env : Type := trace -> call -> Z.

(** ** The computation monad *)

Inductive abort : Type :=
| Throw (msg : string)   (* a C++ exception leaves the function *)
| Spin                   (* a loop is still running when the fuel is spent *)
| Undefined.             (* signed overflow *)

Inductive outcome (A : Type) : Type :=
| Done (a : A)
| Abort (x : abort).

Arguments Done {A} a.
Arguments Abort {A} x.

Definition M (A : Type) : Type := env -> trace -> outcome A * trace.

Definition ret {A : Type} (a : A) : M A :=
  fun _ _ => (Done a, []).

Definition bind {A B : Type} (m : M A) (f : A -> M B) : M B :=
  fun e h =>
    match m e h with
    | (Done a, n1) =>
        match f a e (h ++ n1) with
        | (o, n2) => (o, n1 ++ n2)
        end
    | (Abort x, n1) => (Abort x, n1)
    end.

Definition ext (c : call) : M Z :=
  fun e h => (Done (e h c), [Ext c (e h c)]).

Definition emit (ev : event) : M unit :=
  fun _ _ => (Done tt, [ev]).

Definition raise {A : Type} (x : abort) : M A :=
  fun _ _ => (Abort x, []).

Notation "x <- m ;; k" := (bind m (fun x => k))
  (at level 61, m at next level, right associativity).
Notation "m ;; k" := (bind m (fun _ => k))
  (at level 61, right associativity).

(** A call whose result the program drops. *)
Definition ext_ (c : call) : M unit :=
  _ <- ext c ;; ret tt.

(** ** Loops *)

(** [i++] on an [int]. *)
Definition incr_int (i : Z) : M unit :=
  if i <? INT_MAX then ret tt else raise Undefined.

(** [a * b] on two [int]s. *)
Definition mul_int (a b : Z) : M Z :=
  if a * b <=? INT_MAX then ret (a * b) else raise Undefined.

Fixpoint for_from (k : nat) (i : Z) (body : Z -> M unit) : M unit :=
  match k with
  | O => ret tt
  | S k' => body i ;; incr_int i ;; for_from k' (i + 1) body
  end.

(** [for (int i = 0; i < bound; i++) body], for a bound that is not negative. *)
Definition for_int (bound : Z) (body : Z -> M unit) : M unit :=
  for_from (Z.to_nat bound) 0 body.

(** [while (checkCompleted(LOCAL_WRITE) != transfers) {}] *)
Fixpoint wait_completed (fuel : nat) (transfers : Z) : M unit :=
  match fuel with
  | O => raise Spin
  | S fuel' =>
      r <- ext (checkCompleted LOCAL_WRITE) ;;
      if r =? transfers then ret tt else wait_completed fuel' transfers
  end.

(** [unsigned int curr_size = min_size;
     while (curr_size <= max_size) { body; curr_size *= 2; }] *)
Fixpoint sweep (fuel : nat) (curr_size max_size : Z) (body : Z -> M unit) : M unit :=
  match fuel with
  | O => raise Spin
  | S fuel' =>
      if curr_size <=? max_size
      then body curr_size ;; sweep fuel' (wrap32 (curr_size * 2)) max_size body
      else ret tt
  end.

(** The sizes the sweep hands to its body, when it ends. *)
Fixpoint sweep_sizes (fuel : nat) (curr_size max_size : Z) : option (list Z) :=
  match fuel with
  | O => None
  | S fuel' =>
      if curr_size <=? max_size
      then option_map (cons curr_size)
             (sweep_sizes fuel' (wrap32 (curr_size * 2)) max_size)
      else Some []
  end.

Definition select_msg : string := "Couldn't select GPU!".

(** [if (hipSetDevice(d)) { throw std::runtime_error("Couldn't select GPU!"); }] *)
Definition select_gpu (d : Z) : M unit :=
  rc <- ext (hipSetDevice d) ;;
  if rc =? 0 then ret tt else raise (Throw select_msg).

(** [for (int i = 0; i < transfers; i++) invoke(REMOTE_RDMA_WRITE, sg);] *)
Definition issue_writes (transfers len : Z) : M unit :=
  for_int transfers (fun _ => ext_ (invoke REMOTE_RDMA_WRITE len)).

Definition IS_CLIENT : bool := false.

(** ** The host-side scatter server (lines 157-407) *)

Module Scatter.

Definition NUM_GPUS : Z := 4.

(** Lines 224-229. *)
Definition create_streams : M unit :=
  for_int NUM_GPUS (fun i =>
    select_gpu i ;;
    rc <- ext (hipStreamCreate i) ;;
    if negb (rc =? hipSuccess) then raise (Throw "Couldn't create stream!") else
    rc <- ext (hipEventCreate i) ;;
    if negb (rc =? hipSuccess) then raise (Throw "Couldn't create event!") else
    ret tt).

(** Lines 246-255: [&mem[i * 4096]] is the element [i * 4096] of an [int]
    array; the copy is 4096 bytes long and lands at the start of the device
    buffer.  The value [hipMemcpyAsync] returns is dropped. *)
Definition copy_chunks (len : Z) : M unit :=
  for_int (len / 4096) (fun i =>
    select_gpu (Z.rem i 4) ;;
    idx <- mul_int i 4096 ;;
    ext_ (hipMemcpyAsync (Z.rem i 4) 0 (idx * sizeof_int) 4096)).

(** Lines 284-292. *)
Definition sync_gpus : M unit :=
  for_int NUM_GPUS (fun i =>
    select_gpu i ;;
    rc <- ext hipDeviceSynchronize ;;
    if negb (rc =? hipSuccess) then raise (Throw "Couldn't synchronize stream!")
    else ret tt).

(** The device fan-out of one round: lines 246-292. *)
Definition fan_out (len : Z) : M unit :=
  copy_chunks len ;; sync_gpus.

(** The body of the round loop: lines 232-302. *)
Definition bench_round (fuel : nat) (len transfers : Z) (operation : bool) : M unit :=
  ext_ clearCompleted ;;
  ext_ (connSync IS_CLIENT) ;;
  if operation then
    wait_completed fuel transfers ;;
    fan_out len ;;
    issue_writes transfers len
  else ret tt.

(** Lines 306-310. *)
Definition destroy_streams : M unit :=
  for_int NUM_GPUS (fun i =>
    ext_ (hipStreamDestroy i) ;;
    ext_ (hipEventDestroy i)).

(** Lines 211-318.  Console output is not traced; the closing check loop has
    an empty body. *)
Definition run_bench (fuel : nat) (len transfers n_runs : Z) (operation : bool) : M unit :=
  emit (Enter len transfers n_runs operation) ;;
  emit (Fill (len / sizeof_int) operation) ;;
  create_streams ;;
  for_int n_runs (fun _ => bench_round fuel len transfers operation) ;;
  destroy_streams.

Section Main.

(** The repetition multiplier comes from [constants.hpp]; its value is left
    open. *)
Variable N_LATENCY_REPS : Z.

(** Lines 387-393. *)
Definition sweep_bench (fuel : nat) (operation : bool) (n_runs min_size max_size : Z) : M unit :=
  sweep fuel min_size max_size (fun curr_size =>
    run_bench fuel curr_size N_LATENCY_REPS (wrap32 (n_runs + 10)) operation).

(** Lines 320-407, after the command line has been parsed. *)
Definition main (fuel : nat) (operation : bool) (n_runs min_size max_size : Z) : M Z :=
  mem <- ext (initRDMA max_size) ;;
  if mem =? 0 then raise (Throw "Could not allocate memory; exiting...") else
  select_gpu 0 ;;
  vaddr_1 <- ext (getMem max_size 0) ;;
  vaddr_2 <- ext (getMem max_size 1) ;;
  vaddr_3 <- ext (getMem max_size 2) ;;
  vaddr_4 <- ext (getMem max_size 3) ;;
  if (vaddr_1 =? 0) || (vaddr_2 =? 0) || (vaddr_3 =? 0) || (vaddr_4 =? 0)
  then raise (Throw "Could not allocate memory for scatter buffers; exiting...") else
  select_gpu 0 ;;
  sweep_bench fuel operation n_runs min_size max_size ;;
  select_gpu 0 ;; ext_ (hipFree 0) ;;
  select_gpu 1 ;; ext_ (hipFree 1) ;;
  select_gpu 2 ;; ext_ (hipFree 2) ;;
  select_gpu 3 ;; ext_ (hipFree 3) ;;
  ext_ (connSync IS_CLIENT) ;;
  ret EXIT_SUCCESS.

End Main.

End Scatter.

(** ** The FPGA-side scatter server (lines 1-155) *)

Module Baseline.

(** The registers of the vFPGA. *)
Inductive ScatterRegisters : Type :=
| VADDR_1 | VADDR_2 | VADDR_3 | VADDR_4 | VADDR_VALID.

Definition reg_index (r : ScatterRegisters) : Z :=
  match r with
  | VADDR_1 => 0 | VADDR_2 => 1 | VADDR_3 => 2 | VADDR_4 => 3 | VADDR_VALID => 4
  end.

(** The body of the round loop: lines 64-78. *)
Definition bench_round (fuel : nat) (len transfers : Z) (operation : bool) : M unit :=
  ext_ clearCompleted ;;
  ext_ (connSync IS_CLIENT) ;;
  if operation then
    wait_completed fuel transfers ;;
    issue_writes transfers len
  else ret tt.

(** Lines 53-87. *)
Definition run_bench (fuel : nat) (len transfers n_runs : Z) (operation : bool) : M unit :=
  emit (Enter len transfers n_runs operation) ;;
  emit (Fill (len / sizeof_int) operation) ;;
  for_int n_runs (fun _ => bench_round fuel len transfers operation).

Section Main.

(** The repetition multipliers and the device come from [constants.hpp];
    their values are left open. *)
Variables N_THROUGHPUT_REPS N_LATENCY_REPS DEFAULT_GPU_ID : Z.

(** Lines 145-151. *)
Definition sweep_bench (fuel : nat) (operation : bool) (n_runs min_size max_size : Z) : M unit :=
  sweep fuel min_size max_size (fun curr_size =>
    run_bench fuel curr_size N_THROUGHPUT_REPS n_runs operation ;;
    run_bench fuel curr_size N_LATENCY_REPS n_runs operation).

(** Lines 89-156, after the command line has been parsed. *)
Definition main (fuel : nat) (operation : bool) (n_runs min_size max_size : Z) : M Z :=
  mem <- ext (initRDMA max_size) ;;
  if mem =? 0 then raise (Throw "Could not allocate memory; exiting...") else
  select_gpu DEFAULT_GPU_ID ;;
  vaddr_1 <- ext (getMem max_size DEFAULT_GPU_ID) ;;
  vaddr_2 <- ext (getMem max_size DEFAULT_GPU_ID) ;;
  vaddr_3 <- ext (getMem max_size DEFAULT_GPU_ID) ;;
  vaddr_4 <- ext (getMem max_size DEFAULT_GPU_ID) ;;
  if (vaddr_1 =? 0) || (vaddr_2 =? 0) || (vaddr_3 =? 0) || (vaddr_4 =? 0)
  then raise (Throw "Could not allocate memory for scatter buffers; exiting...") else
  ext_ (setCSR vaddr_1 (reg_index VADDR_1)) ;;
  ext_ (setCSR vaddr_2 (reg_index VADDR_2)) ;;
  ext_ (setCSR vaddr_3 (reg_index VADDR_3)) ;;
  ext_ (setCSR vaddr_4 (reg_index VADDR_4)) ;;
  ext_ (setCSR 1 (reg_index VADDR_VALID)) ;;
  sweep_bench fuel operation n_runs min_size max_size ;;
  ext_ (connSync IS_CLIENT) ;;
  ret EXIT_SUCCESS.

End Main.

End Baseline.

(** ** What a trace shows *)

Record copy : Type := mkCopy {
  dst_buf : Z;   (* the device buffer written *)
  dst_off : Z;   (* first byte written in it *)
  src_off : Z;   (* first byte read in the host buffer *)
  nbytes : Z
}.

Definition copy_of (ev : event) : list copy :=
  match ev with
  | Ext (hipMemcpyAsync b o s n) _ => [mkCopy b o s n]
  | _ => []
  end.

(** The copies asked for, oldest first, accepted or not. *)
Definition copies (tr : trace) : list copy := flat_map copy_of tr.

Definition write_of (ev : event) : list Z :=
  match ev with
  | Ext (invoke REMOTE_RDMA_WRITE len) _ => [len]
  | _ => []
  end.

(** The remote writes submitted, by length. *)
Definition remote_writes (tr : trace) : list Z := flat_map write_of tr.

Definition failed_select_of (ev : event) : list Z :=
  match ev with
  | Ext (hipSetDevice d) rc => if rc =? 0 then [] else [d]
  | _ => []
  end.

(** The devices that could not be made current. *)
Definition failed_selects (tr : trace) : list Z := flat_map failed_select_of tr.

Definition failed_copy_of (ev : event) : list copy :=
  match ev with
  | Ext (hipMemcpyAsync b o s n) rc => if rc =? hipSuccess then [] else [mkCopy b o s n]
  | _ => []
  end.

(** The copies that could not be enqueued. *)
Definition failed_copies (tr : trace) : list copy := flat_map failed_copy_of tr.

Definition verdict_of (ev : event) : list (copy * bool) :=
  match ev with
  | Ext (hipMemcpyAsync b o s n) rc => [(mkCopy b o s n, rc =? hipSuccess)]
  | _ => []
  end.

(** The copies asked for, oldest first, each with whether the run time
    accepted it. *)
Definition verdicts (tr : trace) : list (copy * bool) := flat_map verdict_of tr.

(** The copies the run time accepted: those that reach a device. *)
Definition landed (tr : trace) : list copy := map fst (filter snd (verdicts tr)).

Definition round_of (ev : event) : list unit :=
  match ev with
  | Ext clearCompleted _ => [tt]
  | _ => []
  end.

(** The number of rounds begun: each begins by clearing the completion flags. *)
Definition rounds (tr : trace) : Z := Z.of_nat (List.length (flat_map round_of tr)).

Definition invocation_of (ev : event) : list (Z * Z * Z) :=
  match ev with
  | Enter len transfers n_runs _ => [(len, transfers, n_runs)]
  | _ => []
  end.

(** The calls of [run_bench]: transfer size, transfers per round, rounds. *)
Definition invocations (tr : trace) : list (Z * Z * Z) := flat_map invocation_of tr.

Inductive mark : Type :=
| Call (len transfers n_runs : Z)   (* run_bench entered *)
| Round.                            (* a round begun *)

Definition mark_of (ev : event) : list mark :=
  match ev with
  | Enter len transfers n_runs _ => [Call len transfers n_runs]
  | Ext clearCompleted _ => [Round]
  | _ => []
  end.

(** The calls of [run_bench] and, after each, the rounds begun in it. *)
Definition schedule (tr : trace) : list mark := flat_map mark_of tr.


(** Copy number [i] of a fan-out. *)
Definition chunk_copy (i : Z) : copy :=
  mkCopy (i mod 4) 0 (i * 4096 * sizeof_int) 4096.

Definition chunk_copies (k : nat) : list copy :=
  map (fun i => chunk_copy (Z.of_nat i)) (seq 0 k).

(** An environment in which every call succeeds and the completion count
    already stands at [quota] whenever it is read. *)
Definition all_ok (quota : Z) : env :=
  fun _ c =>
    match c with
    | checkCompleted _ => quota
    | initRDMA _ => 4096
    | getMem _ _ => 4096
    | _ => 0
    end.

(** ** Assertions *)

(** [triple e P m Q E]: in the environment [e], started after events [s] with
    [P s], the computation [m] ends normally with [Q] of its result and of [s]
    extended by the new events, or leaves early with [E]. *)
Definition triple {A : Type} (e : env) (P : trace -> Prop) (m : M A)
    (Q : A -> trace -> Prop) (E : abort -> trace -> Prop) : Prop :=
  forall h s, P s ->
    match m e h with
    | (Done a, n) => Q a (s ++ n)
    | (Abort x, n) => E x (s ++ n)
    end.

(** [triple_from e h0 P m Q E]: the same, for a computation known to start
    after the history [h0] followed by the events [s]. *)
Definition triple_from {A : Type} (e : env) (h0 : trace) (P : trace -> Prop) (m : M A)
    (Q : A -> trace -> Prop) (E : abort -> trace -> Prop) : Prop :=
  forall s, P s ->
    match m e (h0 ++ s) with
    | (Done a, n) => Q a (s ++ n)
    | (Abort x, n) => E x (s ++ n)
    end.

(** [emits phi m]: every event [m] emits satisfies [phi]. *)
Definition emits {A : Type} (phi : event -> bool) (m : M A) : Prop :=
  forall e h, forallb phi (snd (m e h)) = true.

(** An extractor is silent on an event it draws nothing from. *)
Definition silent {X : Type} (f : event -> list X) (ev : event) : bool :=
  match f ev with
  | [] => true
  | _ :: _ => false
  end.

(** What any environment satisfies. *)
Definition any_answer : call -> Z -> Prop := fun _ _ => True.

(** ** Device memory *)

(** Which byte of the host buffer each written device byte holds: device
    buffer, then byte offset in it. *)
Definition dev_mem : Type := Z -> Z -> option Z.

Definition no_writes : dev_mem := fun _ _ => None.

Definition store (m : dev_mem) (c : copy) : dev_mem :=
  fun b o =>
    if (b =? dst_buf c) && (dst_off c <=? o) && (o <? dst_off c + nbytes c)
    then Some (src_off c + (o - dst_off c))
    else m b o.

(** The device buffers after the copies [cs] have retired, in the order
    enqueued (copies to one device retire in order).  It is to be fed with
    the copies the run time accepted, [landed]: a copy it refused writes
    nothing. *)
Definition replay (cs : list copy) : dev_mem := fold_left store cs no_writes.

(** ** The order of the phases of a round *)

Inductive phase : Type :=
| Outside    (* no round has begun *)
| Waiting    (* the round has begun; the completion count is short of the quota *)
| FanOut     (* the quota has been read; copies and synchronizations may run *)
| Issuing.   (* a remote write has been submitted *)

Record monitor : Type := mkMonitor {
  mon_phase : phase;
  mon_device : Z;        (* the device the last successful hipSetDevice chose *)
  mon_synced : list Z;   (* the devices synchronized since the last copy *)
  mon_ok : bool          (* no phase has begun before the one before it ended *)
}.

Definition monitor_init : monitor := mkMonitor Outside 0 [] true.

(** Every device target has been synchronized. *)
Definition all_synced (l : list Z) : bool :=
  forallb (fun d => existsb (Z.eqb d) l) [0; 1; 2; 3].

(** One event seen by the monitor of a round with transfer quota [quota]. *)
Definition monitor_step (quota : Z) (m : monitor) (ev : event) : monitor :=
  let ph := mon_phase m in
  let dev := mon_device m in
  let syn := mon_synced m in
  let ok := mon_ok m in
  match ev with
  | Enter _ _ _ _ => mkMonitor Outside dev [] ok
  | Ext clearCompleted _ => mkMonitor Waiting dev [] ok
  | Ext (checkCompleted LOCAL_WRITE) r =>
      match ph with
      | Outside => m
      | Waiting => mkMonitor (if r =? quota then FanOut else Waiting) dev syn ok
      | FanOut | Issuing => mkMonitor ph dev syn false
      end
  | Ext (hipSetDevice d) rc =>
      let dev' := if rc =? 0 then d else dev in
      match ph with
      | Outside | FanOut => mkMonitor ph dev' syn ok
      | Waiting | Issuing => mkMonitor ph dev' syn false
      end
  | Ext (hipMemcpyAsync _ _ _ _) _ =>
      match ph with
      | FanOut => mkMonitor ph dev [] ok
      | Outside | Waiting | Issuing => mkMonitor ph dev [] false
      end
  | Ext hipDeviceSynchronize rc =>
      let syn' := if rc =? hipSuccess then dev :: syn else syn in
      match ph with
      | Outside | FanOut => mkMonitor ph dev syn' ok
      | Waiting | Issuing => mkMonitor ph dev syn' false
      end
  | Ext (invoke REMOTE_RDMA_WRITE _) _ =>
      match ph with
      | FanOut | Issuing => mkMonitor Issuing dev syn (ok && all_synced syn)
      | Outside | Waiting => mkMonitor ph dev syn false
      end
  | _ => m
  end.

Definition monitor_run (quota : Z) (m : monitor) (tr : trace) : monitor :=
  fold_left (monitor_step quota) tr m.

(** [sequential quota tr]: in the trace [tr], within every round, no copy and
    no device call comes before the completion count has been read equal to
    [quota], no remote write comes before every device target has been
    synchronized after the last copy, and no count is read or device called
    once a remote write has been submitted. *)
Definition sequential (quota : Z) (tr : trace) : bool :=
  mon_ok (monitor_run quota monitor_init tr).

(** Events the monitor passes over. *)
Definition neutral (ev : event) : bool :=
  match ev with
  | Ext (hipStreamCreate _) _ | Ext (hipEventCreate _) _
  | Ext (hipStreamDestroy _) _ | Ext (hipEventDestroy _) _
  | Ext (hipFree _) _ | Ext (connSync _) _
  | Ext (initRDMA _) _ | Ext (getMem _ _) _ | Ext (setCSR _ _) _
  | Ext (checkCompleted REMOTE_RDMA_WRITE) _
  | Ext (invoke LOCAL_WRITE _) _
  | Fill _ _ => true
  | _ => false
  end.


(** An environment in which device [d] cannot be made current and every other
    call succeeds. *)
Definition select_fails_on (d quota : Z) : env :=
  fun h c =>
    match c with
    | hipSetDevice d' => if d' =? d then 101 else 0
    | _ => all_ok quota h c
    end.

(** An environment in which no copy can be enqueued and every other call
    succeeds. *)
Definition copy_fails (quota : Z) : env :=
  fun h c =>
    match c with
    | hipMemcpyAsync _ _ _ _ => 1
    | _ => all_ok quota h c
    end.


(** The last event of a trace is a device selection that failed. *)
Definition ends_in_failed_select (tr : trace) : Prop :=
  exists pre d rc, tr = pre ++ [Ext (hipSetDevice d) rc] /\ rc <> 0.

(** ** Environments that cooperate *)

(** The answer lets the program go on: device calls report success and
    allocations return a pointer that is not null. *)
Definition succeeds (c : call) (r : Z) : Prop :=
  match c with
  | hipSetDevice _ | hipStreamCreate _ | hipEventCreate _ | hipDeviceSynchronize =>
      r = hipSuccess
  | initRDMA _ | getMem _ _ => r <> 0
  | _ => True
  end.

Definition cooperative (e : env) : Prop :=
  forall h c, succeeds c (e h c).

(** The history after [j] more reads of the completion count. *)
Fixpoint polled (e : env) (h : trace) (j : nat) : trace :=
  match j with
  | O => h
  | S j' =>
      polled e (h ++ [Ext (checkCompleted LOCAL_WRITE) (e h (checkCompleted LOCAL_WRITE))]) j'
  end.

(** The quota of the benchmark call under way: the transfers per round that
    the last call of [run_bench] was entered with. *)
Definition awaited (h : trace) : option Z :=
  match rev (invocations h) with
  | (_, transfers, _) :: _ => Some transfers
  | [] => None
  end.

(** The peer delivers its writes: at any point of a benchmark call for
    [transfers] transfers per round, the completion count is read equal to
    [transfers] on one of the next [K] reads. *)
Definition delivers (e : env) (transfers : Z) (K : nat) : Prop :=
  forall h, awaited h = Some transfers ->
    exists j, (j < K)%nat /\
      e (polled e h j) (checkCompleted LOCAL_WRITE) = transfers.

Definition tally (n : Z) (ev : event) : Z :=
  match ev with
  | Ext clearCompleted _ => 0
  | Ext (checkCompleted LOCAL_WRITE) _ => n + 1
  | _ => n
  end.

(** How often the completion count has been read since the completion flags
    were last cleared. *)
Definition polls_since_clear (h : trace) : Z := fold_left tally h 0.

(** An environment in which every call succeeds and the peer's writes arrive
    one by one: after the flags are cleared the completion count reads 0,
    then one more at every read, until it stands at the quota of the
    benchmark call under way. *)
Definition counting : env :=
  fun h c =>
    match c with
    | checkCompleted _ =>
        match awaited h with
        | Some transfers => Z.min transfers (polls_since_clear h)
        | None => 0
        end
    | _ => all_ok 0 h c
    end.

(** ** The sizes of the sweep, as the specification has them *)

(** [min_size], [min_size * 2], [min_size * 4], ... up to and including the
    largest that does not exceed [max_size]. *)
Definition doubling_sizes (min_size max_size : Z) : list Z :=
  map (fun k => min_size * 2 ^ Z.of_nat k)
      (seq 0 (Z.to_nat (Z.log2 (max_size / min_size) + 1))).

(** [P] is kept by every event that does not begin a round. *)
Definition steady (P : trace -> Prop) : Prop :=
  forall s ev, round_of ev = [] -> P s -> P (s ++ [ev]).

(** An event that begins no round, enters no benchmark call and submits no
    remote write. *)
Definition quiet (ev : event) : bool :=
  silent round_of ev && silent invocation_of ev && silent write_of ev.

(** The last event of a trace is the synchronization with the peer. *)
Definition ends_in_sync (tr : trace) : Prop :=
  exists pre rc, tr = pre ++ [Ext (connSync IS_CLIENT) rc].

(** ** Further observations of a trace *)

Definition stream_msg : string := "Couldn't create stream!".

Definition event_msg : string := "Couldn't create event!".

Definition sync_msg : string := "Couldn't synchronize stream!".

Definition mem_msg : string := "Could not allocate memory; exiting...".

Definition buffers_msg : string :=
  "Could not allocate memory for scatter buffers; exiting...".

(** The message [run_bench] throws on a device call, when the call reports a
    failure that [run_bench] checks for. *)
Definition fatal_of (ev : event) : option string :=
  match ev with
  | Ext (hipSetDevice _) rc => if rc =? 0 then None else Some select_msg
  | Ext (hipStreamCreate _) rc => if rc =? hipSuccess then None else Some stream_msg
  | Ext (hipEventCreate _) rc => if rc =? hipSuccess then None else Some event_msg
  | Ext hipDeviceSynchronize rc => if rc =? hipSuccess then None else Some sync_msg
  | _ => None
  end.

Definition fatal_msg_of (ev : event) : list string :=
  match fatal_of ev with
  | Some msg => [msg]
  | None => []
  end.

(** The messages of the failed device calls of a trace. *)
Definition fatal_msgs (tr : trace) : list string := flat_map fatal_msg_of tr.

Definition poll_of (ev : event) : list Z :=
  match ev with
  | Ext (checkCompleted _) r => [r]
  | _ => []
  end.

(** The completion counts read. *)
Definition polls (tr : trace) : list Z := flat_map poll_of tr.

(** The steps of the protocol with the peer: the completion flags are
    cleared ([None]), or the peer is met in the role given ([Some client]). *)
Definition protocol_of (ev : event) : list (option bool) :=
  match ev with
  | Ext clearCompleted _ => [None]
  | Ext (connSync client) _ => [Some client]
  | _ => []
  end.

Definition protocol (tr : trace) : list (option bool) := flat_map protocol_of tr.

(** [k] rounds, seen from the peer: clear, then meet as the server. *)
Definition handshakes (k : nat) : list (option bool) :=
  flat_map (fun _ => [None; Some IS_CLIENT]) (seq 0 k).








Definition stream_failure_of (ev : event) : list Z :=
  match ev with
  | Ext (hipStreamCreate i) rc => if rc =? hipSuccess then [] else [i]
  | Ext (hipEventCreate i) rc => if rc =? hipSuccess then [] else [i]
  | _ => []
  end.

(** The streams and events that could not be created. *)
Definition stream_failures (tr : trace) : list Z := flat_map stream_failure_of tr.

(** The calls by which [main] sets memory up and tears it down, with the
    pointers the allocations return, and the benchmark calls between them. *)
Definition setup_of (ev : event) : list event :=
  match ev with
  | Ext (initRDMA size) r => [Ext (initRDMA size) r]
  | Ext (getMem size dev) r => [Ext (getMem size dev) r]
  | Ext (setCSR val reg) _ => [Ext (setCSR val reg) 0]
  | Ext (hipFree buf) _ => [Ext (hipFree buf) 0]
  | Enter len transfers n_runs operation => [Enter len transfers n_runs operation]
  | _ => []
  end.

Definition setup_log (tr : trace) : list event := flat_map setup_of tr.

Definition is_enter (ev : event) : bool :=
  match ev with
  | Enter _ _ _ _ => true
  | _ => false
  end.

Definition null_of (ev : event) : list event :=
  match ev with
  | Ext (initRDMA size) r => if r =? 0 then [ev] else []
  | Ext (getMem size dev) r => if r =? 0 then [ev] else []
  | _ => []
  end.

(** The allocations that returned a null pointer. *)
Definition null_allocs (tr : trace) : list event := flat_map null_of tr.

(** The event keeps within buffers of [max_size] bytes: a copy goes to one of
    the four device buffers, starts at its first byte, is 4096 bytes long and
    so ends inside it; a benchmark call is for a size that fits. *)
Definition within (max_size : Z) (ev : event) : bool :=
  match ev with
  | Ext (hipMemcpyAsync b o _ n) _ =>
      (0 <=? b) && (b <? 4) && (o =? 0) && (n =? 4096) && (o + n <=? max_size)
  | Enter len _ _ _ => (0 <=? len) && (len <=? max_size)
  | _ => true
  end.

Definition is_fill (ev : event) : bool :=
  match ev with
  | Fill _ _ => true
  | _ => false
  end.

(** [ends phi m]: when [m] does not return, it leaves in a way [phi] allows. *)
Definition ends {A : Type} (phi : abort -> bool) (m : M A) : Prop :=
  forall e h,
    match fst (m e h) with
    | Done _ => True
    | Abort x => phi x = true
    end.

(** Leaving a loop that is still running is ruled out. *)
Definition no_spin (x : abort) : bool :=
  match x with
  | Spin => false
  | _ => true
  end.

(** The exceptions of the host-side scatter server. *)
Definition known_throw (x : abort) : bool :=
  match x with
  | Throw msg =>
      existsb (String.eqb msg)
        [select_msg; stream_msg; event_msg; sync_msg; mem_msg; buffers_msg]
  | _ => true
  end.

(** An environment in which no stream can be created on device [d] and every
    other call succeeds. *)
Definition stream_fails_on (d quota : Z) : env :=
  fun h c =>
    match c with
    | hipStreamCreate d' => if d' =? d then 2 else 0
    | _ => all_ok quota h c
    end.

(** An environment in which the device buffer on device [d] cannot be
    allocated and every other call succeeds. *)
Definition alloc_fails_on (d quota : Z) : env :=
  fun h c =>
    match c with
    | getMem _ d' => if d' =? d then 0 else 4096
    | _ => all_ok quota h c
    end.

(** An environment in which no device can be synchronized and every other
    call succeeds. *)
Definition sync_fails (quota : Z) : env :=
  fun h c =>
    match c with
    | hipDeviceSynchronize => 719
    | _ => all_ok quota h c
    end.

(** ** The host staging buffer *)

(** [mem] as an array of [int]: the value of each element. *)
Definition host_mem : Type := Z -> Z.

(** [for (int i = 0; i < n; i++) mem[i] = zero ? 0 : i;], from index [i] on
    for [k] more elements. *)
Fixpoint fill_from (k : nat) (i : Z) (zero : bool) (mem : host_mem) : host_mem :=
  match k with
  | O => mem
  | S k' =>
      fill_from k' (i + 1) zero
        (fun j => if j =? i then (if zero then 0 else i) else mem j)
  end.

Definition fill (n : Z) (zero : bool) (mem : host_mem) : host_mem :=
  fill_from (Z.to_nat n) 0 zero mem.

Definition fill_step (mem : host_mem) (ev : event) : host_mem :=
  match ev with
  | Fill n zero => fill n zero mem
  | _ => mem
  end.

(** The staging buffer after the program's own writes to it. *)
Definition host_after (tr : trace) (mem : host_mem) : host_mem :=
  fold_left fill_step tr mem.

(** An exception is not among the ways to end. *)
Definition no_throw (x : abort) : bool :=
  match x with
  | Throw _ => false
  | _ => true
  end.

(** A call into the HIP run time. *)
Definition device_call (ev : event) : bool :=
  match ev with
  | Ext (hipSetDevice _) _ | Ext (hipStreamCreate _) _ | Ext (hipEventCreate _) _
  | Ext (hipMemcpyAsync _ _ _ _) _ | Ext hipDeviceSynchronize _
  | Ext (hipStreamDestroy _) _ | Ext (hipEventDestroy _) _ | Ext (hipFree _) _ => true
  | _ => false
  end.

(** * Properties *)

(** ** A program logic over traces *)

Section Logic.

Variable e : env.

(** What is known of the answers of the environment. *)
Variable Renv : call -> Z -> Prop.
Hypothesis e_ok : forall h c, Renv c (e h c).

Lemma triple_ret {A : Type} (a : A) (P : trace -> Prop) Q E :
  (forall s, P s -> Q a s) -> triple e P (ret a) Q E.
Proof.
  intros H h s Hs. cbn. rewrite app_nil_r. auto.
Qed.

Lemma triple_raise {A : Type} (x : abort) (P : trace -> Prop) (Q : A -> trace -> Prop) E :
  (forall s, P s -> E x s) -> triple e P (raise x) Q E.
Proof.
  intros H h s Hs. cbn. rewrite app_nil_r. auto.
Qed.

Lemma triple_bind {A B : Type} (m : M A) (f : A -> M B) P R Q E :
  triple e P m R E ->
  (forall a, triple e (R a) (f a) Q E) ->
  triple e P (bind m f) Q E.
Proof.
  intros Hm Hf h s Hs. unfold bind.
  specialize (Hm h s Hs).
  destruct (m e h) as [[a | x] n1]; [ | exact Hm ].
  specialize (Hf a (h ++ n1) (s ++ n1) Hm).
  destruct (f a e (h ++ n1)) as [[b | y] n2]; rewrite app_assoc; exact Hf.
Qed.

Lemma triple_ext (c : call) (P : trace -> Prop) Q E :
  (forall s r, P s -> Renv c r -> Q r (s ++ [Ext c r])) ->
  triple e P (ext c) Q E.
Proof.
  intros H h s Hs. cbn. auto.
Qed.

Lemma triple_ext_ (c : call) (P : trace -> Prop) Q E :
  (forall s r, P s -> Renv c r -> Q tt (s ++ [Ext c r])) ->
  triple e P (ext_ c) Q E.
Proof.
  intros H. unfold ext_.
  apply triple_bind with (R := fun r s => exists s0, s = s0 ++ [Ext c r] /\ P s0 /\ Renv c r).
  - apply triple_ext. eauto.
  - intros r. apply triple_ret. intros s (s0 & -> & Hs0 & Hr). auto.
Qed.

Lemma triple_emit (ev : event) (P : trace -> Prop) Q E :
  (forall s, P s -> Q tt (s ++ [ev])) ->
  triple e P (emit ev) Q E.
Proof.
  intros H h s Hs. cbn. auto.
Qed.

Lemma triple_conseq {A : Type} (m : M A) (P P' : trace -> Prop)
    (Q Q' : A -> trace -> Prop) (E E' : abort -> trace -> Prop) :
  triple e P m Q E ->
  (forall s, P' s -> P s) ->
  (forall a s, Q a s -> Q' a s) ->
  (forall x s, E x s -> E' x s) ->
  triple e P' m Q' E'.
Proof.
  intros Hm HP HQ HE h s Hs. specialize (Hm h s (HP s Hs)).
  destruct (m e h) as [[a | x] n]; auto.
Qed.

Lemma triple_if {A : Type} (b : bool) (m1 m2 : M A) P Q E :
  (b = true -> triple e P m1 Q E) ->
  (b = false -> triple e P m2 Q E) ->
  triple e P (if b then m1 else m2) Q E.
Proof.
  destruct b; auto.
Qed.

Lemma triple_incr_int (i : Z) (P : trace -> Prop) Q E :
  (forall s, P s -> i < INT_MAX -> Q tt s) ->
  (forall s, P s -> INT_MAX <= i -> E Undefined s) ->
  triple e P (incr_int i) Q E.
Proof.
  intros HQ HE. unfold incr_int. apply triple_if; intros Hi.
  - apply triple_ret. intros. apply HQ; auto. lia.
  - apply triple_raise. intros. apply HE; auto. lia.
Qed.

Lemma triple_mul_int (a b : Z) (P : trace -> Prop) Q E :
  (forall s, P s -> a * b <= INT_MAX -> Q (a * b) s) ->
  (forall s, P s -> INT_MAX < a * b -> E Undefined s) ->
  triple e P (mul_int a b) Q E.
Proof.
  intros HQ HE. unfold mul_int. apply triple_if; intros Hi.
  - apply triple_ret. intros. apply HQ; auto. lia.
  - apply triple_raise. intros. apply HE; auto. lia.
Qed.

(** The loop rule: [I j] holds before iteration [j]. *)
Lemma triple_for_from (k : nat) (body : Z -> M unit) (I : Z -> trace -> Prop) E :
  forall i,
  (forall j, i <= j < i + Z.of_nat k ->
     triple e (I j) (body j) (fun _ => I (j + 1)) E) ->
  (forall j s, i <= j < i + Z.of_nat k -> INT_MAX <= j -> I (j + 1) s -> E Undefined s) ->
  triple e (I i) (for_from k i body) (fun _ => I (i + Z.of_nat k)) E.
Proof.
  induction k as [ | k IH ]; intros i Hbody Hover; cbn [for_from].
  - apply triple_ret. intros s Hs. now replace (i + Z.of_nat 0) with i by lia.
  - apply triple_bind with (R := fun _ => I (i + 1)).
    + apply Hbody. lia.
    + intros _. apply triple_bind with (R := fun _ => I (i + 1)).
      * apply triple_incr_int; [ auto | ].
        intros s Hs Hi. apply (Hover i); auto. lia.
      * intros _. replace (i + Z.of_nat (S k)) with (i + 1 + Z.of_nat k) by lia.
        apply IH.
        -- intros j Hj. apply Hbody. lia.
        -- intros j s Hj. apply Hover. lia.
Qed.

Lemma triple_for_int (bound : Z) (body : Z -> M unit) (I : Z -> trace -> Prop) E :
  0 <= bound ->
  (forall j, 0 <= j < bound -> triple e (I j) (body j) (fun _ => I (j + 1)) E) ->
  (forall j s, 0 <= j < bound -> INT_MAX <= j -> I (j + 1) s -> E Undefined s) ->
  triple e (I 0) (for_int bound body) (fun _ => I bound) E.
Proof.
  intros Hb Hbody Hover. unfold for_int.
  pose proof (triple_for_from (Z.to_nat bound) body I E 0) as H.
  replace (0 + Z.of_nat (Z.to_nat bound)) with bound in H by lia.
  apply H.
  - intros j Hj. apply Hbody. lia.
  - intros j s Hj. apply Hover. lia.
Qed.

(** The busy wait: [I] holds while the count differs from the quota. *)
Lemma triple_wait_completed (fuel : nat) (transfers : Z) (I : trace -> Prop) Q E :
  (forall s r, I s -> r <> transfers -> I (s ++ [Ext (checkCompleted LOCAL_WRITE) r])) ->
  (forall s, I s -> Q tt (s ++ [Ext (checkCompleted LOCAL_WRITE) transfers])) ->
  (forall s, I s -> E Spin s) ->
  triple e I (wait_completed fuel transfers) Q E.
Proof.
  intros Hstep Hend Hspin.
  induction fuel as [ | fuel IH ]; cbn [wait_completed].
  - apply triple_raise. auto.
  - apply triple_bind with
      (R := fun r s => exists s0, s = s0 ++ [Ext (checkCompleted LOCAL_WRITE) r] /\ I s0).
    + apply triple_ext. eauto.
    + intros r. apply triple_if; intros Hr.
      * apply triple_ret. intros s (s0 & -> & Hs0).
        apply Z.eqb_eq in Hr. subst r. auto.
      * eapply triple_conseq; [ exact IH | | auto | auto ].
        intros s (s0 & -> & Hs0). apply Hstep; auto.
        apply Z.eqb_neq in Hr. exact Hr.
Qed.

(** The sweep: [I c] holds before the iteration at size [c]. *)
Lemma triple_sweep (fuel : nat) (max_size : Z) (body : Z -> M unit)
    (I : Z -> trace -> Prop) (Q : unit -> trace -> Prop) E :
  (forall c, c <= max_size ->
     triple e (I c) (body c) (fun _ => I (wrap32 (c * 2))) E) ->
  (forall c s, max_size < c -> I c s -> Q tt s) ->
  (forall c s, I c s -> E Spin s) ->
  forall c, triple e (I c) (sweep fuel c max_size body) Q E.
Proof.
  intros Hbody Hend Hspin.
  induction fuel as [ | fuel IH ]; intros c; cbn [sweep].
  - apply triple_raise. eauto.
  - apply triple_if; intros Hc.
    + apply triple_bind with (R := fun _ => I (wrap32 (c * 2))).
      * apply Hbody. lia.
      * intros _. apply IH.
    + apply triple_ret. intros s Hs. apply (Hend c); auto. lia.
Qed.

End Logic.

(** ** Footprints: the events a computation can emit *)

Lemma emits_ret {A : Type} phi (a : A) : emits phi (ret a).
Proof. intros e h. reflexivity. Qed.

Lemma emits_raise {A : Type} phi x : emits phi (@raise A x).
Proof. intros e h. reflexivity. Qed.

Lemma emits_bind {A B : Type} phi (m : M A) (f : A -> M B) :
  emits phi m -> (forall a, emits phi (f a)) -> emits phi (bind m f).
Proof.
  intros Hm Hf e h. unfold bind.
  specialize (Hm e h).
  destruct (m e h) as [[a | x] n1]; cbn in *; [ | exact Hm ].
  specialize (Hf a e (h ++ n1)).
  destruct (f a e (h ++ n1)) as [o n2]; cbn in *.
  rewrite forallb_app, Hm, Hf. reflexivity.
Qed.

Lemma emits_ext phi c : (forall r, phi (Ext c r) = true) -> emits phi (ext c).
Proof. intros H e h. cbn. now rewrite H. Qed.

Lemma emits_ext_ phi c : (forall r, phi (Ext c r) = true) -> emits phi (ext_ c).
Proof.
  intros H. apply emits_bind; [ now apply emits_ext | intros; apply emits_ret ].
Qed.

Lemma emits_emit phi ev : phi ev = true -> emits phi (emit ev).
Proof. intros H e h. cbn. now rewrite H. Qed.

Lemma emits_if {A : Type} phi (b : bool) (m1 m2 : M A) :
  emits phi m1 -> emits phi m2 -> emits phi (if b then m1 else m2).
Proof. destruct b; auto. Qed.

Lemma emits_for_from phi (body : Z -> M unit) :
  (forall j, emits phi (body j)) -> forall k i, emits phi (for_from k i body).
Proof.
  intros Hb. induction k as [ | k IH ]; intros i; cbn [for_from].
  - apply emits_ret.
  - apply emits_bind; [ apply Hb | intros _ ].
    apply emits_bind; [ | intros _; apply IH ].
    unfold incr_int. apply emits_if; [ apply emits_ret | apply emits_raise ].
Qed.

Lemma emits_for_int phi bound (body : Z -> M unit) :
  (forall j, emits phi (body j)) -> emits phi (for_int bound body).
Proof. intros Hb. now apply emits_for_from. Qed.

Lemma emits_mul_int phi a b : emits phi (mul_int a b).
Proof. unfold mul_int. apply emits_if; [ apply emits_ret | apply emits_raise ]. Qed.

Lemma emits_wait_completed phi transfers :
  (forall r, phi (Ext (checkCompleted LOCAL_WRITE) r) = true) ->
  forall fuel, emits phi (wait_completed fuel transfers).
Proof.
  intros H. induction fuel as [ | fuel IH ]; cbn [wait_completed].
  - apply emits_raise.
  - apply emits_bind; [ now apply emits_ext | intros r ].
    apply emits_if; [ apply emits_ret | exact IH ].
Qed.

Lemma emits_sweep phi max_size (body : Z -> M unit) :
  (forall c, emits phi (body c)) ->
  forall fuel c, emits phi (sweep fuel c max_size body).
Proof.
  intros Hb. induction fuel as [ | fuel IH ]; intros c; cbn [sweep].
  - apply emits_raise.
  - apply emits_if; [ | apply emits_ret ].
    apply emits_bind; [ apply Hb | intros _; apply IH ].
Qed.

Lemma emits_select_gpu phi d :
  (forall r, phi (Ext (hipSetDevice d) r) = true) -> emits phi (select_gpu d).
Proof.
  intros H. apply emits_bind; [ now apply emits_ext | intros r ].
  apply emits_if; [ apply emits_ret | apply emits_raise ].
Qed.

Ltac emits_auto :=
  repeat first
    [ apply emits_ret
    | apply emits_raise
    | apply emits_mul_int
    | apply emits_ext_; intros; reflexivity
    | apply emits_ext; intros; reflexivity
    | apply emits_emit; reflexivity
    | apply emits_select_gpu; intros; reflexivity
    | apply emits_wait_completed; intros; reflexivity
    | apply emits_for_int; intros ?
    | apply emits_sweep; intros ?
    | apply emits_if
    | apply emits_bind; [ | intros ? ] ].

Lemma silent_flat_map {X : Type} (f : event -> list X) (tr : trace) :
  forallb (silent f) tr = true -> flat_map f tr = [].
Proof.
  induction tr as [ | ev tr IH ]; cbn; [ reflexivity | ].
  intros H. apply andb_true_iff in H as [Hev Htr].
  unfold silent in Hev. destruct (f ev); [ auto | discriminate ].
Qed.

(** A computation that is silent for [f] leaves what [f] extracts unchanged. *)
Lemma emits_frame {A X : Type} (f : event -> list X) (m : M A) e (v : list X) E :
  emits (silent f) m ->
  (forall x s, flat_map f s = v -> E x s) ->
  triple e (fun s => flat_map f s = v) m (fun _ s => flat_map f s = v) E.
Proof.
  intros Hm HE h s Hs. specialize (Hm e h).
  destruct (m e h) as [[a | x] n]; cbn in Hm.
  - rewrite flat_map_app, (silent_flat_map _ _ Hm), app_nil_r. exact Hs.
  - apply HE. rewrite flat_map_app, (silent_flat_map _ _ Hm), app_nil_r. exact Hs.
Qed.

Lemma any_answer_ok (e : env) : forall h c, any_answer c (e h c).
Proof. intros h c. exact I. Qed.

Lemma triple_select_gpu (e : env) (Renv : call -> Z -> Prop) (e_ok : forall h c, Renv c (e h c))
    (d : Z) (P : trace -> Prop) (Q : unit -> trace -> Prop) E :
  (forall s, P s -> Renv (hipSetDevice d) 0 -> Q tt (s ++ [Ext (hipSetDevice d) 0])) ->
  (forall s r, P s -> r <> 0 -> Renv (hipSetDevice d) r ->
     E (Throw select_msg) (s ++ [Ext (hipSetDevice d) r])) ->
  triple e P (select_gpu d) Q E.
Proof.
  intros HQ HE. unfold select_gpu.
  apply triple_bind with
    (R := fun r s => exists s0, s = s0 ++ [Ext (hipSetDevice d) r] /\ P s0
                                /\ Renv (hipSetDevice d) r).
  - apply (triple_ext e Renv e_ok). eauto.
  - intros r. apply triple_if; intros Hr.
    + apply triple_ret. intros s (s0 & -> & Hs0 & Hr0).
      apply Z.eqb_eq in Hr. subst r. auto.
    + apply triple_raise. intros s (s0 & -> & Hs0 & Hr0).
      apply Z.eqb_neq in Hr. auto.
Qed.

(** ** The fan-out: which copies are enqueued *)

Lemma chunk_copies_snoc (k : nat) :
  chunk_copies (S k) = chunk_copies k ++ [chunk_copy (Z.of_nat k)].
Proof.
  unfold chunk_copies. rewrite seq_S, map_app. reflexivity.
Qed.

Lemma length_chunk_copies (k : nat) : List.length (chunk_copies k) = k.
Proof. unfold chunk_copies. now rewrite length_map, length_seq. Qed.



Section FanOut.

Variable e : env.

(** The copy loop enqueues the chunk copies in order, and only those. *)
Lemma copy_chunks_copies (len : Z) :
  0 <= len ->
  triple e (fun s => copies s = [])
    (Scatter.copy_chunks len)
    (fun _ s => copies s = chunk_copies (Z.to_nat (len / 4096)))
    (fun _ s => exists k, (k <= Z.to_nat (len / 4096))%nat /\ copies s = chunk_copies k).
Proof.
  intros Hlen. unfold Scatter.copy_chunks.
  assert (Hb : 0 <= len / 4096) by (apply Z.div_pos; lia).
  pose (I := fun (j : Z) (s : trace) => 0 <= j <= len / 4096 /\ copies s = chunk_copies (Z.to_nat j)).
  pose (E := fun (_ : abort) (s : trace) =>
               exists k, (k <= Z.to_nat (len / 4096))%nat /\ copies s = chunk_copies k).
  apply triple_conseq with (P := I 0) (Q := fun _ => I (len / 4096)) (E := E).
  - apply triple_for_int; [ exact Hb | | ].
    + intros j Hj.
      apply triple_bind with (R := fun _ => I j).
      * apply (triple_select_gpu e any_answer (any_answer_ok e)).
        -- intros s [Hr Hs] _. split; [ exact Hr | ].
           unfold copies in *. now rewrite flat_map_app, Hs, app_nil_r.
        -- intros s r [Hr Hs] _ _. exists (Z.to_nat j). split; [ lia | ].
           unfold copies in *. rewrite flat_map_app, Hs. cbn.
           destruct (r =? 0); now rewrite app_nil_r.
      * intros _.
        apply triple_bind with (R := fun idx s => idx = j * 4096 /\ I j s).
        -- apply triple_mul_int; [ auto | ].
           intros s [Hr Hs] _. exists (Z.to_nat j). split; [ lia | exact Hs ].
        -- intros idx. apply (triple_ext_ e any_answer (any_answer_ok e)).
           intros s r [-> [Hr Hs]] _. split; [ lia | ].
           unfold copies in *. rewrite flat_map_app, Hs. cbn.
           replace (Z.to_nat (j + 1)) with (S (Z.to_nat j)) by lia.
           rewrite chunk_copies_snoc. unfold chunk_copy.
           rewrite Z2Nat.id by lia.
           rewrite Z.rem_mod_nonneg by lia. reflexivity.
    + intros j s Hj _ [Hr Hs]. exists (Z.to_nat (j + 1)). split; [ lia | exact Hs ].
  - intros s Hs. split; [ lia | exact Hs ].
  - intros a s [_ Hs]. exact Hs.
  - auto.
Qed.

Lemma sync_gpus_silent : emits (silent copy_of) Scatter.sync_gpus.
Proof. unfold Scatter.sync_gpus. emits_auto. Qed.

(** The fan-out enqueues the chunk copies in order, and only those; when it
    returns, all of them. *)
Lemma fan_out_copies (len : Z) :
  0 <= len ->
  triple e (fun s => copies s = [])
    (Scatter.fan_out len)
    (fun _ s => copies s = chunk_copies (Z.to_nat (len / 4096)))
    (fun _ s => exists k, (k <= Z.to_nat (len / 4096))%nat /\ copies s = chunk_copies k).
Proof.
  intros Hlen. unfold Scatter.fan_out.
  eapply triple_bind; [ now apply copy_chunks_copies | intros a ].
  apply emits_frame; [ apply sync_gpus_silent | ].
  intros x s Hs. exists (Z.to_nat (len / 4096)). split; [ lia | exact Hs ].
Qed.

End FanOut.

(** ** The fan-out: what the device buffers hold *)


Lemma nth_error_chunk_copies (k : nat) (i : Z) :
  0 <= i < Z.of_nat k ->
  nth_error (chunk_copies k) (Z.to_nat i) = Some (chunk_copy i).
Proof.
  intros Hi. unfold chunk_copies.
  rewrite nth_error_map, nth_error_seq.
  destruct (Nat.ltb_spec (Z.to_nat i) k) as [ _ | Hge ]; [ | lia ].
  cbn. now rewrite Z2Nat.id by lia.
Qed.

(** What one run of the fan-out leaves: the copies it enqueued are the first
    [k] chunk copies, with [k] the number of chunks when it returns. *)
Lemma fan_out_run (e : env) (h : trace) (len : Z) :
  0 <= len ->
  exists k, 0 <= k <= len / 4096 /\
    (fst (Scatter.fan_out len e h) = Done tt -> k = len / 4096) /\
    copies (snd (Scatter.fan_out len e h)) = chunk_copies (Z.to_nat k).
Proof.
  intros Hlen.
  assert (Hb : 0 <= len / 4096) by (apply Z.div_pos; lia).
  pose proof (fan_out_copies e len Hlen h [] eq_refl) as H.
  destruct (Scatter.fan_out len e h) as [[[] | x] n]; cbn [fst snd app] in *.
  - exists (len / 4096). repeat split; auto; lia.
  - destruct H as (k & Hk & Hc). exists (Z.of_nat k).
    rewrite Nat2Z.id. repeat split; try lia; auto. discriminate.
Qed.

(** ** The copies the run time accepted *)











(** With every copy accepted, over 20480 bytes device 0 ends up with chunk 4,
    which has overwritten chunk 0, and device 1 with chunk 1; nothing lies
    beyond the first 4096 bytes. *)
Example fan_out_last_chunk_wins :
  replay (landed (snd (Scatter.fan_out 20480 (all_ok 1) []))) 0 0 = Some 65536 /\
  replay (landed (snd (Scatter.fan_out 20480 (all_ok 1) []))) 1 0 = Some 16384 /\
  replay (landed (snd (Scatter.fan_out 20480 (all_ok 1) []))) 0 4096 = None.
Proof. repeat split; reflexivity. Qed.


(** C2, amended: the fan-out enqueues exactly [len / 4096] copies, rounded
    down, each of 4096 bytes, copy [i] to device [i mod 4] counting from 0; no
    shorter copy is made for what is left over.  For 10000 bytes these are two
    copies, to the devices 0 and 1; the devices 2 and 3 receive nothing. *)
Theorem fan_out_chunks (e : env) (h : trace) (len : Z) :
  0 <= len < 2 ^ 32 ->
  fst (Scatter.fan_out len e h) = Done tt ->
  Z.of_nat (List.length (copies (snd (Scatter.fan_out len e h)))) = len / 4096 /\
  (forall i, 0 <= i < len / 4096 ->
     exists c, nth_error (copies (snd (Scatter.fan_out len e h))) (Z.to_nat i) = Some c /\
               dst_buf c = i mod 4 /\ nbytes c = 4096) /\
  (len = 10000 ->
     map (fun c => (dst_buf c, nbytes c)) (copies (snd (Scatter.fan_out len e h)))
     = [(0, 4096); (1, 4096)]).
Proof.
  intros Hlen Hdone.
  destruct (fan_out_run e h len) as (k & Hk & Hd & Hc); [ lia | ].
  specialize (Hd Hdone). subst k. rewrite Hc.
  split; [ | split ].
  - rewrite length_chunk_copies. lia.
  - intros i Hi. exists (chunk_copy i). split; [ | split; reflexivity ].
    apply nth_error_chunk_copies. lia.
  - intros ->. reflexivity.
Qed.

Lemma fan_out_chunks_witness :
  0 <= 10000 < 2 ^ 32 /\
  fst (Scatter.fan_out 10000 (all_ok 1) []) = Done tt /\
  Z.of_nat (List.length (copies (snd (Scatter.fan_out 10000 (all_ok 1) [])))) = 10000 / 4096 /\
  (forall i, 0 <= i < 10000 / 4096 ->
     exists c, nth_error (copies (snd (Scatter.fan_out 10000 (all_ok 1) []))) (Z.to_nat i) = Some c /\
               dst_buf c = i mod 4 /\ nbytes c = 4096) /\
  (10000 = 10000 ->
     map (fun c => (dst_buf c, nbytes c)) (copies (snd (Scatter.fan_out 10000 (all_ok 1) [])))
     = [(0, 4096); (1, 4096)]).
Proof.
  split; [ lia | ]. split; [ reflexivity | ].
  apply (fan_out_chunks (all_ok 1) [] 10000); [ lia | reflexivity ].
Defined.

(** C2 as stated fails: for 10000 bytes the fan-out returns after two copies
    of 4096 bytes, not three, and no copy of 1808 bytes goes to device 2. *)
Lemma fan_out_chunks_counterexample :
  fst (Scatter.fan_out 10000 (all_ok 1) []) = Done tt /\
  map (fun c => (dst_buf c, nbytes c)) (copies (snd (Scatter.fan_out 10000 (all_ok 1) [])))
  = [(0, 4096); (1, 4096)] /\
  map (fun c => (dst_buf c, nbytes c)) (copies (snd (Scatter.fan_out 10000 (all_ok 1) [])))
  <> [(0, 4096); (1, 4096); (2, 1808)] /\
  Z.of_nat (List.length (copies (snd (Scatter.fan_out 10000 (all_ok 1) []))))
  <> (10000 + 4096 - 1) / 4096.
Proof.
  repeat split; discriminate.
Qed.

(** ** The order of the phases of a round *)

Lemma triple_for_inv (e : env) (bound : Z) (body : Z -> M unit) (P : trace -> Prop) E :
  (forall j, 0 <= j -> triple e P (body j) (fun _ => P) E) ->
  (forall s, P s -> E Undefined s) ->
  triple e P (for_int bound body) (fun _ => P) E.
Proof.
  intros Hbody Hover. unfold for_int.
  apply (triple_for_from e (Z.to_nat bound) body (fun _ => P) E 0).
  - intros j Hj. apply Hbody. lia.
  - intros j s _ _. apply Hover.
Qed.

Lemma monitor_run_snoc (q : Z) (m : monitor) (s : trace) (ev : event) :
  monitor_run q m (s ++ [ev]) = monitor_step q (monitor_run q m s) ev.
Proof. unfold monitor_run. now rewrite fold_left_app. Qed.

Lemma monitor_run_app (q : Z) (m : monitor) (s n : trace) :
  monitor_run q m (s ++ n) = monitor_run q (monitor_run q m s) n.
Proof. unfold monitor_run. now rewrite fold_left_app. Qed.

Lemma neutral_step (q : Z) (m : monitor) (ev : event) :
  neutral ev = true -> monitor_step q m ev = m.
Proof.
  destruct ev as [c r | n z | ? ? ? ?]; try discriminate; try reflexivity.
  destruct c as [ | | | | | | | | | | [] | [] ? | | | ]; try discriminate; reflexivity.
Qed.

Lemma neutral_run (q : Z) (m : monitor) (n : trace) :
  forallb neutral n = true -> monitor_run q m n = m.
Proof.
  induction n as [ | ev n IH ] using rev_ind; [ reflexivity | ].
  rewrite forallb_app. cbn. intros H.
  apply andb_true_iff in H as [Hn Hev]. apply andb_true_iff in Hev as [Hev _].
  rewrite monitor_run_snoc, IH, neutral_step; auto.
Qed.

(** A computation of neutral events keeps whatever the monitor has reached. *)
Lemma neutral_frame {A : Type} (e : env) (q : Z) (m0 : monitor) (m : M A)
    (P : monitor -> Prop) E :
  emits neutral m ->
  (forall x s, P (monitor_run q m0 s) -> E x s) ->
  triple e (fun s => P (monitor_run q m0 s)) m (fun _ s => P (monitor_run q m0 s)) E.
Proof.
  intros Hm HE h s Hs. specialize (Hm e h).
  destruct (m e h) as [[a | x] n]; cbn in Hm.
  - rewrite monitor_run_app, neutral_run; auto.
  - apply HE. rewrite monitor_run_app, neutral_run; auto.
Qed.

Lemma all_synced_in (l : list Z) :
  (forall d, 0 <= d < 4 -> In d l) -> all_synced l = true.
Proof.
  intros H. unfold all_synced. apply forallb_forall. intros d Hd.
  apply existsb_exists. exists d. split; [ | apply Z.eqb_refl ].
  apply H. cbn in Hd. lia.
Qed.

Section Sequential.

Variable e : env.
Variable q : Z.
Variable m0 : monitor.

Let mon (s : trace) : monitor := monitor_run q m0 s.
Let ok (s : trace) : Prop := mon_ok (mon s) = true.
Let at_phase (p : phase) (s : trace) : Prop := mon_phase (mon s) = p /\ ok s.

Ltac see_event :=
  unfold at_phase, ok, mon in *; rewrite ?monitor_run_snoc;
  destruct (monitor_run q m0 _) as [ph dev syn okb]; cbn in *.

Lemma select_gpu_in_phase (p : phase) (d : Z) (P : monitor -> Prop) :
  p = Outside \/ p = FanOut ->
  (forall ph dev syn okb, P (mkMonitor ph dev syn okb) -> forall dev', P (mkMonitor ph dev' syn okb)) ->
  triple e (fun s => at_phase p s /\ P (mon s))
    (select_gpu d)
    (fun _ s => at_phase p s /\ P (mon s) /\ mon_device (mon s) = d)
    (fun _ s => ok s).
Proof.
  intros Hp HP.
  apply (triple_select_gpu e any_answer (any_answer_ok e)).
  - intros s [[Hph Hok] Hs] _. see_event.
    destruct Hp; subst; cbn; repeat split; auto; eapply HP; eauto.
  - intros s r [[Hph Hok] Hs] _ _. see_event.
    destruct Hp; subst; cbn; auto.
Qed.

Lemma create_streams_sequential :
  triple e (at_phase Outside) Scatter.create_streams
    (fun _ => at_phase Outside) (fun _ => ok).
Proof.
  unfold Scatter.create_streams.
  apply triple_for_inv; [ intros j _ | intros s [_ Hs]; exact Hs ].
  apply triple_bind with (R := fun _ => at_phase Outside).
  - eapply triple_conseq.
    + apply (select_gpu_in_phase Outside j (fun _ => True)); auto.
    + cbn. auto.
    + cbn. intros ? s (H & _). exact H.
    + auto.
  - intros _.
    apply triple_bind with (R := fun _ => at_phase Outside).
    + apply (triple_ext e any_answer (any_answer_ok e)).
      intros s r Hs _. see_event. exact Hs.
    + intros rc. apply triple_if; intros _.
      * apply triple_raise. intros s [_ Hs]. exact Hs.
      * apply triple_bind with (R := fun _ => at_phase Outside).
        -- apply (triple_ext e any_answer (any_answer_ok e)).
           intros s r Hs _. see_event. exact Hs.
        -- intros rc'. apply triple_if; intros _.
           ++ apply triple_raise. intros s [_ Hs]. exact Hs.
           ++ apply triple_ret. auto.
Qed.

Lemma copy_chunks_sequential (len : Z) :
  triple e (at_phase FanOut) (Scatter.copy_chunks len)
    (fun _ => at_phase FanOut) (fun _ => ok).
Proof.
  unfold Scatter.copy_chunks.
  apply triple_for_inv; [ intros j _ | intros s [_ Hs]; exact Hs ].
  apply triple_bind with (R := fun _ => at_phase FanOut).
  - eapply triple_conseq.
    + apply (select_gpu_in_phase FanOut (Z.rem j 4) (fun _ => True)); auto.
    + cbn. auto.
    + cbn. intros ? s (H & _). exact H.
    + auto.
  - intros _.
    apply triple_bind with (R := fun _ => at_phase FanOut).
    + apply triple_mul_int; [ auto | intros s [_ Hs] _; exact Hs ].
    + intros idx. apply (triple_ext_ e any_answer (any_answer_ok e)).
      intros s r [Hph Hok] _. see_event. subst. cbn. auto.
Qed.

Lemma sync_gpus_sequential :
  triple e (at_phase FanOut) Scatter.sync_gpus
    (fun _ s => at_phase FanOut s /\ all_synced (mon_synced (mon s)) = true)
    (fun _ => ok).
Proof.
  unfold Scatter.sync_gpus.
  pose (I := fun (j : Z) (s : trace) =>
               at_phase FanOut s /\ forall d, 0 <= d < j -> In d (mon_synced (mon s))).
  apply triple_conseq with (P := I 0) (Q := fun _ => I Scatter.NUM_GPUS) (E := fun _ => ok).
  - apply triple_for_int; [ unfold Scatter.NUM_GPUS; lia | | ].
    + intros j Hj.
      apply triple_bind with
        (R := fun _ s => at_phase FanOut s
                         /\ (forall d, 0 <= d < j -> In d (mon_synced (mon s)))
                         /\ mon_device (mon s) = j).
      * apply (select_gpu_in_phase FanOut j
                 (fun m => forall d, 0 <= d < j -> In d (mon_synced m))).
        -- auto.
        -- cbn. auto.
      * intros _.
        apply triple_bind with
          (R := fun rc s => at_phase FanOut s
                            /\ (forall d, 0 <= d < j -> In d (mon_synced (mon s)))
                            /\ (rc = hipSuccess -> In j (mon_synced (mon s)))).
        -- apply (triple_ext e any_answer (any_answer_ok e)).
           intros s r ([Hph Hok] & Hin & Hdev) _. see_event. subst. cbn.
           repeat split; auto.
           ++ intros d Hd. destruct (r =? hipSuccess); [ right | ]; auto.
           ++ intros ->. cbn. now left.
        -- intros rc. apply triple_if; intros Hrc.
           ++ apply triple_raise. intros s ([_ Hs] & _). exact Hs.
           ++ apply triple_ret. intros s (Hph & Hin & Hj'). split; [ exact Hph | ].
              intros d Hd. destruct (Z.eq_dec d j) as [-> | Hne].
              ** apply Hj'. apply negb_false_iff in Hrc. now apply Z.eqb_eq in Hrc.
              ** apply Hin. lia.
    + intros j s _ _ ([_ Hs] & _). exact Hs.
  - intros s Hs. split; [ exact Hs | intros d Hd; lia ].
  - intros a s [Hph Hin]. split; [ exact Hph | ].
    apply all_synced_in. exact Hin.
  - auto.
Qed.

Lemma issue_writes_sequential (transfers len : Z) :
  triple e (fun s => at_phase FanOut s /\ all_synced (mon_synced (mon s)) = true)
    (issue_writes transfers len)
    (fun _ => ok) (fun _ => ok).
Proof.
  unfold issue_writes.
  pose (P := fun s => (mon_phase (mon s) = FanOut \/ mon_phase (mon s) = Issuing)
                      /\ ok s /\ all_synced (mon_synced (mon s)) = true).
  apply triple_conseq with (P := P) (Q := fun _ => P) (E := fun _ => ok).
  - apply triple_for_inv; [ intros j _ | intros s (_ & Hs & _); exact Hs ].
    apply (triple_ext_ e any_answer (any_answer_ok e)).
    intros s r (Hph & Hok & Hsyn) _. unfold P. see_event.
    destruct Hph; subst; cbn; rewrite Hsyn; auto.
  - intros s [[Hph Hok] Hsyn]. unfold P. auto.
  - intros a s (_ & Hs & _). exact Hs.
  - auto.
Qed.

Lemma bench_round_sequential (fuel : nat) (len : Z) (operation : bool) :
  triple e ok (Scatter.bench_round fuel len q operation) (fun _ => ok) (fun _ => ok).
Proof.
  unfold Scatter.bench_round.
  apply triple_bind with (R := fun _ => at_phase Waiting).
  { apply (triple_ext_ e any_answer (any_answer_ok e)).
    intros s r Hs _. see_event. auto. }
  intros _.
  apply triple_bind with (R := fun _ => at_phase Waiting).
  { apply (triple_ext_ e any_answer (any_answer_ok e)).
    intros s r Hs _. see_event. auto. }
  intros _. destruct operation.
  - apply triple_bind with (R := fun _ => at_phase FanOut).
    { apply (triple_wait_completed e any_answer (any_answer_ok e)).
      - intros s r [Hph Hok] Hr. see_event. subst. cbn.
        apply Z.eqb_neq in Hr. rewrite Hr. auto.
      - intros s [Hph Hok]. see_event. subst. cbn.
        rewrite Z.eqb_refl. auto.
      - intros s [_ Hs]. exact Hs. }
    intros _.
    apply triple_bind with
      (R := fun _ s => at_phase FanOut s /\ all_synced (mon_synced (mon s)) = true).
    { unfold Scatter.fan_out.
      eapply triple_bind; [ apply copy_chunks_sequential | intros ? ].
      apply sync_gpus_sequential. }
    intros _. apply issue_writes_sequential.
  - apply triple_ret. intros s [_ Hs]. exact Hs.
Qed.

Lemma destroy_streams_neutral : emits neutral Scatter.destroy_streams.
Proof. unfold Scatter.destroy_streams. emits_auto. Qed.

Lemma run_bench_sequential (fuel : nat) (len n_runs : Z) (operation : bool) :
  triple e ok (Scatter.run_bench fuel len q n_runs operation) (fun _ => ok) (fun _ => ok).
Proof.
  unfold Scatter.run_bench.
  apply triple_bind with (R := fun _ => at_phase Outside).
  { apply triple_emit. intros s Hs. see_event. auto. }
  intros _.
  apply triple_bind with (R := fun _ => at_phase Outside).
  { apply triple_emit. intros s Hs. see_event. auto. }
  intros _.
  apply triple_bind with (R := fun _ => ok).
  { eapply triple_conseq; [ apply create_streams_sequential | auto | | auto ].
    intros ? s [_ Hs]. exact Hs. }
  intros _.
  apply triple_bind with (R := fun _ => ok).
  { apply triple_for_inv; [ intros j _ | auto ].
    apply bench_round_sequential. }
  intros _.
  apply (neutral_frame e q m0 Scatter.destroy_streams (fun m => mon_ok m = true)).
  - apply destroy_streams_neutral.
  - auto.
Qed.

End Sequential.

(** Once the monitor has seen two phases overlap it says so for good. *)
Lemma monitor_step_ok (q : Z) (m : monitor) (ev : event) :
  mon_ok (monitor_step q m ev) = true -> mon_ok m = true.
Proof.
  destruct m as [ph dev syn okb].
  destruct ev as [c r | n z | ? ? ? ?]; cbn; auto.
  destruct c as [ | | | | | | | | | | [] | [] ? | | | ]; cbn; auto;
    destruct ph; cbn; auto; try discriminate.
  all: intros H; apply andb_true_iff in H; tauto.
Qed.

Lemma monitor_run_ok (q : Z) (n : trace) :
  forall m, mon_ok (monitor_run q m n) = true -> mon_ok m = true.
Proof.
  induction n as [ | ev n IH ]; cbn; intros m H; [ exact H | ].
  apply IH in H. now apply monitor_step_ok in H.
Qed.

(** The monitor does tell traces apart: a remote write with no device
    synchronized, a copy before the quota, and the round of the FPGA-side
    server, which has no fan-out, are all refused. *)
Example sequential_refuses_unsynced_write :
  sequential 1 [Ext clearCompleted 0; Ext (checkCompleted LOCAL_WRITE) 1;
                Ext (hipSetDevice 0) 0; Ext (hipMemcpyAsync 0 0 0 4096) 0;
                Ext (invoke REMOTE_RDMA_WRITE 4096) 0] = false.
Proof. reflexivity. Qed.

Example sequential_refuses_early_copy :
  sequential 1 [Ext clearCompleted 0; Ext (checkCompleted LOCAL_WRITE) 0;
                Ext (hipSetDevice 0) 0; Ext (hipMemcpyAsync 0 0 0 4096) 0] = false.
Proof. reflexivity. Qed.

Example sequential_refuses_baseline_round :
  sequential 1 (snd (Baseline.bench_round 1 4096 1 true (all_ok 1) [])) = false.
Proof. reflexivity. Qed.

(** C4: in every round of [run_bench] the quota wait, the fan-out and the
    submission of the remote writes follow one another: at no point of the run
    has a copy or a device call come before the completion count was read
    equal to the quota, nor a remote write before every device target was
    synchronized after the last copy. *)
Theorem run_bench_phases_sequential (e : env) (h : trace) (fuel : nat)
    (len transfers n_runs : Z) (operation : bool) (k : nat) :
  sequential transfers
    (firstn k (snd (Scatter.run_bench fuel len transfers n_runs operation e h)))
  = true.
Proof.
  pose proof (run_bench_sequential e transfers monitor_init fuel len n_runs operation
                h [] eq_refl) as H.
  destruct (Scatter.run_bench fuel len transfers n_runs operation e h) as [[a | x] n];
    cbn [snd app] in *; rewrite <- (firstn_skipn k n), monitor_run_app in H;
    now apply monitor_run_ok in H.
Qed.





(** ** A device that cannot be selected *)

Section SelectFailure.

Variable e : env.

(** No selection has failed so far and, if [b], no remote write has been
    submitted. *)
Let calm (b : bool) (s : trace) : Prop :=
  failed_selects s = [] /\ (b = true -> remote_writes s = []).

(** A selection that failed was the last thing done. *)
Let alarm (b : bool) (x : abort) (s : trace) : Prop :=
  failed_selects s <> [] ->
  x = Throw select_msg /\ ends_in_failed_select s /\ (b = true -> remote_writes s = []).

Lemma calm_snoc (b : bool) (s : trace) (ev : event) :
  calm b s -> failed_select_of ev = [] -> (b = true -> write_of ev = []) ->
  calm b (s ++ [ev]).
Proof.
  intros [Hf Hw] Hev Hwev. unfold calm, failed_selects, remote_writes in *.
  rewrite !flat_map_app. cbn. rewrite Hev, Hf. split; [ reflexivity | ].
  intros Hb. now rewrite (Hw Hb), (Hwev Hb).
Qed.

Lemma calm_alarm (b b' : bool) (x : abort) (s : trace) : calm b s -> alarm b' x s.
Proof. intros [Hf _] Hne. contradiction. Qed.

Lemma select_gpu_calm (b : bool) (d : Z) :
  triple e (calm b) (select_gpu d) (fun _ => calm b) (alarm b).
Proof.
  apply (triple_select_gpu e any_answer (any_answer_ok e)).
  - intros s Hs _. apply calm_snoc; auto.
  - intros s r [Hf Hw] Hr _ _. split; [ reflexivity | ]. split.
    + exists s, d, r. auto.
    + intros Hb. unfold remote_writes in *. rewrite flat_map_app, (Hw Hb). reflexivity.
Qed.

Lemma ext_calm (b : bool) (c : call) E :
  (forall r, failed_select_of (Ext c r) = []) ->
  (forall r, b = true -> write_of (Ext c r) = []) ->
  triple e (calm b) (ext c) (fun _ => calm b) E.
Proof.
  intros Hc Hw. apply (triple_ext e any_answer (any_answer_ok e)).
  intros s r Hs _. apply calm_snoc; auto.
Qed.

Lemma ext__calm (b : bool) (c : call) E :
  (forall r, failed_select_of (Ext c r) = []) ->
  (forall r, b = true -> write_of (Ext c r) = []) ->
  triple e (calm b) (ext_ c) (fun _ => calm b) E.
Proof.
  intros Hc Hw. apply (triple_ext_ e any_answer (any_answer_ok e)).
  intros s r Hs _. apply calm_snoc; auto.
Qed.

Lemma create_streams_calm (b : bool) :
  triple e (calm b) Scatter.create_streams (fun _ => calm b) (alarm b).
Proof.
  unfold Scatter.create_streams.
  apply triple_for_inv; [ intros j _ | apply calm_alarm ].
  eapply triple_bind; [ apply select_gpu_calm | intros ? ].
  eapply triple_bind; [ apply ext_calm; reflexivity | intros rc ].
  apply triple_if; intros _; [ apply triple_raise, calm_alarm | ].
  eapply triple_bind; [ apply ext_calm; reflexivity | intros rc' ].
  apply triple_if; intros _; [ apply triple_raise, calm_alarm | ].
  apply triple_ret. auto.
Qed.

Lemma copy_chunks_calm (b : bool) (len : Z) :
  triple e (calm b) (Scatter.copy_chunks len) (fun _ => calm b) (alarm b).
Proof.
  unfold Scatter.copy_chunks.
  apply triple_for_inv; [ intros j _ | apply calm_alarm ].
  eapply triple_bind; [ apply select_gpu_calm | intros ? ].
  apply triple_bind with (R := fun _ => calm b).
  - apply triple_mul_int; [ auto | intros s Hs _; exact (calm_alarm _ _ _ _ Hs) ].
  - intros idx. apply ext__calm; reflexivity.
Qed.

Lemma sync_gpus_calm (b : bool) :
  triple e (calm b) Scatter.sync_gpus (fun _ => calm b) (alarm b).
Proof.
  unfold Scatter.sync_gpus.
  apply triple_for_inv; [ intros j _ | apply calm_alarm ].
  eapply triple_bind; [ apply select_gpu_calm | intros ? ].
  eapply triple_bind; [ apply ext_calm; reflexivity | intros rc ].
  apply triple_if; intros _; [ apply triple_raise, calm_alarm | ].
  apply triple_ret. auto.
Qed.

Lemma issue_writes_calm (b : bool) (transfers len : Z) :
  triple e (calm b) (issue_writes transfers len) (fun _ => calm false) (alarm b).
Proof.
  unfold issue_writes.
  apply triple_conseq with (P := calm false) (Q := fun _ => calm false) (E := alarm b).
  - apply triple_for_inv; [ intros j _ | apply calm_alarm ].
    apply ext__calm; [ reflexivity | discriminate ].
  - intros s [Hf _]. split; [ exact Hf | discriminate ].
  - auto.
  - auto.
Qed.

Lemma bench_round_calm (b : bool) (fuel : nat) (len transfers : Z) (operation : bool) :
  triple e (calm b) (Scatter.bench_round fuel len transfers operation)
    (fun _ => calm false) (alarm b).
Proof.
  unfold Scatter.bench_round.
  eapply triple_bind; [ apply ext__calm; reflexivity | intros ? ].
  eapply triple_bind; [ apply ext__calm; reflexivity | intros ? ].
  destruct operation.
  - apply triple_bind with (R := fun _ => calm b).
    { apply (triple_wait_completed e any_answer (any_answer_ok e)).
      - intros s r Hs _. apply calm_snoc; auto.
      - intros s Hs. apply calm_snoc; auto.
      - apply calm_alarm. }
    intros ?. unfold Scatter.fan_out.
    apply triple_bind with (R := fun _ => calm b).
    { eapply triple_bind; [ apply copy_chunks_calm | intros ? ]. apply sync_gpus_calm. }
    intros ?. apply issue_writes_calm.
  - apply triple_ret. intros s [Hf _]. split; [ exact Hf | discriminate ].
Qed.

Lemma destroy_streams_no_select : emits (silent failed_select_of) Scatter.destroy_streams.
Proof. unfold Scatter.destroy_streams. emits_auto. Qed.

Lemma run_bench_calm (fuel : nat) (len transfers n_runs : Z) (operation : bool) :
  triple e (calm false) (Scatter.run_bench fuel len transfers n_runs operation)
    (fun _ => calm false) (alarm false).
Proof.
  unfold Scatter.run_bench.
  apply triple_bind with (R := fun _ => calm false).
  { apply triple_emit. intros s Hs. apply calm_snoc; auto. }
  intros ?.
  apply triple_bind with (R := fun _ => calm false).
  { apply triple_emit. intros s Hs. apply calm_snoc; auto. }
  intros ?.
  eapply triple_bind; [ apply create_streams_calm | intros ? ].
  apply triple_bind with (R := fun _ => calm false).
  { apply triple_for_inv; [ intros j _ | apply calm_alarm ].
    apply bench_round_calm. }
  intros ?.
  eapply triple_conseq.
  - apply (emits_frame failed_select_of Scatter.destroy_streams e [] (alarm false)).
    + apply destroy_streams_no_select.
    + intros x s Hs Hne. contradiction.
  - intros s [Hf _]. exact Hf.
  - intros ? s Hf. split; [ exact Hf | discriminate ].
  - auto.
Qed.

End SelectFailure.

(** C5: if a device cannot be selected during the fan-out of a write round,
    the round ends there with the exception, and no remote write is submitted
    in that round. *)
Theorem select_failure_aborts_round (e : env) (h : trace) (fuel : nat) (len transfers : Z) :
  failed_selects (snd (Scatter.bench_round fuel len transfers true e h)) <> [] ->
  fst (Scatter.bench_round fuel len transfers true e h) = Abort (Throw select_msg) /\
  ends_in_failed_select (snd (Scatter.bench_round fuel len transfers true e h)) /\
  remote_writes (snd (Scatter.bench_round fuel len transfers true e h)) = [].
Proof.
  intros Hne.
  pose proof (bench_round_calm e true fuel len transfers true h []
                (conj eq_refl (fun _ => eq_refl))) as H.
  destruct (Scatter.bench_round fuel len transfers true e h) as [[a | x] n]; cbn [fst snd app] in *.
  - destruct H as [Hf _]. contradiction.
  - destruct (H Hne) as (-> & Hend & Hw). auto.
Qed.

Lemma select_failure_aborts_round_witness :
  failed_selects (snd (Scatter.bench_round 1 12288 1 true (select_fails_on 2 1) [])) <> [] /\
  fst (Scatter.bench_round 1 12288 1 true (select_fails_on 2 1) []) = Abort (Throw select_msg) /\
  ends_in_failed_select (snd (Scatter.bench_round 1 12288 1 true (select_fails_on 2 1) [])) /\
  remote_writes (snd (Scatter.bench_round 1 12288 1 true (select_fails_on 2 1) [])) = [].
Proof.
  split; [ discriminate | ].
  apply (select_failure_aborts_round (select_fails_on 2 1) [] 1 12288 1). discriminate.
Defined.

(** The exception leaves [run_bench] as well: a selection that fails anywhere
    in it is the last call it makes. *)
Lemma select_failure_aborts_run_bench (e : env) (h : trace) (fuel : nat)
    (len transfers n_runs : Z) (operation : bool) :
  failed_selects (snd (Scatter.run_bench fuel len transfers n_runs operation e h)) <> [] ->
  fst (Scatter.run_bench fuel len transfers n_runs operation e h) = Abort (Throw select_msg) /\
  ends_in_failed_select (snd (Scatter.run_bench fuel len transfers n_runs operation e h)).
Proof.
  intros Hne.
  pose proof (run_bench_calm e fuel len transfers n_runs operation h []
                (conj eq_refl (fun _ => eq_refl))) as H.
  destruct (Scatter.run_bench fuel len transfers n_runs operation e h) as [[a | x] n];
    cbn [fst snd app] in *.
  - destruct H as [Hf _]. contradiction.
  - destruct (H Hne) as (-> & Hend & _). auto.
Qed.

(** ** A copy that cannot be enqueued *)

(** C6 fails on the code: the value [hipMemcpyAsync] returns is dropped.  With
    a run time that refuses the copy, the round goes on, synchronizes the
    devices, submits its remote writes and ends normally. *)
Theorem copy_failure_is_ignored :
  fst (Scatter.bench_round 1 4096 2 true (copy_fails 2) []) = Done tt /\
  failed_copies (snd (Scatter.bench_round 1 4096 2 true (copy_fails 2) []))
  = [mkCopy 0 0 0 4096] /\
  remote_writes (snd (Scatter.bench_round 1 4096 2 true (copy_fails 2) []))
  = [4096; 4096].
Proof.
  repeat split.
Qed.

(** ** The sweep: termination *)

Lemma wrap32_small (z : Z) : 0 <= z < 2 ^ 32 -> wrap32 z = z.
Proof. intros H. unfold wrap32. now apply Z.mod_small. Qed.

(** Doubling from a positive size passes any bound below [2 ^ 31] before it
    can wrap around. *)
Lemma sweep_sizes_fuel (max_size : Z) :
  max_size < 2 ^ 31 ->
  forall (f : nat) (c : Z),
    0 < c -> max_size < c * 2 ^ Z.of_nat f ->
    exists l, forall fuel, (f < fuel)%nat -> sweep_sizes fuel c max_size = Some l.
Proof.
  intros Hmax. induction f as [ | f IH ]; intros c Hc Hf.
  - exists []. intros [ | fuel ] Hfuel; [ lia | ]. cbn [sweep_sizes].
    destruct (Z.leb_spec c max_size); [ cbn in Hf; lia | reflexivity ].
  - destruct (Z.leb_spec c max_size) as [Hle | Hgt].
    + destruct (IH (c * 2)) as [l Hl]; [ lia | | ].
      { rewrite Nat2Z.inj_succ, Z.pow_succ_r in Hf by lia. lia. }
      exists (c :: l). intros [ | fuel ] Hfuel; [ lia | ]. cbn [sweep_sizes].
      destruct (Z.leb_spec c max_size); [ | lia ].
      rewrite wrap32_small by lia. rewrite Hl by lia. reflexivity.
    + exists []. intros [ | fuel ] Hfuel; [ lia | ]. cbn [sweep_sizes].
      destruct (Z.leb_spec c max_size); [ lia | reflexivity ].
Qed.

(** C8, amended: when [min_size > max_size], or [min_size] is at least 1 and
    [max_size] is below [2 ^ 31], the doubling loop ends, after at most 31
    sizes.  (With [min_size = 0], or with a bound that lets the size wrap
    around to 0, it need not.) *)
Theorem sweep_terminates (min_size max_size : Z) :
  0 <= min_size < 2 ^ 32 -> 0 <= max_size < 2 ^ 32 ->
  max_size < min_size \/ (0 < min_size /\ max_size < 2 ^ 31) ->
  exists l, (List.length l <= 31)%nat /\
    forall fuel, (32 <= fuel)%nat -> sweep_sizes fuel min_size max_size = Some l.
Proof.
  intros Hmin Hmax [Hinv | [Hpos Hlt]].
  - exists []. split; [ cbn; lia | ].
    intros [ | fuel ] Hfuel; [ lia | ]. cbn [sweep_sizes].
    destruct (Z.leb_spec min_size max_size); [ lia | reflexivity ].
  - destruct (sweep_sizes_fuel max_size Hlt 31 min_size Hpos) as [l Hl].
    { change (2 ^ Z.of_nat 31) with (2 ^ 31). lia. }
    exists l. split; [ | intros fuel Hfuel; apply Hl; lia ].
    (* the sizes do not outnumber the fuel that suffices *)
    assert (Hlen : forall fuel c l', sweep_sizes fuel c max_size = Some l' ->
                                     (List.length l' < fuel)%nat).
    { induction fuel as [ | fuel IHf ]; intros c l' H; [ discriminate | ].
      cbn [sweep_sizes] in H. destruct (c <=? max_size).
      - destruct (sweep_sizes fuel (wrap32 (c * 2)) max_size) as [l'' | ] eqn:Hrec;
          [ | discriminate ].
        injection H as <-. apply IHf in Hrec. cbn. lia.
      - injection H as <-. cbn. lia. }
    specialize (Hl 32%nat ltac:(lia)). apply Hlen in Hl. lia.
Qed.

Lemma sweep_terminates_witness :
  0 <= 64 < 2 ^ 32 /\ 0 <= 256 < 2 ^ 32 /\
  (256 < 64 \/ (0 < 64 /\ 256 < 2 ^ 31)) /\
  exists l, (List.length l <= 31)%nat /\
    forall fuel, (32 <= fuel)%nat -> sweep_sizes fuel 64 256 = Some l.
Proof.
  split; [ lia | ]. split; [ lia | ]. split; [ right; lia | ].
  apply (sweep_terminates 64 256); [ lia | lia | right; lia ].
Defined.

Lemma sweep_sizes_zero (fuel : nat) (max_size : Z) :
  0 <= max_size -> sweep_sizes fuel 0 max_size = None.
Proof.
  intros Hmax. induction fuel as [ | fuel IH ]; [ reflexivity | ].
  cbn [sweep_sizes]. destruct (Z.leb_spec 0 max_size); [ | lia ].
  change (wrap32 (0 * 2)) with 0. now rewrite IH.
Qed.

Lemma triple_any {A : Type} (e : env) (m : M A) :
  triple e (fun _ => True) m (fun _ _ => True) (fun _ _ => True).
Proof. intros h s _. destruct (m e h) as [[a | x] n]; exact I. Qed.

(** With [min_size = 0] the sweep never leaves its loop, whatever the
    environment and the body do. *)
Lemma sweep_from_zero (e : env) (fuel : nat) (max_size : Z) (body : Z -> M unit) :
  0 <= max_size ->
  triple e (fun _ => True) (sweep fuel 0 max_size body)
    (fun _ _ => False) (fun _ _ => True).
Proof.
  intros Hmax.
  assert (H : triple e (fun _ => 0 = 0) (sweep fuel 0 max_size body)
                (fun _ _ => False) (fun _ _ => True)).
  { apply (triple_sweep e fuel max_size body (fun c _ => c = 0)).
    - intros c Hc h s ->. change (wrap32 (0 * 2)) with 0.
      destruct (body 0 e h) as [[a | x] n]; auto.
    - intros c s Hc ->. lia.
    - auto. }
  intros h s _. exact (H h s eq_refl).
Qed.

(** C8 as stated fails: with [min_size = 0] and [max_size = 0] no amount of
    fuel lets the loop produce its sizes, and [main] does not return in any
    environment. *)
Lemma sweep_terminates_counterexample :
  ~ (exists fuel l, sweep_sizes fuel 0 0 = Some l) /\
  ~ (exists N fuel operation n_runs e h r,
       fst (Scatter.main N fuel operation n_runs 0 0 e h) = Done r).
Proof.
  split.
  - intros (fuel & l & H). rewrite sweep_sizes_zero in H by lia. discriminate.
  - intros (N & fuel & operation & n_runs & e & h & r & H).
    assert (Hm : triple e (fun _ => True) (Scatter.main N fuel operation n_runs 0 0)
                   (fun _ _ => False) (fun _ _ => True)).
    { unfold Scatter.main, Scatter.sweep_bench.
      eapply triple_bind; [ apply triple_any | intros mem ].
      apply triple_if; intros _; [ apply triple_raise; auto | ].
      eapply triple_bind; [ apply triple_any | intros ? ].
      eapply triple_bind; [ apply triple_any | intros v1 ].
      eapply triple_bind; [ apply triple_any | intros v2 ].
      eapply triple_bind; [ apply triple_any | intros v3 ].
      eapply triple_bind; [ apply triple_any | intros v4 ].
      apply triple_if; intros _; [ apply triple_raise; auto | ].
      eapply triple_bind; [ apply triple_any | intros ? ].
      eapply triple_bind with (R := fun _ _ => False).
      - apply sweep_from_zero. lia.
      - intros ? ? ? []. }
    specialize (Hm h [] I). destruct (Scatter.main N fuel operation n_runs 0 0 e h) as [[a | x] n].
    + exact Hm.
    + discriminate.
Qed.

(** ** The sweep: the sizes visited *)

Lemma doubling_sizes_count (min_size max_size : Z) (k : nat) :
  0 < min_size ->
  min_size * 2 ^ Z.of_nat k <= max_size ->
  max_size < min_size * 2 ^ Z.of_nat (S k) ->
  doubling_sizes min_size max_size
  = map (fun j => min_size * 2 ^ Z.of_nat j) (seq 0 (S k)).
Proof.
  intros Hmin Hle Hlt. unfold doubling_sizes. do 2 f_equal.
  assert (Hlog : Z.log2 (max_size / min_size) = Z.of_nat k).
  { apply Z.log2_unique; [ lia | ]. split.
    - apply Z.div_le_lower_bound; lia.
    - apply Z.div_lt_upper_bound; [ lia | ].
      rewrite Nat2Z.inj_succ in Hlt. exact Hlt. }
  rewrite Hlog. lia.
Qed.

(** The sizes are what the specification says: the products of [min_size] by
    a power of two that do not exceed [max_size], in increasing order. *)
Lemma doubling_sizes_spec (min_size max_size sz : Z) :
  0 < min_size -> min_size <= max_size ->
  In sz (doubling_sizes min_size max_size) <->
  exists k, 0 <= k /\ sz = min_size * 2 ^ k /\ sz <= max_size.
Proof.
  intros Hmin Hle. unfold doubling_sizes.
  assert (Hq : 1 <= max_size / min_size) by (apply Z.div_le_lower_bound; lia).
  pose proof (Z.log2_nonneg (max_size / min_size)) as Hl0.
  destruct (Z.log2_spec (max_size / min_size) ltac:(lia)) as [Hlo Hhi].
  pose proof (Z.mul_div_le max_size min_size Hmin) as Hdiv.
  pose proof (Z.mul_succ_div_gt max_size min_size Hmin) as Hdiv'.
  rewrite in_map_iff. split.
  - intros (j & <- & Hj). apply in_seq in Hj. exists (Z.of_nat j). repeat split; [ lia | ].
    assert (2 ^ Z.of_nat j <= 2 ^ Z.log2 (max_size / min_size))
      by (apply Z.pow_le_mono_r; lia).
    nia.
  - intros (k & Hk & -> & Hsz). exists (Z.to_nat k). rewrite Z2Nat.id by lia.
    split; [ reflexivity | ]. apply in_seq. split; [ lia | ].
    destruct (Z.le_gt_cases (Z.log2 (max_size / min_size) + 1) k) as [Hbig | ]; [ | lia ].
    assert (2 ^ Z.succ (Z.log2 (max_size / min_size)) <= 2 ^ k)
      by (apply Z.pow_le_mono_r; lia).
    nia.
Qed.

Lemma doubling_sizes_increasing (min_size max_size : Z) :
  0 < min_size ->
  forall i j a b,
    nth_error (doubling_sizes min_size max_size) i = Some a ->
    nth_error (doubling_sizes min_size max_size) j = Some b ->
    (i < j)%nat -> a < b.
Proof.
  intros Hmin i j a b Hi Hj Hij. unfold doubling_sizes in *.
  rewrite nth_error_map, nth_error_seq in Hi, Hj.
  destruct (i <? _)%nat; [ | discriminate ].
  destruct (j <? _)%nat; [ | discriminate ].
  cbn in Hi, Hj. injection Hi as <-. injection Hj as <-.
  apply Z.mul_lt_mono_pos_l; [ lia | ].
  apply Z.pow_lt_mono_r; lia.
Qed.

Section Collect.

Context {X : Type}.
Variable f : event -> list X.
Variable e : env.

Lemma triple_frame_bind {A B : Type} (m : M A) (k : A -> M B) (v : list X) Q :
  emits (silent f) m ->
  (forall a, triple e (fun s => flat_map f s = v) (k a) Q (fun _ _ => True)) ->
  triple e (fun s => flat_map f s = v) (bind m k) Q (fun _ _ => True).
Proof.
  intros Hm Hk. eapply triple_bind; [ | exact Hk ].
  apply emits_frame; auto.
Qed.

(** What a sweep collects when each size contributes [g] of it. *)
Lemma sweep_collects (g : Z -> list X) (fuel : nat) (min_size max_size : Z)
    (body : Z -> M unit) (v0 : list X) :
  0 < min_size -> max_size < 2 ^ 31 ->
  (forall c v, triple e (fun s => flat_map f s = v) (body c)
                 (fun _ s => flat_map f s = v ++ g c) (fun _ _ => True)) ->
  triple e (fun s => flat_map f s = v0)
    (sweep fuel min_size max_size body)
    (fun _ s => exists k : nat,
       flat_map f s
       = v0 ++ flat_map g (map (fun j => min_size * 2 ^ Z.of_nat j) (seq 0 k)) /\
       (forall j, (j < k)%nat -> min_size * 2 ^ Z.of_nat j <= max_size) /\
       max_size < min_size * 2 ^ Z.of_nat k)
    (fun _ _ => True).
Proof.
  intros Hmin Hmax Hbody.
  pose (I := fun (c : Z) (s : trace) => exists k : nat,
               c = min_size * 2 ^ Z.of_nat k /\
               flat_map f s
               = v0 ++ flat_map g (map (fun j => min_size * 2 ^ Z.of_nat j) (seq 0 k)) /\
               (forall j, (j < k)%nat -> min_size * 2 ^ Z.of_nat j <= max_size)).
  apply triple_conseq with (P := I min_size)
    (Q := fun _ s => exists c, max_size < c /\ I c s) (E := fun _ _ => True).
  - apply (triple_sweep e fuel max_size body I).
    + intros c Hc h s Hi. unfold I in Hi. destruct Hi as (k & Hck & Hs & Hj).
      specialize (Hbody c _ h s Hs).
      destruct (body c e h) as [[a | x] n]; [ | exact Logic.I ].
      exists (S k). split; [ | split ].
      * assert (0 < c) by (subst c; apply Z.mul_pos_pos; [ lia | apply Z.pow_pos_nonneg; lia ]).
        rewrite wrap32_small by lia.
        rewrite Nat2Z.inj_succ, Z.pow_succ_r by lia. lia.
      * rewrite Hbody, seq_S, map_app, flat_map_app, <- app_assoc. cbn.
        rewrite app_nil_r. now subst c.
      * intros j Hjk. destruct (Nat.eq_dec j k) as [-> | Hne]; [ lia | apply Hj; lia ].
    + intros c s Hc Hi. exists c. auto.
    + auto.
  - intros s Hs. exists 0%nat. cbn. rewrite app_nil_r. repeat split; auto; lia.
  - intros a s (c & Hc & Hi). unfold I in Hi. destruct Hi as (k & Hck & Hs & Hj).
    exists k. subst c. auto.
  - auto.
Qed.

End Collect.

Lemma scatter_rest_silent (fuel : nat) (len transfers n_runs : Z) (operation : bool) :
  emits (silent invocation_of)
    (emit (Fill (len / sizeof_int) operation) ;;
     Scatter.create_streams ;;
     for_int n_runs (fun _ => Scatter.bench_round fuel len transfers operation) ;;
     Scatter.destroy_streams).
Proof.
  unfold Scatter.create_streams, Scatter.bench_round, Scatter.fan_out,
    Scatter.copy_chunks, Scatter.sync_gpus, issue_writes, Scatter.destroy_streams.
  emits_auto.
Qed.

(** One call of [run_bench] is one invocation. *)
Lemma scatter_run_bench_invocation (e : env) (fuel : nat) (len transfers n_runs : Z)
    (operation : bool) (v : list (Z * Z * Z)) :
  triple e (fun s => invocations s = v)
    (Scatter.run_bench fuel len transfers n_runs operation)
    (fun _ s => invocations s = v ++ [(len, transfers, n_runs)])
    (fun _ _ => True).
Proof.
  unfold Scatter.run_bench.
  apply triple_bind with (R := fun _ s => invocations s = v ++ [(len, transfers, n_runs)]).
  - apply triple_emit. intros s Hs. unfold invocations in *.
    rewrite flat_map_app, Hs. reflexivity.
  - intros ?. apply emits_frame; [ apply scatter_rest_silent | auto ].
Qed.

Lemma baseline_rest_silent (fuel : nat) (len transfers n_runs : Z) (operation : bool) :
  emits (silent invocation_of)
    (emit (Fill (len / sizeof_int) operation) ;;
     for_int n_runs (fun _ => Baseline.bench_round fuel len transfers operation)).
Proof.
  unfold Baseline.bench_round, issue_writes.
  emits_auto.
Qed.

Lemma baseline_run_bench_invocation (e : env) (fuel : nat) (len transfers n_runs : Z)
    (operation : bool) (v : list (Z * Z * Z)) :
  triple e (fun s => invocations s = v)
    (Baseline.run_bench fuel len transfers n_runs operation)
    (fun _ s => invocations s = v ++ [(len, transfers, n_runs)])
    (fun _ _ => True).
Proof.
  unfold Baseline.run_bench.
  apply triple_bind with (R := fun _ s => invocations s = v ++ [(len, transfers, n_runs)]).
  - apply triple_emit. intros s Hs. unfold invocations in *.
    rewrite flat_map_app, Hs. reflexivity.
  - intros ?. apply emits_frame; [ apply baseline_rest_silent | auto ].
Qed.

(** What the sweep has collected when it ends is what the sizes of the
    specification give. *)
Lemma collected_doubling {X : Type} (g : Z -> list X) (min_size max_size : Z)
    (k : nat) (v : list X) :
  0 < min_size -> min_size <= max_size ->
  v = flat_map g (map (fun j => min_size * 2 ^ Z.of_nat j) (seq 0 k)) ->
  (forall j, (j < k)%nat -> min_size * 2 ^ Z.of_nat j <= max_size) ->
  max_size < min_size * 2 ^ Z.of_nat k ->
  v = flat_map g (doubling_sizes min_size max_size).
Proof.
  intros Hmin Hle -> Hj Hk.
  destruct k as [ | k ]; [ cbn in Hk; lia | ].
  rewrite (doubling_sizes_count min_size max_size k); auto.
Qed.

Section SweepVisits.

Variables N_THROUGHPUT_REPS N_LATENCY_REPS DEFAULT_GPU_ID : Z.
Variable e : env.
Variables (fuel : nat) (operation : bool) (n_runs min_size max_size : Z).
Hypothesis min_pos : 0 < min_size.
Hypothesis min_le_max : min_size <= max_size.
Hypothesis max_small : max_size < 2 ^ 31.

Lemma scatter_main_invocations :
  triple e (fun s => invocations s = [])
    (Scatter.main N_LATENCY_REPS fuel operation n_runs min_size max_size)
    (fun _ s => invocations s
                = flat_map (fun sz => [(sz, N_LATENCY_REPS, wrap32 (n_runs + 10))])
                    (doubling_sizes min_size max_size))
    (fun _ _ => True).
Proof.
  unfold Scatter.main, invocations.
  apply triple_frame_bind; [ emits_auto | intros mem ].
  apply triple_if; intros _; [ apply triple_raise; auto | ].
  apply triple_frame_bind; [ emits_auto | intros ? ].
  apply triple_frame_bind; [ emits_auto | intros v1 ].
  apply triple_frame_bind; [ emits_auto | intros v2 ].
  apply triple_frame_bind; [ emits_auto | intros v3 ].
  apply triple_frame_bind; [ emits_auto | intros v4 ].
  apply triple_if; intros _; [ apply triple_raise; auto | ].
  apply triple_frame_bind; [ emits_auto | intros ? ].
  eapply triple_bind.
  - unfold Scatter.sweep_bench.
    apply (sweep_collects invocation_of e
             (fun sz => [(sz, N_LATENCY_REPS, wrap32 (n_runs + 10))])); auto.
    intros c v. apply scatter_run_bench_invocation.
  - intros ?. eapply triple_conseq.
    + apply (emits_frame invocation_of _ e
               (flat_map (fun sz => [(sz, N_LATENCY_REPS, wrap32 (n_runs + 10))])
                  (doubling_sizes min_size max_size)) (fun _ _ => True)).
      * emits_auto.
      * auto.
    + cbn beta. intros s (k & Hs & Hj & Hk). cbn [app] in Hs.
      eapply collected_doubling; eauto.
    + auto.
    + auto.
Qed.

Lemma baseline_main_invocations :
  triple e (fun s => invocations s = [])
    (Baseline.main N_THROUGHPUT_REPS N_LATENCY_REPS DEFAULT_GPU_ID
       fuel operation n_runs min_size max_size)
    (fun _ s => invocations s
                = flat_map (fun sz => [(sz, N_THROUGHPUT_REPS, n_runs);
                                       (sz, N_LATENCY_REPS, n_runs)])
                    (doubling_sizes min_size max_size))
    (fun _ _ => True).
Proof.
  unfold Baseline.main, invocations.
  apply triple_frame_bind; [ emits_auto | intros mem ].
  apply triple_if; intros _; [ apply triple_raise; auto | ].
  apply triple_frame_bind; [ emits_auto | intros ? ].
  apply triple_frame_bind; [ emits_auto | intros v1 ].
  apply triple_frame_bind; [ emits_auto | intros v2 ].
  apply triple_frame_bind; [ emits_auto | intros v3 ].
  apply triple_frame_bind; [ emits_auto | intros v4 ].
  apply triple_if; intros _; [ apply triple_raise; auto | ].
  do 5 (apply triple_frame_bind; [ emits_auto | intros ? ]).
  eapply triple_bind.
  - unfold Baseline.sweep_bench.
    apply (sweep_collects invocation_of e
             (fun sz => [(sz, N_THROUGHPUT_REPS, n_runs); (sz, N_LATENCY_REPS, n_runs)])); auto.
    intros c v.
    eapply triple_bind; [ apply baseline_run_bench_invocation | intros ? ].
    eapply triple_conseq;
      [ apply baseline_run_bench_invocation | intros s Hs; exact Hs | | auto ].
    cbn beta. intros ? s Hs. unfold invocations in Hs. rewrite Hs.
    now rewrite <- app_assoc.
  - intros ?. eapply triple_conseq.
    + apply (emits_frame invocation_of _ e
               (flat_map (fun sz => [(sz, N_THROUGHPUT_REPS, n_runs);
                                     (sz, N_LATENCY_REPS, n_runs)])
                  (doubling_sizes min_size max_size)) (fun _ _ => True)).
      * emits_auto.
      * auto.
    + cbn beta. intros s (k & Hs & Hj & Hk). cbn [app] in Hs.
      eapply collected_doubling; eauto.
    + auto.
    + auto.
Qed.

End SweepVisits.

Lemma flat_map_singleton {A B : Type} (f : A -> B) (l : list A) :
  flat_map (fun a => [f a]) l = map f l.
Proof. induction l as [ | a l IH ]; cbn; [ reflexivity | now rewrite IH ]. Qed.

(** ** Runs that return *)

Lemma triple_for_bounded (e : env) (bound : Z) (body : Z -> M unit)
    (P : trace -> Prop) E :
  bound <= INT_MAX ->
  (forall j, 0 <= j < bound -> triple e P (body j) (fun _ => P) E) ->
  triple e P (for_int bound body) (fun _ => P) E.
Proof.
  intros Hb Hbody. unfold for_int.
  apply (triple_for_from e (Z.to_nat bound) body (fun _ => P) E 0).
  - intros j Hj. apply Hbody. lia.
  - intros j s Hj Hover. lia.
Qed.

Lemma wait_completed_unfold (fuel : nat) (transfers : Z) (e : env) (h : trace) :
  wait_completed (S fuel) transfers e h
  = let r := e h (checkCompleted LOCAL_WRITE) in
    if r =? transfers then (Done tt, [Ext (checkCompleted LOCAL_WRITE) r])
    else match wait_completed fuel transfers e (h ++ [Ext (checkCompleted LOCAL_WRITE) r]) with
         | (o, n) => (o, Ext (checkCompleted LOCAL_WRITE) r :: n)
         end.
Proof.
  cbn [wait_completed]. unfold bind, ext. cbn.
  destruct (e h (checkCompleted LOCAL_WRITE) =? transfers); [ reflexivity | ].
  destruct (wait_completed fuel transfers e _) as [[a | x] n]; reflexivity.
Qed.

(** The busy wait ends within the fuel at hand when the quota is read on one
    of the next reads. *)
Lemma wait_completed_reads (e : env) (transfers : Z)
    (P : trace -> Prop) (E : abort -> trace -> Prop) :
  (forall s r, P s -> P (s ++ [Ext (checkCompleted LOCAL_WRITE) r])) ->
  forall (j fuel : nat) (h s : trace),
    (j < fuel)%nat ->
    e (polled e h j) (checkCompleted LOCAL_WRITE) = transfers ->
    P s ->
    match wait_completed fuel transfers e h with
    | (Done _, n) => P (s ++ n)
    | (Abort x, n) => E x (s ++ n)
    end.
Proof.
  intros HP. induction j as [ | j IH ]; intros fuel h s Hfuel Hr Hs;
    (destruct fuel as [ | fuel ]; [ lia | ]); rewrite wait_completed_unfold; cbn zeta.
  - cbn [polled] in Hr. rewrite Hr, Z.eqb_refl. auto.
  - cbn [polled] in Hr.
    destruct (e h (checkCompleted LOCAL_WRITE) =? transfers) eqn:Hnow; [ auto | ].
    specialize (IH fuel
                   (h ++ [Ext (checkCompleted LOCAL_WRITE) (e h (checkCompleted LOCAL_WRITE))])
                   (s ++ [Ext (checkCompleted LOCAL_WRITE) (e h (checkCompleted LOCAL_WRITE))])
                   ltac:(lia) Hr (HP _ _ Hs)).
    destruct (wait_completed fuel transfers e _) as [[a | x] n];
      rewrite <- app_assoc in IH; exact IH.
Qed.

(** The quota awaited is that of the last benchmark call entered. *)
Lemma awaited_app (h s : trace) (len transfers n_runs : Z) (v : list (Z * Z * Z)) :
  invocations s = v ++ [(len, transfers, n_runs)] ->
  awaited (h ++ s) = Some transfers.
Proof.
  intros Hs. unfold awaited, invocations in *.
  rewrite flat_map_app, Hs, app_assoc, rev_unit. reflexivity.
Qed.

(** ** Reasoning from a known history *)

Section From.

Variable e : env.
Variable h0 : trace.

Lemma from_triple {A : Type} (m : M A) P Q E :
  triple e P m Q E -> triple_from e h0 P m Q E.
Proof. intros H s Hs. exact (H (h0 ++ s) s Hs). Qed.

Lemma from_bind {A B : Type} (m : M A) (f : A -> M B) P R Q E :
  triple_from e h0 P m R E ->
  (forall a, triple_from e h0 (R a) (f a) Q E) ->
  triple_from e h0 P (bind m f) Q E.
Proof.
  intros Hm Hf s Hs. unfold bind.
  specialize (Hm s Hs).
  destruct (m e (h0 ++ s)) as [[a | x] n1]; [ | exact Hm ].
  specialize (Hf a (s ++ n1) Hm). rewrite app_assoc in Hf.
  destruct (f a e ((h0 ++ s) ++ n1)) as [[b | y] n2]; rewrite app_assoc; exact Hf.
Qed.

Lemma from_conseq {A : Type} (m : M A) (P P' : trace -> Prop)
    (Q Q' : A -> trace -> Prop) (E E' : abort -> trace -> Prop) :
  triple_from e h0 P m Q E ->
  (forall s, P' s -> P s) ->
  (forall a s, Q a s -> Q' a s) ->
  (forall x s, E x s -> E' x s) ->
  triple_from e h0 P' m Q' E'.
Proof.
  intros H HP HQ HE s Hs. specialize (H s (HP s Hs)).
  destruct (m e (h0 ++ s)) as [[a | x] n]; auto.
Qed.

Lemma from_for_from (body : Z -> M unit) (P : trace -> Prop) E :
  forall k i,
    i + Z.of_nat k <= INT_MAX ->
    (forall j, i <= j < i + Z.of_nat k ->
       triple_from e h0 P (body j) (fun _ => P) E) ->
    triple_from e h0 P (for_from k i body) (fun _ => P) E.
Proof.
  induction k as [ | k IH ]; intros i Hmax Hbody; cbn [for_from].
  - apply from_triple, triple_ret. auto.
  - apply from_bind with (R := fun _ => P); [ apply Hbody; lia | intros _ ].
    apply from_bind with (R := fun _ => P).
    + apply from_triple, triple_incr_int; [ auto | intros s _ Hi; lia ].
    + intros _. apply IH; [ lia | intros j Hj; apply Hbody; lia ].
Qed.

Lemma from_for_bounded (bound : Z) (body : Z -> M unit) (P : trace -> Prop) E :
  bound <= INT_MAX ->
  (forall j, 0 <= j < bound -> triple_from e h0 P (body j) (fun _ => P) E) ->
  triple_from e h0 P (for_int bound body) (fun _ => P) E.
Proof.
  intros Hb Hbody. unfold for_int. apply from_for_from.
  - unfold INT_MAX in *. lia.
  - intros j Hj. apply Hbody. lia.
Qed.

(** A computation that cannot go wrong and enters no benchmark call. *)
Lemma from_total {A : Type} (m : M A) (v : list (Z * Z * Z)) :
  triple e (fun _ => True) m (fun _ _ => True) (fun _ _ => False) ->
  emits (silent invocation_of) m ->
  triple_from e h0 (fun s => invocations s = v) m
    (fun _ s => invocations s = v) (fun _ _ => False).
Proof.
  intros Ht Hm s Hs. specialize (Ht (h0 ++ s) [] I). specialize (Hm e (h0 ++ s)).
  destruct (m e (h0 ++ s)) as [[a | x] n]; cbn [snd] in Hm; [ | exact Ht ].
  unfold invocations in *.
  now rewrite flat_map_app, (silent_flat_map _ _ Hm), app_nil_r.
Qed.

(** The busy wait ends when the peer delivers. *)
Lemma from_wait (K fuel : nat) (transfers : Z) (v : list (Z * Z * Z)) :
  delivers e transfers K -> (K <= fuel)%nat ->
  (forall s, invocations s = v -> awaited (h0 ++ s) = Some transfers) ->
  triple_from e h0 (fun s => invocations s = v) (wait_completed fuel transfers)
    (fun _ s => invocations s = v) (fun _ _ => False).
Proof.
  intros Hd HK Hv s Hs.
  destruct (Hd (h0 ++ s) (Hv s Hs)) as (j & Hj & Hr).
  apply (wait_completed_reads e transfers (fun s => invocations s = v)
           (fun _ _ => False)) with (j := j); auto; [ | lia ].
  intros s' r Hs'. unfold invocations in *.
  rewrite flat_map_app, Hs'. apply app_nil_r.
Qed.

End From.

Section Cooperative.

Variable e : env.
Hypothesis e_cooperates : cooperative e.

(** Nothing goes wrong. *)
Let never : abort -> trace -> Prop := fun _ _ => False.

Lemma select_gpu_total (d : Z) (P : trace -> Prop) :
  steady P -> triple e P (select_gpu d) (fun _ => P) never.
Proof.
  intros HP. apply (triple_select_gpu e succeeds e_cooperates).
  - intros s Hs _. now apply HP.
  - intros s r _ Hr Hok. cbn in Hok. contradiction.
Qed.

Lemma ext__total (c : call) (P : trace -> Prop) :
  steady P -> (forall r, round_of (Ext c r) = []) ->
  triple e P (ext_ c) (fun _ => P) never.
Proof.
  intros HP Hc. apply (triple_ext_ e succeeds e_cooperates).
  intros s r Hs _. now apply HP.
Qed.

(** A device call that must report success, and does. *)
Lemma checked_total (c : call) (msg : string) (k : M unit) (P : trace -> Prop) :
  steady P -> (forall r, round_of (Ext c r) = []) ->
  (forall r, succeeds c r -> r = hipSuccess) ->
  triple e P k (fun _ => P) never ->
  triple e P
    (rc <- ext c ;; if negb (rc =? hipSuccess) then raise (Throw msg) else k)
    (fun _ => P) never.
Proof.
  intros HP Hc Hok Hk.
  apply triple_bind with (R := fun rc s => rc = hipSuccess /\ P s).
  - apply (triple_ext e succeeds e_cooperates).
    intros s r Hs Hr. split; [ auto | now apply HP ].
  - intros rc. apply triple_if; intros Hrc.
    + apply triple_raise. intros s [-> _]. discriminate.
    + eapply triple_conseq; [ exact Hk | | auto | auto ]. now intros s [_ Hs].
Qed.

Lemma create_streams_total (P : trace -> Prop) :
  steady P -> triple e P Scatter.create_streams (fun _ => P) never.
Proof.
  intros HP. unfold Scatter.create_streams.
  apply triple_for_bounded; [ unfold Scatter.NUM_GPUS, INT_MAX; lia | intros j _ ].
  eapply triple_bind; [ now apply select_gpu_total | intros ? ].
  apply checked_total; auto.
  apply checked_total; auto.
  now apply triple_ret.
Qed.

Lemma copy_chunks_total (len : Z) (P : trace -> Prop) :
  steady P -> 0 <= len < 2 ^ 31 ->
  triple e P (Scatter.copy_chunks len) (fun _ => P) never.
Proof.
  intros HP Hlen. unfold Scatter.copy_chunks.
  assert (Hq : len / 4096 * 4096 <= len).
  { pose proof (Z.mul_div_le len 4096 ltac:(lia)). lia. }
  apply triple_for_bounded; [ unfold INT_MAX; lia | intros j Hj ].
  eapply triple_bind; [ now apply select_gpu_total | intros ? ].
  apply triple_bind with (R := fun _ => P).
  - apply triple_mul_int; [ auto | ]. unfold INT_MAX. intros s _ Hover. nia.
  - intros idx. now apply ext__total.
Qed.

Lemma sync_gpus_total (P : trace -> Prop) :
  steady P -> triple e P Scatter.sync_gpus (fun _ => P) never.
Proof.
  intros HP. unfold Scatter.sync_gpus.
  apply triple_for_bounded; [ unfold Scatter.NUM_GPUS, INT_MAX; lia | intros j _ ].
  eapply triple_bind; [ now apply select_gpu_total | intros ? ].
  apply checked_total; auto.
  now apply triple_ret.
Qed.

Lemma issue_writes_total (transfers len : Z) (P : trace -> Prop) :
  steady P -> transfers <= INT_MAX ->
  triple e P (issue_writes transfers len) (fun _ => P) never.
Proof.
  intros HP Ht. unfold issue_writes.
  apply triple_for_bounded; [ exact Ht | intros j _ ].
  now apply ext__total.
Qed.

Lemma destroy_streams_total (P : trace -> Prop) :
  steady P -> triple e P Scatter.destroy_streams (fun _ => P) never.
Proof.
  intros HP. unfold Scatter.destroy_streams.
  apply triple_for_bounded; [ unfold Scatter.NUM_GPUS, INT_MAX; lia | intros j _ ].
  eapply triple_bind; [ now apply ext__total | intros ? ].
  now apply ext__total.
Qed.

Variables (K fuel : nat) (len transfers : Z) (operation : bool).
Hypothesis peer_delivers : operation = true -> delivers e transfers K.
Hypothesis fuel_enough : (K <= fuel)%nat.
Hypothesis len_range : 0 <= len < 2 ^ 31.
Hypothesis transfers_range : transfers <= INT_MAX.

(** Within a benchmark call for [transfers] transfers, a round ends. *)
Lemma bench_round_returns (h0 : trace) (v : list (Z * Z * Z)) :
  (forall s, invocations s = v -> awaited (h0 ++ s) = Some transfers) ->
  triple_from e h0 (fun s => invocations s = v)
    (Scatter.bench_round fuel len transfers operation)
    (fun _ s => invocations s = v) never.
Proof.
  intros Hv.
  assert (Hst : steady (fun _ => True)) by (intros s ev _ _; exact I).
  unfold Scatter.bench_round.
  apply from_bind with (R := fun _ s => invocations s = v).
  { apply from_total; [ apply (triple_ext_ e succeeds e_cooperates); auto | emits_auto ]. }
  intros ?.
  apply from_bind with (R := fun _ s => invocations s = v).
  { apply from_total; [ now apply ext__total | emits_auto ]. }
  intros ?. destruct operation.
  - apply from_bind with (R := fun _ s => invocations s = v).
    { apply (from_wait e h0 K fuel transfers v); auto. }
    intros ?.
    apply from_bind with (R := fun _ s => invocations s = v).
    { apply from_total.
      - unfold Scatter.fan_out.
        eapply triple_bind; [ now apply copy_chunks_total | intros ? ].
        now apply sync_gpus_total.
      - unfold Scatter.fan_out, Scatter.copy_chunks, Scatter.sync_gpus. emits_auto. }
    intros ?.
    apply from_total; [ now apply issue_writes_total | unfold issue_writes; emits_auto ].
  - apply from_triple, triple_ret. auto.
Qed.

(** [run_bench] returns: from its first event on, the quota awaited is its
    own. *)
Lemma run_bench_returns (n_runs : Z) :
  n_runs <= INT_MAX ->
  triple e (fun _ => True)
    (Scatter.run_bench fuel len transfers n_runs operation)
    (fun _ _ => True) never.
Proof.
  intros Hn h s _.
  assert (Hst : steady (fun _ => True)) by (intros ? ev _ _; exact I).
  assert (Hv : forall s', invocations s' = [(len, transfers, n_runs)] ->
                          awaited (h ++ s') = Some transfers).
  { intros s' Hs'. now apply (awaited_app h s' len transfers n_runs []). }
  assert (H : triple_from e h (fun s' => s' = [])
                (Scatter.run_bench fuel len transfers n_runs operation)
                (fun _ _ => True) never).
  { unfold Scatter.run_bench.
    apply from_bind with (R := fun _ s' => invocations s' = [(len, transfers, n_runs)]).
    { apply from_triple, triple_emit. intros s' ->. reflexivity. }
    intros ?.
    apply from_bind with (R := fun _ s' => invocations s' = [(len, transfers, n_runs)]).
    { apply from_total; [ apply triple_emit; auto | emits_auto ]. }
    intros ?.
    apply from_bind with (R := fun _ s' => invocations s' = [(len, transfers, n_runs)]).
    { apply from_total;
        [ now apply create_streams_total | unfold Scatter.create_streams; emits_auto ]. }
    intros ?.
    apply from_bind with (R := fun _ s' => invocations s' = [(len, transfers, n_runs)]).
    { apply from_for_bounded; [ exact Hn | intros j _; now apply bench_round_returns ]. }
    intros ?.
    apply from_conseq with
      (P := fun s' => invocations s' = [(len, transfers, n_runs)])
      (Q := fun (_ : unit) s' => invocations s' = [(len, transfers, n_runs)])
      (E := never); auto.
    apply from_total;
      [ now apply destroy_streams_total | unfold Scatter.destroy_streams; emits_auto ]. }
  specialize (H [] eq_refl). rewrite app_nil_r in H.
  destruct (Scatter.run_bench fuel len transfers n_runs operation e h) as [[a | x] n];
    [ exact I | exact H ].
Qed.

(** The FPGA-side server: within a benchmark call a round ends, and the call
    returns. *)
Lemma baseline_bench_round_returns (h0 : trace) (v : list (Z * Z * Z)) :
  (forall s, invocations s = v -> awaited (h0 ++ s) = Some transfers) ->
  triple_from e h0 (fun s => invocations s = v)
    (Baseline.bench_round fuel len transfers operation)
    (fun _ s => invocations s = v) never.
Proof.
  intros Hv.
  assert (Hst : steady (fun _ => True)) by (intros s ev _ _; exact I).
  unfold Baseline.bench_round.
  apply from_bind with (R := fun _ s => invocations s = v).
  { apply from_total; [ apply (triple_ext_ e succeeds e_cooperates); auto | emits_auto ]. }
  intros ?.
  apply from_bind with (R := fun _ s => invocations s = v).
  { apply from_total; [ now apply ext__total | emits_auto ]. }
  intros ?. destruct operation.
  - apply from_bind with (R := fun _ s => invocations s = v).
    { apply (from_wait e h0 K fuel transfers v); auto. }
    intros ?.
    apply from_total; [ now apply issue_writes_total | unfold issue_writes; emits_auto ].
  - apply from_triple, triple_ret. auto.
Qed.

Lemma baseline_run_bench_returns (n_runs : Z) :
  n_runs <= INT_MAX ->
  triple e (fun _ => True)
    (Baseline.run_bench fuel len transfers n_runs operation)
    (fun _ _ => True) never.
Proof.
  intros Hn h s _.
  assert (Hv : forall s', invocations s' = [(len, transfers, n_runs)] ->
                          awaited (h ++ s') = Some transfers).
  { intros s' Hs'. now apply (awaited_app h s' len transfers n_runs []). }
  assert (H : triple_from e h (fun s' => s' = [])
                (Baseline.run_bench fuel len transfers n_runs operation)
                (fun _ _ => True) never).
  { unfold Baseline.run_bench.
    apply from_bind with (R := fun _ s' => invocations s' = [(len, transfers, n_runs)]).
    { apply from_triple, triple_emit. intros s' ->. reflexivity. }
    intros ?.
    apply from_bind with (R := fun _ s' => invocations s' = [(len, transfers, n_runs)]).
    { apply from_total; [ apply triple_emit; auto | emits_auto ]. }
    intros ?.
    apply from_conseq with
      (P := fun s' => invocations s' = [(len, transfers, n_runs)])
      (Q := fun (_ : unit) s' => invocations s' = [(len, transfers, n_runs)])
      (E := never); auto.
    apply from_for_bounded;
      [ exact Hn | intros j _; now apply baseline_bench_round_returns ]. }
  specialize (H [] eq_refl). rewrite app_nil_r in H.
  destruct (Baseline.run_bench fuel len transfers n_runs operation e h) as [[a | x] n];
    [ exact I | exact H ].
Qed.

End Cooperative.

Lemma all_ok_cooperative (quota : Z) : cooperative (all_ok quota).
Proof. intros h c. destruct c; cbn; auto; discriminate. Qed.

Lemma counting_cooperative : cooperative counting.
Proof. intros h c. destruct c; cbn; auto; discriminate. Qed.

Lemma tally_nonneg (h : trace) :
  forall n, 0 <= n -> 0 <= fold_left tally h n.
Proof.
  induction h as [ | ev h IH ]; intros n Hn; [ exact Hn | ].
  cbn [fold_left]. apply IH.
  destruct ev as [c r | | ]; cbn; try lia.
  destruct c; try lia. destruct op; lia.
Qed.

(** Reading the count does not change the quota awaited, and is counted. *)
Lemma polled_reads (e : env) (j : nat) :
  forall h,
    awaited (polled e h j) = awaited h /\
    polls_since_clear (polled e h j) = polls_since_clear h + Z.of_nat j.
Proof.
  induction j as [ | j IH ]; intros h; cbn [polled].
  - split; [ reflexivity | lia ].
  - destruct (IH (h ++ [Ext (checkCompleted LOCAL_WRITE)
                          (e h (checkCompleted LOCAL_WRITE))])) as [Ha Hp].
    rewrite Ha, Hp. split.
    + unfold awaited, invocations. rewrite flat_map_app. cbn. now rewrite app_nil_r.
    + unfold polls_since_clear. rewrite fold_left_app. cbn. lia.
Qed.

(** With writes that arrive one by one, a quota of [transfers] is read after
    at most [transfers] further reads. *)
Lemma counting_delivers (transfers : Z) (K : nat) :
  0 <= transfers < Z.of_nat K -> delivers counting transfers K.
Proof.
  intros Ht h Hh.
  pose proof (tally_nonneg h 0 ltac:(lia)) as Hp.
  fold (polls_since_clear h) in Hp.
  exists (Z.to_nat (transfers - polls_since_clear h)). split; [ lia | ].
  destruct (polled_reads counting (Z.to_nat (transfers - polls_since_clear h)) h)
    as [Ha Hq].
  unfold counting at 1. rewrite Ha, Hh, Hq. lia.
Qed.

(** ** The server as a whole *)

Lemma quiet_flat_maps (n : trace) :
  forallb quiet n = true ->
  rounds n = 0 /\ invocations n = [] /\ remote_writes n = [].
Proof.
  intros H. unfold rounds, invocations, remote_writes.
  assert (Hall : forallb (silent round_of) n = true
                 /\ forallb (silent invocation_of) n = true
                 /\ forallb (silent write_of) n = true).
  { induction n as [ | ev n IH ]; cbn in *; [ auto | ].
    apply andb_true_iff in H as [Hev Hn]. unfold quiet in Hev.
    apply andb_true_iff in Hev as [Hev Hw]. apply andb_true_iff in Hev as [Hr Hi].
    destruct (IH Hn) as (IH1 & IH2 & IH3).
    rewrite Hr, Hi, Hw, IH1, IH2, IH3. auto. }
  destruct Hall as (H1 & H2 & H3).
  rewrite (silent_flat_map _ _ H1), (silent_flat_map _ _ H2), (silent_flat_map _ _ H3).
  auto.
Qed.

(** The sweep loop runs its body on the sizes of [sweep_sizes], one after the
    other: it ends when they are finitely many and the body returns on each. *)
Lemma sweep_sizes_range (max_size : Z) (fuel : nat) :
  forall c l, 0 <= c -> sweep_sizes fuel c max_size = Some l ->
              forall x, In x l -> 0 <= x <= max_size.
Proof.
  induction fuel as [ | fuel IH ]; intros c l Hc H x Hx; [ discriminate | ].
  cbn [sweep_sizes] in H. destruct (Z.leb_spec c max_size) as [Hle | Hgt].
  - destruct (sweep_sizes fuel (wrap32 (c * 2)) max_size) as [l' | ] eqn:Hrec;
      [ | discriminate ].
    injection H as <-. destruct Hx as [<- | Hx]; [ lia | ].
    apply (IH (wrap32 (c * 2)) l'); auto.
    unfold wrap32. apply Z.mod_pos_bound. lia.
  - injection H as <-. destruct Hx.
Qed.

Lemma sweep_runs_sizes (e : env) (max_size : Z) (body : Z -> M unit) (fuel : nat) :
  forall c l, sweep_sizes fuel c max_size = Some l ->
    (forall x, In x l ->
       triple e (fun _ => True) (body x) (fun _ _ => True) (fun _ _ => False)) ->
    triple e (fun _ => True) (sweep fuel c max_size body)
      (fun _ _ => True) (fun _ _ => False).
Proof.
  induction fuel as [ | fuel IH ]; intros c l H Hbody; [ discriminate | ].
  cbn [sweep_sizes sweep] in *. destruct (c <=? max_size).
  - destruct (sweep_sizes fuel (wrap32 (c * 2)) max_size) as [l' | ] eqn:Hrec;
      [ | discriminate ].
    injection H as <-.
    eapply triple_bind; [ apply Hbody; now left | intros ? ].
    apply (IH _ l' Hrec). intros x Hx. apply Hbody. now right.
  - apply triple_ret. auto.
Qed.

Section MainReturns.

Variable N_LATENCY_REPS : Z.
Variables (fuel : nat) (operation : bool) (n_runs min_size max_size : Z).
Variable e : env.
Hypothesis e_cooperates : cooperative e.

(** If the sweep returns, so does [main], with [EXIT_SUCCESS] and after a last
    synchronization with the peer. *)
Lemma main_total :
  triple e (fun _ => True)
    (Scatter.sweep_bench N_LATENCY_REPS fuel operation n_runs min_size max_size)
    (fun _ _ => True) (fun _ _ => False) ->
  triple e (fun _ => True)
    (Scatter.main N_LATENCY_REPS fuel operation n_runs min_size max_size)
    (fun r s => r = EXIT_SUCCESS /\ ends_in_sync s)
    (fun _ _ => False).
Proof.
  intros Hsweep.
  assert (Hst : steady (fun _ => True)) by (intros s ev _ _; exact I).
  unfold Scatter.main.
  apply triple_bind with (R := fun mem _ => mem <> 0).
  { apply (triple_ext e succeeds e_cooperates). intros s r _ Hr. exact Hr. }
  intros mem. apply triple_if; intros Hmem.
  { apply triple_raise. intros s Hne. apply Z.eqb_eq in Hmem. contradiction. }
  apply triple_bind with (R := fun _ _ => True).
  { eapply triple_conseq; [ apply (select_gpu_total e e_cooperates 0 _ Hst) | | | ];
      cbn; auto. }
  intros ?.
  apply triple_bind with (R := fun v1 _ => v1 <> 0).
  { apply (triple_ext e succeeds e_cooperates). intros s r _ Hr. exact Hr. }
  intros v1.
  apply triple_bind with (R := fun v2 _ => v1 <> 0 /\ v2 <> 0).
  { apply (triple_ext e succeeds e_cooperates). intros s r H1 Hr. auto. }
  intros v2.
  apply triple_bind with (R := fun v3 _ => v1 <> 0 /\ v2 <> 0 /\ v3 <> 0).
  { apply (triple_ext e succeeds e_cooperates). intros s r [H1 H2] Hr. auto. }
  intros v3.
  apply triple_bind with (R := fun v4 _ => v1 <> 0 /\ v2 <> 0 /\ v3 <> 0 /\ v4 <> 0).
  { apply (triple_ext e succeeds e_cooperates). intros s r (H1 & H2 & H3) Hr. auto. }
  intros v4. apply triple_if; intros Hnull.
  { apply triple_raise. intros s (H1 & H2 & H3 & H4).
    repeat (apply orb_true_iff in Hnull as [Hnull | Hnull]);
      apply Z.eqb_eq in Hnull; contradiction. }
  apply triple_conseq with (P := fun _ => True)
    (Q := fun r s => r = EXIT_SUCCESS /\ ends_in_sync s) (E := fun _ _ => False); auto.
  eapply triple_bind; [ apply (select_gpu_total e e_cooperates _ _ Hst) | intros ? ].
  eapply triple_bind; [ exact Hsweep | intros ? ].
  do 4 (eapply triple_bind; [ apply (select_gpu_total e e_cooperates _ _ Hst) | intros ? ];
        eapply triple_bind; [ apply (ext__total e e_cooperates _ _ Hst); reflexivity
                            | intros ? ]).
  apply triple_bind with (R := fun _ s => ends_in_sync s).
  { apply (triple_ext_ e succeeds e_cooperates).
    intros s r _ _. exists s, r. reflexivity. }
  intros ?. apply triple_ret. auto.
Qed.

(** With an inverted range the sweep has nothing to do. *)
Lemma sweep_bench_inverted :
  max_size < min_size -> fuel <> O ->
  triple e (fun _ => True)
    (Scatter.sweep_bench N_LATENCY_REPS fuel operation n_runs min_size max_size)
    (fun _ _ => True) (fun _ _ => False).
Proof.
  intros Hinv Hfuel. unfold Scatter.sweep_bench.
  destruct fuel as [ | fuel' ]; [ contradiction | ]. cbn [sweep].
  replace (min_size <=? max_size) with false by (symmetry; apply Z.leb_gt; lia).
  apply triple_ret. auto.
Qed.

(** With sizes that cannot wrap around, a peer that delivers its writes and
    counts that fit an [int], the sweep returns. *)
Lemma sweep_bench_returns (K : nat) :
  (operation = true -> delivers e N_LATENCY_REPS K) ->
  (K <= fuel)%nat -> (32 <= fuel)%nat ->
  0 < min_size < 2 ^ 32 -> max_size < 2 ^ 31 ->
  N_LATENCY_REPS <= INT_MAX ->
  0 <= n_runs -> n_runs + 10 <= INT_MAX ->
  triple e (fun _ => True)
    (Scatter.sweep_bench N_LATENCY_REPS fuel operation n_runs min_size max_size)
    (fun _ _ => True) (fun _ _ => False).
Proof.
  intros Hq HK Hfuel Hmin Hmax Ht Hn0 Hn. unfold Scatter.sweep_bench.
  destruct (sweep_sizes_fuel max_size Hmax 31 min_size ltac:(lia)) as [l Hl].
  { change (2 ^ Z.of_nat 31) with (2 ^ 31). lia. }
  specialize (Hl fuel ltac:(lia)).
  apply (sweep_runs_sizes e max_size _ fuel min_size l Hl).
  intros x Hx.
  pose proof (sweep_sizes_range max_size fuel min_size l ltac:(lia) Hl x Hx) as Hr.
  apply (run_bench_returns e e_cooperates K fuel x N_LATENCY_REPS operation
           Hq HK ltac:(lia) Ht).
  rewrite wrap32_small; unfold INT_MAX in *; lia.
Qed.

End MainReturns.

(** Under those conditions [main] runs to its end. *)
Lemma scatter_main_returns (N_LATENCY_REPS : Z) (e : env) (h : trace) (K fuel : nat)
    (operation : bool) (n_runs min_size max_size : Z) :
  cooperative e ->
  (operation = true -> delivers e N_LATENCY_REPS K) ->
  (K <= fuel)%nat -> (32 <= fuel)%nat ->
  0 < min_size < 2 ^ 32 -> max_size < 2 ^ 31 ->
  N_LATENCY_REPS <= INT_MAX ->
  0 <= n_runs -> n_runs + 10 <= INT_MAX ->
  fst (Scatter.main N_LATENCY_REPS fuel operation n_runs min_size max_size e h)
  = Done EXIT_SUCCESS.
Proof.
  intros He Hq HK Hfuel Hmin Hmax Ht Hn0 Hn.
  pose proof (main_total N_LATENCY_REPS fuel operation n_runs min_size max_size e He
                (sweep_bench_returns N_LATENCY_REPS fuel operation n_runs min_size max_size
                   e He K Hq HK Hfuel Hmin Hmax Ht Hn0 Hn) h [] I) as H.
  destruct (Scatter.main N_LATENCY_REPS fuel operation n_runs min_size max_size e h)
    as [[r | x] n]; cbn [fst] in *; [ | contradiction ].
  now destruct H as [-> _].
Qed.

(** ** The rounds of each benchmark call *)

Lemma schedule_snoc (s : trace) (ev : event) :
  schedule (s ++ [ev]) = schedule s ++ mark_of ev.
Proof. unfold schedule. rewrite flat_map_app. cbn [flat_map]. now rewrite app_nil_r. Qed.

Section Schedule.

Variable e : env.

(** A round that ends has begun once. *)
Lemma bench_round_schedule (fuel : nat) (len transfers : Z) (operation : bool)
    (v : list mark) :
  triple e (fun s => schedule s = v)
    (Scatter.bench_round fuel len transfers operation)
    (fun _ s => schedule s = v ++ [Round]) (fun _ _ => True).
Proof.
  unfold Scatter.bench_round.
  apply triple_bind with (R := fun _ s => schedule s = v ++ [Round]).
  { apply (triple_ext_ e any_answer (any_answer_ok e)).
    intros s r Hs _. now rewrite schedule_snoc, Hs. }
  intros ?. apply emits_frame; [ | auto ].
  unfold Scatter.fan_out, Scatter.copy_chunks, Scatter.sync_gpus, issue_writes.
  emits_auto.
Qed.

(** A call of [run_bench] that returns has begun as many rounds as it was
    asked for. *)
Lemma run_bench_schedule (fuel : nat) (len transfers n_runs : Z) (operation : bool)
    (v : list mark) :
  0 <= n_runs ->
  triple e (fun s => schedule s = v)
    (Scatter.run_bench fuel len transfers n_runs operation)
    (fun _ s => schedule s
                = v ++ Call len transfers n_runs :: repeat Round (Z.to_nat n_runs))
    (fun _ _ => True).
Proof.
  intros Hn. unfold Scatter.run_bench.
  apply triple_bind with (R := fun _ s => schedule s = v ++ [Call len transfers n_runs]).
  { apply triple_emit. intros s Hs. now rewrite schedule_snoc, Hs. }
  intros ?.
  apply triple_bind with (R := fun _ s => schedule s = v ++ [Call len transfers n_runs]).
  { apply emits_frame; [ emits_auto | auto ]. }
  intros ?.
  apply triple_bind with (R := fun _ s => schedule s = v ++ [Call len transfers n_runs]).
  { apply emits_frame; [ unfold Scatter.create_streams; emits_auto | auto ]. }
  intros ?.
  apply triple_bind with
    (R := fun _ s => schedule s
                     = v ++ Call len transfers n_runs :: repeat Round (Z.to_nat n_runs)).
  { apply triple_conseq with
      (P := fun s => schedule s
                     = v ++ Call len transfers n_runs :: repeat Round (Z.to_nat 0))
      (Q := fun _ s => schedule s
                       = v ++ Call len transfers n_runs :: repeat Round (Z.to_nat n_runs))
      (E := fun _ _ => True); auto.
    apply (triple_for_int e n_runs _
             (fun j s => schedule s
                         = v ++ Call len transfers n_runs :: repeat Round (Z.to_nat j)));
      [ exact Hn | | auto ].
    intros j Hj.
    apply triple_conseq with
      (P := fun s => schedule s
                     = v ++ Call len transfers n_runs :: repeat Round (Z.to_nat j))
      (Q := fun _ s => schedule s
                       = (v ++ Call len transfers n_runs :: repeat Round (Z.to_nat j))
                         ++ [Round])
      (E := fun _ _ => True); [ apply bench_round_schedule | auto | | auto ].
    intros ? s Hs. rewrite Hs, <- app_assoc.
    replace (Z.to_nat (j + 1)) with (S (Z.to_nat j)) by lia.
    cbn [app repeat]. now rewrite repeat_cons. }
  intros ?. apply emits_frame; [ unfold Scatter.destroy_streams; emits_auto | auto ].
Qed.

Variable N_LATENCY_REPS : Z.
Variables (fuel : nat) (operation : bool) (n_runs min_size max_size : Z).
Hypothesis min_pos : 0 < min_size.
Hypothesis min_le_max : min_size <= max_size.
Hypothesis max_small : max_size < 2 ^ 31.

(** When [main] returns, its sweep has made one call per size, each of
    [n_runs + 10] rounds as an [unsigned int]. *)
Lemma scatter_main_schedule :
  triple e (fun s => schedule s = [])
    (Scatter.main N_LATENCY_REPS fuel operation n_runs min_size max_size)
    (fun _ s => schedule s
                = flat_map (fun sz => Call sz N_LATENCY_REPS (wrap32 (n_runs + 10))
                                      :: repeat Round (Z.to_nat (wrap32 (n_runs + 10))))
                    (doubling_sizes min_size max_size))
    (fun _ _ => True).
Proof.
  assert (Hw : 0 <= wrap32 (n_runs + 10)).
  { unfold wrap32. apply Z.mod_pos_bound. lia. }
  unfold Scatter.main, schedule.
  apply triple_frame_bind; [ emits_auto | intros mem ].
  apply triple_if; intros _; [ apply triple_raise; auto | ].
  apply triple_frame_bind; [ emits_auto | intros ? ].
  apply triple_frame_bind; [ emits_auto | intros v1 ].
  apply triple_frame_bind; [ emits_auto | intros v2 ].
  apply triple_frame_bind; [ emits_auto | intros v3 ].
  apply triple_frame_bind; [ emits_auto | intros v4 ].
  apply triple_if; intros _; [ apply triple_raise; auto | ].
  apply triple_frame_bind; [ emits_auto | intros ? ].
  eapply triple_bind.
  - unfold Scatter.sweep_bench.
    apply (sweep_collects mark_of e
             (fun sz => Call sz N_LATENCY_REPS (wrap32 (n_runs + 10))
                        :: repeat Round (Z.to_nat (wrap32 (n_runs + 10))))); auto.
    intros c v. now apply run_bench_schedule.
  - intros ?.
    apply triple_conseq with
      (P := fun s => flat_map mark_of s
                     = flat_map (fun sz => Call sz N_LATENCY_REPS (wrap32 (n_runs + 10))
                                           :: repeat Round (Z.to_nat (wrap32 (n_runs + 10))))
                         (doubling_sizes min_size max_size))
      (Q := fun (_ : Z) s =>
              flat_map mark_of s
              = flat_map (fun sz => Call sz N_LATENCY_REPS (wrap32 (n_runs + 10))
                                    :: repeat Round (Z.to_nat (wrap32 (n_runs + 10))))
                  (doubling_sizes min_size max_size))
      (E := fun _ _ => True).
    + apply emits_frame; [ emits_auto | auto ].
    + intros s (k & Hs & Hj & Hk). cbn [app] in Hs.
      eapply collected_doubling; eauto.
    + auto.
    + auto.
Qed.

End Schedule.

(** C7, amended: with [0 < min_size <= max_size < 2 ^ 31], device calls that
    succeed and, in write mode, a peer that delivers its writes, [main]
    returns, and for every transfer size of the sweep it has made one call of
    the benchmark loop, passing [n_runs + 10] as the number of rounds (line
    391), and that call has begun exactly [n_runs + 10] rounds before the next
    call: ten more than the value of [--runs]. *)
Theorem latency_rounds (N_LATENCY_REPS : Z) (e : env) (h : trace) (K fuel : nat)
    (operation : bool) (n_runs min_size max_size : Z) :
  cooperative e ->
  (operation = true -> delivers e N_LATENCY_REPS K) ->
  (K <= fuel)%nat -> (32 <= fuel)%nat ->
  0 < min_size -> min_size <= max_size -> max_size < 2 ^ 31 ->
  N_LATENCY_REPS <= INT_MAX ->
  0 <= n_runs -> n_runs + 10 <= INT_MAX ->
  fst (Scatter.main N_LATENCY_REPS fuel operation n_runs min_size max_size e h)
  = Done EXIT_SUCCESS /\
  schedule (snd (Scatter.main N_LATENCY_REPS fuel operation n_runs min_size max_size e h))
  = flat_map (fun sz => Call sz N_LATENCY_REPS (n_runs + 10)
                        :: repeat Round (Z.to_nat (n_runs + 10)))
      (doubling_sizes min_size max_size).
Proof.
  intros He Hq HK Hfuel Hmin Hle Hmax Ht Hn0 Hn.
  assert (Hw : wrap32 (n_runs + 10) = n_runs + 10).
  { apply wrap32_small. unfold INT_MAX in Hn. lia. }
  pose proof (scatter_main_returns N_LATENCY_REPS e h K fuel operation n_runs
                min_size max_size He Hq HK Hfuel ltac:(lia) Hmax Ht Hn0 Hn) as Hd.
  pose proof (scatter_main_schedule e N_LATENCY_REPS fuel operation n_runs
                min_size max_size Hmin Hle Hmax h [] eq_refl) as H.
  destruct (Scatter.main _ _ _ _ _ _ e h) as [[a | x] n]; [ | discriminate ].
  cbn [fst snd app] in *. split; [ exact Hd | ].
  now rewrite H, Hw.
Qed.

Lemma latency_rounds_witness :
  cooperative counting /\
  (true = true -> delivers counting 2 3) /\ (3 <= 40)%nat /\ (32 <= 40)%nat /\
  0 < 4096 /\ 4096 <= 8192 /\ 8192 < 2 ^ 31 /\
  2 <= INT_MAX /\
  0 <= 3 /\ 3 + 10 <= INT_MAX /\
  fst (Scatter.main 2 40 true 3 4096 8192 counting []) = Done EXIT_SUCCESS /\
  schedule (snd (Scatter.main 2 40 true 3 4096 8192 counting []))
  = flat_map (fun sz => Call sz 2 (3 + 10) :: repeat Round (Z.to_nat (3 + 10)))
      (doubling_sizes 4096 8192).
Proof.
  split; [ apply counting_cooperative | ].
  split; [ intros _; apply (counting_delivers 2 3); lia | ].
  split; [ lia | ]. split; [ lia | ]. split; [ lia | ]. split; [ lia | ].
  split; [ lia | ]. split; [ unfold INT_MAX; lia | ].
  split; [ lia | ]. split; [ unfold INT_MAX; lia | ].
  apply (latency_rounds 2 counting [] 3 40 true 3 4096 8192);
    [ apply counting_cooperative | intros _; apply (counting_delivers 2 3); lia | lia | lia
    | lia | lia | lia | unfold INT_MAX; lia | lia | unfold INT_MAX; lia ].
Defined.

(** C7 as stated fails: started with [--runs 3] over the single size 4096 in
    write mode, the server makes one call of the benchmark loop, which runs 13
    rounds. *)
Lemma latency_rounds_counterexample :
  fst (Scatter.main 1 40 true 3 4096 4096 (all_ok 1) []) = Done 0 /\
  invocations (snd (Scatter.main 1 40 true 3 4096 4096 (all_ok 1) [])) = [(4096, 1, 13)] /\
  rounds (snd (Scatter.main 1 40 true 3 4096 4096 (all_ok 1) [])) = 13 /\
  rounds (snd (Scatter.main 1 40 true 3 4096 4096 (all_ok 1) [])) <> 3.
Proof.
  split; [ vm_compute; reflexivity | ]. split; [ vm_compute; reflexivity | ].
  split; [ vm_compute; reflexivity | ]. vm_compute. discriminate.
Qed.

(** ** An inverted range *)

(** With an inverted range no event of [main] belongs to a round. *)
Lemma main_inverted_quiet (N_LATENCY_REPS : Z) (fuel : nat) (operation : bool)
    (n_runs min_size max_size : Z) :
  max_size < min_size ->
  emits quiet (Scatter.main N_LATENCY_REPS (S fuel) operation n_runs min_size max_size).
Proof.
  intros Hinv. unfold Scatter.main, Scatter.sweep_bench. cbn [sweep].
  replace (min_size <=? max_size) with false by (symmetry; apply Z.leb_gt; lia).
  emits_auto.
Qed.

(** C9: with [min_size > max_size] no round runs, no benchmark call is made
    and no remote write is submitted; the inverted range raises no error of
    its own: with allocations and device selections that succeed, the server
    still synchronizes with its peer as its last act and returns
    [EXIT_SUCCESS]. *)
Theorem inverted_range_runs_nothing (N_LATENCY_REPS : Z) (e : env) (h : trace)
    (fuel : nat) (operation : bool) (n_runs min_size max_size : Z) :
  max_size < min_size ->
  (rounds (snd (Scatter.main N_LATENCY_REPS (S fuel) operation n_runs min_size max_size e h))
   = 0 /\
   invocations
     (snd (Scatter.main N_LATENCY_REPS (S fuel) operation n_runs min_size max_size e h))
   = [] /\
   remote_writes
     (snd (Scatter.main N_LATENCY_REPS (S fuel) operation n_runs min_size max_size e h))
   = [])
  /\
  (cooperative e ->
   fst (Scatter.main N_LATENCY_REPS (S fuel) operation n_runs min_size max_size e h)
   = Done EXIT_SUCCESS /\
   ends_in_sync
     (snd (Scatter.main N_LATENCY_REPS (S fuel) operation n_runs min_size max_size e h))).
Proof.
  intros Hinv. split.
  - apply quiet_flat_maps. now apply main_inverted_quiet.
  - intros He.
    pose proof (main_total N_LATENCY_REPS (S fuel) operation n_runs min_size max_size e He
                  (sweep_bench_inverted N_LATENCY_REPS (S fuel) operation n_runs
                     min_size max_size e Hinv ltac:(discriminate)) h [] I) as Ht.
    destruct (Scatter.main N_LATENCY_REPS (S fuel) operation n_runs min_size max_size e h)
      as [[r | x] n]; cbn [fst snd app] in *; [ | contradiction ].
    destruct Ht as [-> Hend]. auto.
Qed.

Lemma inverted_range_runs_nothing_witness :
  512 < 1024 /\
  (rounds (snd (Scatter.main 1 1 true 10 1024 512 (all_ok 1) [])) = 0 /\
   invocations (snd (Scatter.main 1 1 true 10 1024 512 (all_ok 1) [])) = [] /\
   remote_writes (snd (Scatter.main 1 1 true 10 1024 512 (all_ok 1) [])) = []) /\
  cooperative (all_ok 1) /\
  fst (Scatter.main 1 1 true 10 1024 512 (all_ok 1) []) = Done EXIT_SUCCESS /\
  ends_in_sync (snd (Scatter.main 1 1 true 10 1024 512 (all_ok 1) [])).
Proof.
  split; [ lia | ].
  destruct (inverted_range_runs_nothing 1 (all_ok 1) [] 0 true 10 1024 512 ltac:(lia))
    as [Hquiet Hdone].
  split; [ exact Hquiet | ].
  split; [ apply all_ok_cooperative | ].
  exact (Hdone (all_ok_cooperative 1)).
Defined.

(** ** The sweep of both servers *)

Section BaselineReturns.

Variables N_THROUGHPUT_REPS N_LATENCY_REPS DEFAULT_GPU_ID : Z.
Variables (K fuel : nat) (operation : bool) (n_runs min_size max_size : Z).
Variable e : env.
Hypothesis e_cooperates : cooperative e.
Hypothesis throughput_delivered : operation = true -> delivers e N_THROUGHPUT_REPS K.
Hypothesis latency_delivered : operation = true -> delivers e N_LATENCY_REPS K.
Hypothesis fuel_waits : (K <= fuel)%nat.
Hypothesis fuel_sweeps : (32 <= fuel)%nat.
Hypothesis min_range : 0 < min_size < 2 ^ 32.
Hypothesis max_range : max_size < 2 ^ 31.
Hypothesis throughput_range : N_THROUGHPUT_REPS <= INT_MAX.
Hypothesis latency_range : N_LATENCY_REPS <= INT_MAX.
Hypothesis runs_range : n_runs <= INT_MAX.

Lemma baseline_sweep_bench_returns :
  triple e (fun _ => True)
    (Baseline.sweep_bench N_THROUGHPUT_REPS N_LATENCY_REPS
       fuel operation n_runs min_size max_size)
    (fun _ _ => True) (fun _ _ => False).
Proof.
  unfold Baseline.sweep_bench.
  destruct (sweep_sizes_fuel max_size max_range 31 min_size ltac:(lia)) as [l Hl].
  { change (2 ^ Z.of_nat 31) with (2 ^ 31). lia. }
  specialize (Hl fuel ltac:(lia)).
  apply (sweep_runs_sizes e max_size _ fuel min_size l Hl).
  intros x Hx.
  eapply triple_bind; [ | intros ? ].
  - apply (baseline_run_bench_returns e e_cooperates K fuel x N_THROUGHPUT_REPS operation);
      assumption.
  - apply (baseline_run_bench_returns e e_cooperates K fuel x N_LATENCY_REPS operation);
      assumption.
Qed.

Lemma baseline_main_total :
  triple e (fun _ => True)
    (Baseline.main N_THROUGHPUT_REPS N_LATENCY_REPS DEFAULT_GPU_ID
       fuel operation n_runs min_size max_size)
    (fun r _ => r = EXIT_SUCCESS)
    (fun _ _ => False).
Proof.
  assert (Hst : steady (fun _ => True)) by (intros s ev _ _; exact I).
  unfold Baseline.main.
  apply triple_bind with (R := fun mem _ => mem <> 0).
  { apply (triple_ext e succeeds e_cooperates). intros s r _ Hr. exact Hr. }
  intros mem. apply triple_if; intros Hmem.
  { apply triple_raise. intros s Hne. apply Z.eqb_eq in Hmem. contradiction. }
  apply triple_bind with (R := fun _ _ => True).
  { eapply triple_conseq;
      [ apply (select_gpu_total e e_cooperates DEFAULT_GPU_ID _ Hst) | | | ]; cbn; auto. }
  intros ?.
  apply triple_bind with (R := fun v1 _ => v1 <> 0).
  { apply (triple_ext e succeeds e_cooperates). intros s r _ Hr. exact Hr. }
  intros v1.
  apply triple_bind with (R := fun v2 _ => v1 <> 0 /\ v2 <> 0).
  { apply (triple_ext e succeeds e_cooperates). intros s r H1 Hr. auto. }
  intros v2.
  apply triple_bind with (R := fun v3 _ => v1 <> 0 /\ v2 <> 0 /\ v3 <> 0).
  { apply (triple_ext e succeeds e_cooperates). intros s r [H1 H2] Hr. auto. }
  intros v3.
  apply triple_bind with (R := fun v4 _ => v1 <> 0 /\ v2 <> 0 /\ v3 <> 0 /\ v4 <> 0).
  { apply (triple_ext e succeeds e_cooperates). intros s r (H1 & H2 & H3) Hr. auto. }
  intros v4. apply triple_if; intros Hnull.
  { apply triple_raise. intros s (H1 & H2 & H3 & H4).
    repeat (apply orb_true_iff in Hnull as [Hnull | Hnull]);
      apply Z.eqb_eq in Hnull; contradiction. }
  apply triple_conseq with (P := fun _ => True)
    (Q := fun r _ => r = EXIT_SUCCESS) (E := fun _ _ => False); auto.
  do 5 (eapply triple_bind;
        [ apply (ext__total e e_cooperates _ _ Hst); reflexivity | intros ? ]).
  eapply triple_bind; [ apply baseline_sweep_bench_returns | intros ? ].
  eapply triple_bind;
    [ apply (ext__total e e_cooperates _ _ Hst); reflexivity | intros ? ].
  apply triple_ret. auto.
Qed.

End BaselineReturns.

(** C3, amended: for [0 < min_size <= max_size < 2 ^ 31], with device calls
    that succeed, in write mode a peer that delivers its writes, and counts
    within the range of [int], the server returns, and its sweep has visited
    exactly [min_size], [min_size * 2], [min_size * 4], ... up to and
    including the largest that does not exceed [max_size], in increasing
    order.  The host-side scatter server (lines 387-393) calls the benchmark
    loop once per size, with the latency multiplier and [n_runs + 10] rounds;
    the FPGA-side server (lines 145-151) calls it twice per size, first with
    the throughput multiplier and then with the latency multiplier, with
    [n_runs] rounds. *)
Theorem sweep_visits_doubling_sizes
    (N_THROUGHPUT_REPS N_LATENCY_REPS DEFAULT_GPU_ID : Z)
    (e : env) (h : trace) (K fuel : nat)
    (operation : bool) (n_runs min_size max_size : Z) :
  cooperative e ->
  (operation = true -> delivers e N_THROUGHPUT_REPS K) ->
  (operation = true -> delivers e N_LATENCY_REPS K) ->
  (K <= fuel)%nat -> (32 <= fuel)%nat ->
  0 < min_size -> min_size <= max_size -> max_size < 2 ^ 31 ->
  N_THROUGHPUT_REPS <= INT_MAX -> N_LATENCY_REPS <= INT_MAX ->
  0 <= n_runs -> n_runs + 10 <= INT_MAX ->
  (fst (Scatter.main N_LATENCY_REPS fuel operation n_runs min_size max_size e h)
   = Done EXIT_SUCCESS /\
   invocations
     (snd (Scatter.main N_LATENCY_REPS fuel operation n_runs min_size max_size e h))
   = map (fun sz => (sz, N_LATENCY_REPS, n_runs + 10))
       (doubling_sizes min_size max_size))
  /\
  (fst (Baseline.main N_THROUGHPUT_REPS N_LATENCY_REPS DEFAULT_GPU_ID
          fuel operation n_runs min_size max_size e h)
   = Done EXIT_SUCCESS /\
   invocations
     (snd (Baseline.main N_THROUGHPUT_REPS N_LATENCY_REPS DEFAULT_GPU_ID
             fuel operation n_runs min_size max_size e h))
   = flat_map (fun sz => [(sz, N_THROUGHPUT_REPS, n_runs); (sz, N_LATENCY_REPS, n_runs)])
       (doubling_sizes min_size max_size))
  /\
  (forall sz, In sz (doubling_sizes min_size max_size) <->
              exists k, 0 <= k /\ sz = min_size * 2 ^ k /\ sz <= max_size)
  /\
  (forall i j a b,
     nth_error (doubling_sizes min_size max_size) i = Some a ->
     nth_error (doubling_sizes min_size max_size) j = Some b ->
     (i < j)%nat -> a < b).
Proof.
  intros He Hqt Hq HK Hfuel Hmin Hle Hmax Htt Htl Hn0 Hn.
  assert (Hw : wrap32 (n_runs + 10) = n_runs + 10).
  { apply wrap32_small. unfold INT_MAX in Hn. lia. }
  split; [ | split; [ | split;
    [ intros sz; now apply doubling_sizes_spec | now apply doubling_sizes_increasing ] ] ].
  - pose proof (scatter_main_returns N_LATENCY_REPS e h K fuel operation n_runs
                  min_size max_size He Hq HK Hfuel ltac:(lia) Hmax Htl Hn0 Hn) as Hd.
    pose proof (scatter_main_invocations N_LATENCY_REPS e fuel operation n_runs
                  min_size max_size Hmin Hle Hmax h [] eq_refl) as H.
    destruct (Scatter.main _ _ _ _ _ _ e h) as [[a | x] n]; [ | discriminate ].
    cbn [fst snd app] in *. split; [ exact Hd | ].
    now rewrite H, flat_map_singleton, Hw.
  - pose proof (baseline_main_total N_THROUGHPUT_REPS N_LATENCY_REPS DEFAULT_GPU_ID
                  K fuel operation n_runs min_size max_size e He Hqt Hq HK Hfuel
                  ltac:(lia) Hmax Htt Htl ltac:(lia) h [] I) as Hd.
    pose proof (baseline_main_invocations N_THROUGHPUT_REPS N_LATENCY_REPS DEFAULT_GPU_ID
                  e fuel operation n_runs min_size max_size Hmin Hle Hmax h [] eq_refl)
      as H.
    destruct (Baseline.main _ _ _ _ _ _ _ _ e h) as [[a | x] n]; [ | contradiction ].
    cbn [fst snd app] in *. subst a. auto.
Qed.

Lemma sweep_visits_doubling_sizes_witness :
  cooperative counting /\
  (true = true -> delivers counting 2 3) /\
  (true = true -> delivers counting 1 3) /\
  (3 <= 40)%nat /\ (32 <= 40)%nat /\
  0 < 64 /\ 64 <= 256 /\ 256 < 2 ^ 31 /\
  2 <= INT_MAX /\ 1 <= INT_MAX /\
  0 <= 3 /\ 3 + 10 <= INT_MAX /\
  (fst (Scatter.main 1 40 true 3 64 256 counting []) = Done EXIT_SUCCESS /\
   invocations (snd (Scatter.main 1 40 true 3 64 256 counting []))
   = map (fun sz => (sz, 1, 3 + 10)) (doubling_sizes 64 256))
  /\
  (fst (Baseline.main 2 1 0 40 true 3 64 256 counting []) = Done EXIT_SUCCESS /\
   invocations (snd (Baseline.main 2 1 0 40 true 3 64 256 counting []))
   = flat_map (fun sz => [(sz, 2, 3); (sz, 1, 3)]) (doubling_sizes 64 256))
  /\
  (forall sz, In sz (doubling_sizes 64 256) <->
              exists k, 0 <= k /\ sz = 64 * 2 ^ k /\ sz <= 256)
  /\
  (forall i j a b,
     nth_error (doubling_sizes 64 256) i = Some a ->
     nth_error (doubling_sizes 64 256) j = Some b ->
     (i < j)%nat -> a < b).
Proof.
  split; [ apply counting_cooperative | ].
  split; [ intros _; apply (counting_delivers 2 3); lia | ].
  split; [ intros _; apply (counting_delivers 1 3); lia | ].
  split; [ lia | ]. split; [ lia | ]. split; [ lia | ]. split; [ lia | ].
  split; [ lia | ]. split; [ unfold INT_MAX; lia | ]. split; [ unfold INT_MAX; lia | ].
  split; [ lia | ]. split; [ unfold INT_MAX; lia | ].
  apply (sweep_visits_doubling_sizes 2 1 0 counting [] 3 40 true 3 64 256);
    [ apply counting_cooperative
    | intros _; apply (counting_delivers 2 3); lia
    | intros _; apply (counting_delivers 1 3); lia
    | lia | lia | lia | lia | lia
    | unfold INT_MAX; lia | unfold INT_MAX; lia | lia | unfold INT_MAX; lia ].
Defined.

(** C3 as stated fails: from 64 to 256 the host-side scatter server calls the
    benchmark loop three times, once per size and each time with the latency
    multiplier, not six times. *)
Lemma sweep_visits_doubling_sizes_counterexample :
  fst (Scatter.main 1 40 false 3 64 256 (all_ok 1) []) = Done EXIT_SUCCESS /\
  invocations (snd (Scatter.main 1 40 false 3 64 256 (all_ok 1) []))
  = [(64, 1, 13); (128, 1, 13); (256, 1, 13)] /\
  List.length (invocations (snd (Scatter.main 1 40 false 3 64 256 (all_ok 1) [])))
  <> (2 * List.length (doubling_sizes 64 256))%nat.
Proof.
  split; [ vm_compute; reflexivity | ]. split; [ vm_compute; reflexivity | ].
  vm_compute. discriminate.
Qed.

(** * Further properties of the code *)

(** ** How a computation can leave *)

Lemma ends_ret {A : Type} phi (a : A) : ends phi (ret a).
Proof. intros e h. exact I. Qed.

Lemma ends_raise {A : Type} phi x : phi x = true -> ends phi (@raise A x).
Proof. intros H e h. exact H. Qed.

Lemma ends_bind {A B : Type} phi (m : M A) (f : A -> M B) :
  ends phi m -> (forall a, ends phi (f a)) -> ends phi (bind m f).
Proof.
  intros Hm Hf e h. unfold bind. specialize (Hm e h).
  destruct (m e h) as [[a | x] n1]; cbn in *; [ | exact Hm ].
  specialize (Hf a e (h ++ n1)).
  destruct (f a e (h ++ n1)) as [[b | y] n2]; cbn in *; auto.
Qed.

Lemma ends_ext phi c : ends phi (ext c).
Proof. intros e h. exact I. Qed.

Lemma ends_ext_ phi c : ends phi (ext_ c).
Proof. intros e h. exact I. Qed.

Lemma ends_emit phi ev : ends phi (emit ev).
Proof. intros e h. exact I. Qed.

Lemma ends_if {A : Type} phi (b : bool) (m1 m2 : M A) :
  ends phi m1 -> ends phi m2 -> ends phi (if b then m1 else m2).
Proof. destruct b; auto. Qed.

Lemma ends_mul_int phi a b : phi Undefined = true -> ends phi (mul_int a b).
Proof.
  intros H. unfold mul_int. apply ends_if; [ apply ends_ret | now apply ends_raise ].
Qed.

Lemma ends_for_from phi (body : Z -> M unit) :
  phi Undefined = true ->
  (forall j, ends phi (body j)) -> forall k i, ends phi (for_from k i body).
Proof.
  intros Hu Hb. induction k as [ | k IH ]; intros i; cbn [for_from].
  - apply ends_ret.
  - apply ends_bind; [ apply Hb | intros _ ].
    apply ends_bind; [ | intros _; apply IH ].
    unfold incr_int. apply ends_if; [ apply ends_ret | now apply ends_raise ].
Qed.

Lemma ends_for_int phi bound (body : Z -> M unit) :
  phi Undefined = true ->
  (forall j, ends phi (body j)) -> ends phi (for_int bound body).
Proof. intros Hu Hb. now apply ends_for_from. Qed.

Lemma ends_wait_completed phi transfers :
  phi Spin = true -> forall fuel, ends phi (wait_completed fuel transfers).
Proof.
  intros H. induction fuel as [ | fuel IH ]; cbn [wait_completed].
  - now apply ends_raise.
  - apply ends_bind; [ apply ends_ext | intros r ].
    apply ends_if; [ apply ends_ret | exact IH ].
Qed.

Lemma ends_sweep phi max_size (body : Z -> M unit) :
  phi Spin = true ->
  (forall c, ends phi (body c)) ->
  forall fuel c, ends phi (sweep fuel c max_size body).
Proof.
  intros Hs Hb. induction fuel as [ | fuel IH ]; intros c; cbn [sweep].
  - now apply ends_raise.
  - apply ends_if; [ | apply ends_ret ].
    apply ends_bind; [ apply Hb | intros _; apply IH ].
Qed.

Lemma ends_select_gpu phi d :
  phi (Throw select_msg) = true -> ends phi (select_gpu d).
Proof.
  intros H. apply ends_bind; [ apply ends_ext | intros r ].
  apply ends_if; [ apply ends_ret | now apply ends_raise ].
Qed.

Ltac ends_auto :=
  repeat first
    [ apply ends_ret
    | apply ends_raise; reflexivity
    | apply ends_mul_int; reflexivity
    | apply ends_ext_
    | apply ends_ext
    | apply ends_emit
    | apply ends_select_gpu; reflexivity
    | apply ends_wait_completed; reflexivity
    | apply ends_for_int; [ reflexivity | intros ? ]
    | apply ends_sweep; [ reflexivity | intros ? ]
    | apply ends_if
    | apply ends_bind; [ | intros ? ] ].

(** ** The read benchmark *)

Lemma read_run_bench_passive (fuel : nat) (len transfers n_runs : Z) :
  emits (fun ev => silent write_of ev && silent copy_of ev && silent poll_of ev)
    (Scatter.run_bench fuel len transfers n_runs false).
Proof.
  unfold Scatter.run_bench, Scatter.create_streams, Scatter.destroy_streams.
  emits_auto.
Qed.

Lemma read_run_bench_ends (fuel : nat) (len transfers n_runs : Z) :
  ends no_spin (Scatter.run_bench fuel len transfers n_runs false).
Proof.
  unfold Scatter.run_bench, Scatter.create_streams, Scatter.destroy_streams.
  ends_auto.
Qed.

Lemma forallb_and3 {A : Type} (f g k : A -> bool) (l : list A) :
  forallb (fun a => f a && g a && k a) l = true ->
  forallb f l = true /\ forallb g l = true /\ forallb k l = true.
Proof.
  induction l as [ | a l IH ]; cbn; [ auto | ].
  intros H. apply andb_true_iff in H as [Ha Hl].
  apply andb_true_iff in Ha as [Ha Hk]. apply andb_true_iff in Ha as [Hf Hg].
  destruct (IH Hl) as (H1 & H2 & H3). rewrite Hf, Hg, Hk, H1, H2, H3. auto.
Qed.

(** In the read benchmark the server is passive: whatever the environment, a
    call of [run_bench] submits no remote write, copies nothing to a device
    and never reads the completion count, so it cannot hang in the busy wait. *)
Theorem read_benchmark_is_passive (e : env) (h : trace) (fuel : nat)
    (len transfers n_runs : Z) :
  remote_writes (snd (Scatter.run_bench fuel len transfers n_runs false e h)) = [] /\
  copies (snd (Scatter.run_bench fuel len transfers n_runs false e h)) = [] /\
  polls (snd (Scatter.run_bench fuel len transfers n_runs false e h)) = [] /\
  fst (Scatter.run_bench fuel len transfers n_runs false e h) <> Abort Spin.
Proof.
  pose proof (read_run_bench_passive fuel len transfers n_runs e h) as Hq.
  pose proof (read_run_bench_ends fuel len transfers n_runs e h) as He.
  apply forallb_and3 in Hq as (H1 & H2 & H3).
  repeat split.
  - now apply silent_flat_map.
  - now apply silent_flat_map.
  - now apply silent_flat_map.
  - intros Hs. rewrite Hs in He. discriminate.
Qed.

(** ** The exceptions of the server *)

Lemma scatter_main_ends (N_LATENCY_REPS : Z) (fuel : nat) (operation : bool)
    (n_runs min_size max_size : Z) :
  ends known_throw (Scatter.main N_LATENCY_REPS fuel operation n_runs min_size max_size).
Proof.
  unfold Scatter.main, Scatter.sweep_bench, Scatter.run_bench, Scatter.create_streams,
    Scatter.bench_round, Scatter.fan_out, Scatter.copy_chunks, Scatter.sync_gpus,
    issue_writes, Scatter.destroy_streams.
  ends_auto.
Qed.

(** Whatever the environment, an exception that leaves [main] carries one of
    six messages: a device could not be selected, a stream or an event could
    not be created, a device could not be synchronized, or the staging buffer
    or a device buffer could not be allocated. *)
Theorem main_throws_known_messages (N_LATENCY_REPS : Z) (e : env) (h : trace)
    (fuel : nat) (operation : bool) (n_runs min_size max_size : Z) (msg : string) :
  fst (Scatter.main N_LATENCY_REPS fuel operation n_runs min_size max_size e h)
  = Abort (Throw msg) ->
  In msg [select_msg; stream_msg; event_msg; sync_msg; mem_msg; buffers_msg].
Proof.
  intros H.
  pose proof (scatter_main_ends N_LATENCY_REPS fuel operation n_runs min_size max_size e h)
    as He.
  rewrite H in He. cbn [known_throw] in He.
  apply existsb_exists in He as (m & Hin & Heq).
  apply String.eqb_eq in Heq. now subst m.
Qed.

Lemma main_throws_known_messages_witness :
  fst (Scatter.main 1 1 true 1 4096 4096 (select_fails_on 2 1) [])
  = Abort (Throw select_msg) /\
  In select_msg [select_msg; stream_msg; event_msg; sync_msg; mem_msg; buffers_msg].
Proof.
  split; [ vm_compute; reflexivity | ].
  apply (main_throws_known_messages 1 (select_fails_on 2 1) [] 1 true 1 4096 4096).
  vm_compute. reflexivity.
Defined.

(** ** Device calls that report failure *)

Section Fatal.

Variable e : env.

(** No checked device call has failed so far and, if [b], no remote write has
    been submitted. *)
Let sound (b : bool) (s : trace) : Prop :=
  fatal_msgs s = [] /\ (b = true -> remote_writes s = []).

(** An exception is the message of the failed call just made. *)
Let thrown (b : bool) (x : abort) (s : trace) : Prop :=
  match x with
  | Throw msg =>
      exists pre ev, s = pre ++ [ev] /\ fatal_of ev = Some msg /\ fatal_msgs pre = []
                     /\ (b = true -> remote_writes s = [])
  | _ => fatal_msgs s = []
  end.

Lemma sound_snoc (b : bool) (s : trace) (ev : event) :
  sound b s -> fatal_of ev = None -> (b = true -> write_of ev = []) ->
  sound b (s ++ [ev]).
Proof.
  intros [Hf Hw] Hev Hwev. unfold sound, fatal_msgs, remote_writes in *.
  rewrite !flat_map_app, Hf. cbn [flat_map app]. unfold fatal_msg_of. rewrite Hev.
  split; [ reflexivity | ].
  intros Hb. now rewrite (Hw Hb), (Hwev Hb).
Qed.

Lemma sound_thrown (b b' : bool) (x : abort) (s : trace) :
  (forall msg, x <> Throw msg) -> sound b s -> thrown b' x s.
Proof.
  intros Hx [Hf _]. destruct x as [msg | | ]; cbn; auto.
  now destruct (Hx msg).
Qed.

Lemma thrown_failed (b : bool) (s : trace) (ev : event) (msg : string) :
  sound b s -> fatal_of ev = Some msg -> write_of ev = [] ->
  thrown b (Throw msg) (s ++ [ev]).
Proof.
  intros [Hf Hw] Hev Hwev. exists s, ev. repeat split; auto.
  intros Hb. unfold remote_writes in *. rewrite flat_map_app, (Hw Hb). cbn.
  now rewrite Hwev.
Qed.

Lemma select_gpu_sound (b : bool) (d : Z) :
  triple e (sound b) (select_gpu d) (fun _ => sound b) (thrown b).
Proof.
  apply (triple_select_gpu e any_answer (any_answer_ok e)).
  - intros s Hs _. apply sound_snoc; auto.
  - intros s r Hs Hr _. apply thrown_failed; auto.
    cbn. apply Z.eqb_neq in Hr. now rewrite Hr.
Qed.

(** A device call checked against [hipSuccess]. *)
Lemma checked_sound (b : bool) (c : call) (msg : string) (k : M unit) :
  (forall r, fatal_of (Ext c r) = if r =? hipSuccess then None else Some msg) ->
  (forall r, write_of (Ext c r) = []) ->
  triple e (sound b) k (fun _ => sound b) (thrown b) ->
  triple e (sound b)
    (rc <- ext c ;; if negb (rc =? hipSuccess) then raise (Throw msg) else k)
    (fun _ => sound b) (thrown b).
Proof.
  intros Hc Hw Hk.
  apply triple_bind with
    (R := fun rc s => exists s0, s = s0 ++ [Ext c rc] /\ sound b s0).
  - apply (triple_ext e any_answer (any_answer_ok e)). eauto.
  - intros rc. apply triple_if; intros Hrc.
    + apply triple_raise. intros s (s0 & -> & Hs0).
      apply thrown_failed; auto. rewrite Hc.
      apply negb_true_iff in Hrc. now rewrite Hrc.
    + eapply triple_conseq; [ exact Hk | | auto | auto ].
      intros s (s0 & -> & Hs0). apply sound_snoc; auto.
      rewrite Hc. apply negb_false_iff in Hrc. now rewrite Hrc.
Qed.

Lemma ext__sound (b : bool) (c : call) E :
  (forall r, fatal_of (Ext c r) = None) ->
  (forall r, b = true -> write_of (Ext c r) = []) ->
  triple e (sound b) (ext_ c) (fun _ => sound b) E.
Proof.
  intros Hc Hw. apply (triple_ext_ e any_answer (any_answer_ok e)).
  intros s r Hs _. apply sound_snoc; auto.
Qed.

Lemma for_sound (b : bool) (bound : Z) (body : Z -> M unit) :
  (forall j, triple e (sound b) (body j) (fun _ => sound b) (thrown b)) ->
  triple e (sound b) (for_int bound body) (fun _ => sound b) (thrown b).
Proof.
  intros Hb. apply triple_for_inv; [ intros j _; apply Hb | ].
  intros s Hs. eapply sound_thrown; [ discriminate | exact Hs ].
Qed.

Lemma create_streams_sound (b : bool) :
  triple e (sound b) Scatter.create_streams (fun _ => sound b) (thrown b).
Proof.
  unfold Scatter.create_streams. apply for_sound. intros j.
  eapply triple_bind; [ apply select_gpu_sound | intros ? ].
  apply checked_sound; [ reflexivity | reflexivity | ].
  apply checked_sound; [ reflexivity | reflexivity | ].
  apply triple_ret. auto.
Qed.

Lemma copy_chunks_sound (b : bool) (len : Z) :
  triple e (sound b) (Scatter.copy_chunks len) (fun _ => sound b) (thrown b).
Proof.
  unfold Scatter.copy_chunks. apply for_sound. intros j.
  eapply triple_bind; [ apply select_gpu_sound | intros ? ].
  apply triple_bind with (R := fun _ => sound b).
  - apply triple_mul_int; [ auto | ].
    intros s Hs _. eapply sound_thrown; [ discriminate | exact Hs ].
  - intros idx. apply ext__sound; reflexivity.
Qed.

Lemma sync_gpus_sound (b : bool) :
  triple e (sound b) Scatter.sync_gpus (fun _ => sound b) (thrown b).
Proof.
  unfold Scatter.sync_gpus. apply for_sound. intros j.
  eapply triple_bind; [ apply select_gpu_sound | intros ? ].
  apply checked_sound; [ reflexivity | reflexivity | ].
  apply triple_ret. auto.
Qed.

Lemma issue_writes_sound (b : bool) (transfers len : Z) :
  triple e (sound b) (issue_writes transfers len) (fun _ => sound false) (thrown b).
Proof.
  unfold issue_writes.
  apply triple_conseq with (P := sound false) (Q := fun _ => sound false) (E := thrown b).
  - apply triple_for_inv.
    + intros j _. apply ext__sound; [ reflexivity | discriminate ].
    + intros s Hs. eapply sound_thrown; [ discriminate | exact Hs ].
  - intros s [Hf _]. split; [ exact Hf | discriminate ].
  - auto.
  - auto.
Qed.

Lemma bench_round_sound (b : bool) (fuel : nat) (len transfers : Z) (operation : bool) :
  triple e (sound b) (Scatter.bench_round fuel len transfers operation)
    (fun _ => sound false) (thrown b).
Proof.
  unfold Scatter.bench_round.
  eapply triple_bind; [ apply ext__sound; reflexivity | intros ? ].
  eapply triple_bind; [ apply ext__sound; reflexivity | intros ? ].
  destruct operation.
  - apply triple_bind with (R := fun _ => sound b).
    { apply (triple_wait_completed e any_answer (any_answer_ok e)).
      - intros s r Hs _. apply sound_snoc; auto.
      - intros s Hs. apply sound_snoc; auto.
      - intros s Hs. eapply sound_thrown; [ discriminate | exact Hs ]. }
    intros ?. unfold Scatter.fan_out.
    apply triple_bind with (R := fun _ => sound b).
    { eapply triple_bind; [ apply copy_chunks_sound | intros ? ]. apply sync_gpus_sound. }
    intros ?. apply issue_writes_sound.
  - apply triple_ret. intros s [Hf _]. split; [ exact Hf | discriminate ].
Qed.

Lemma destroy_streams_sound (b : bool) :
  triple e (sound b) Scatter.destroy_streams (fun _ => sound b) (thrown b).
Proof.
  unfold Scatter.destroy_streams. apply for_sound. intros j.
  eapply triple_bind; [ apply ext__sound; reflexivity | intros ? ].
  apply ext__sound; reflexivity.
Qed.

Lemma run_bench_sound (fuel : nat) (len transfers n_runs : Z) (operation : bool) :
  triple e (sound false) (Scatter.run_bench fuel len transfers n_runs operation)
    (fun _ => sound false) (thrown false).
Proof.
  unfold Scatter.run_bench.
  apply triple_bind with (R := fun _ => sound false).
  { apply triple_emit. intros s Hs. apply sound_snoc; auto. }
  intros ?.
  apply triple_bind with (R := fun _ => sound false).
  { apply triple_emit. intros s Hs. apply sound_snoc; auto. }
  intros ?.
  eapply triple_bind; [ apply create_streams_sound | intros ? ].
  apply triple_bind with (R := fun _ => sound false).
  { apply triple_for_inv.
    - intros j _. apply bench_round_sound.
    - intros s Hs. eapply sound_thrown; [ discriminate | exact Hs ]. }
  intros ?. apply destroy_streams_sound.
Qed.

End Fatal.

(** In a round, a device selection or a device synchronization that reports
    failure is the last call of the round: the round leaves with the
    exception of that call and has submitted no remote write.  The round
    throws in no other case. *)
Theorem round_throws_on_failed_call (e : env) (h : trace) (fuel : nat)
    (len transfers : Z) (operation : bool) :
  (fatal_msgs (snd (Scatter.bench_round fuel len transfers operation e h)) = [] /\
   forall msg,
     fst (Scatter.bench_round fuel len transfers operation e h) <> Abort (Throw msg))
  \/
  (exists pre ev msg,
     snd (Scatter.bench_round fuel len transfers operation e h) = pre ++ [ev] /\
     fatal_of ev = Some msg /\ fatal_msgs pre = [] /\
     fst (Scatter.bench_round fuel len transfers operation e h) = Abort (Throw msg) /\
     remote_writes (snd (Scatter.bench_round fuel len transfers operation e h)) = []).
Proof.
  pose proof (bench_round_sound e true fuel len transfers operation h []
                (conj eq_refl (fun _ => eq_refl))) as H.
  destruct (Scatter.bench_round fuel len transfers operation e h) as [[a | x] n];
    cbn [fst snd app] in *.
  - left. destruct H as [Hf _]. split; [ exact Hf | discriminate ].
  - destruct x as [msg | | ]; cbn in H.
    + right. destruct H as (pre & ev & -> & Hev & Hpre & Hw).
      exists pre, ev, msg. repeat split; auto.
    + left. split; [ exact H | discriminate ].
    + left. split; [ exact H | discriminate ].
Qed.

(** A whole call of [run_bench], stream set-up included, throws exactly when
    a device call whose result it checks has just failed, with the message of
    that call, and makes no call after it. *)
Theorem run_bench_throws_on_failed_call (e : env) (h : trace) (fuel : nat)
    (len transfers n_runs : Z) (operation : bool) :
  (fatal_msgs (snd (Scatter.run_bench fuel len transfers n_runs operation e h)) = [] /\
   forall msg,
     fst (Scatter.run_bench fuel len transfers n_runs operation e h) <> Abort (Throw msg))
  \/
  (exists pre ev msg,
     snd (Scatter.run_bench fuel len transfers n_runs operation e h) = pre ++ [ev] /\
     fatal_of ev = Some msg /\ fatal_msgs pre = [] /\
     fst (Scatter.run_bench fuel len transfers n_runs operation e h) = Abort (Throw msg)).
Proof.
  pose proof (run_bench_sound e fuel len transfers n_runs operation h []
                (conj eq_refl (fun _ => eq_refl))) as H.
  destruct (Scatter.run_bench fuel len transfers n_runs operation e h) as [[a | x] n];
    cbn [fst snd app] in *.
  - left. destruct H as [Hf _]. split; [ exact Hf | discriminate ].
  - destruct x as [msg | | ]; cbn in H.
    + right. destruct H as (pre & ev & -> & Hev & Hpre & Hw).
      exists pre, ev, msg. repeat split; auto.
    + left. split; [ exact H | discriminate ].
    + left. split; [ exact H | discriminate ].
Qed.

(** A synchronization that fails, and a stream that cannot be created. *)
Example failed_sync_throws :
  fst (Scatter.bench_round 1 4096 1 true (sync_fails 1) []) = Abort (Throw sync_msg) /\
  fatal_msgs (snd (Scatter.bench_round 1 4096 1 true (sync_fails 1) [])) = [sync_msg] /\
  remote_writes (snd (Scatter.bench_round 1 4096 1 true (sync_fails 1) [])) = [].
Proof. repeat split. Qed.

(** ** Loops counted in [nat] *)

Lemma triple_for_count (e : env) (bound : Z) (body : Z -> M unit)
    (I : nat -> trace -> Prop) E :
  (forall j, (j < Z.to_nat bound)%nat ->
     triple e (I j) (body (Z.of_nat j)) (fun _ => I (S j)) E) ->
  (forall j s, (j < Z.to_nat bound)%nat -> INT_MAX <= Z.of_nat j -> I (S j) s ->
     E Undefined s) ->
  triple e (I 0%nat) (for_int bound body) (fun _ => I (Z.to_nat bound)) E.
Proof.
  intros Hb Ho. unfold for_int.
  pose proof (triple_for_from e (Z.to_nat bound) body (fun z => I (Z.to_nat z)) E 0) as H.
  cbn beta in H.
  replace (Z.to_nat (0 + Z.of_nat (Z.to_nat bound))) with (Z.to_nat bound) in H by lia.
  change (Z.to_nat 0) with 0%nat in H. apply H.
  - intros j Hj. replace (Z.to_nat (j + 1)) with (S (Z.to_nat j)) by lia.
    specialize (Hb (Z.to_nat j)). rewrite Z2Nat.id in Hb by lia. apply Hb. lia.
  - intros j s Hj Hover HI. apply (Ho (Z.to_nat j)); [ lia | lia | ].
    replace (S (Z.to_nat j)) with (Z.to_nat (j + 1)) by lia. exact HI.
Qed.

(** ** Streams and events *)




Section Lifecycle.

Variable e : env.







End Lifecycle.


(** ** The remote writes of a write benchmark *)

Section Writes.

Variable e : env.

Lemma remote_writes_snoc (s : trace) (ev : event) :
  remote_writes (s ++ [ev]) = remote_writes s ++ write_of ev.
Proof. unfold remote_writes. rewrite flat_map_app. cbn [flat_map]. now rewrite app_nil_r. Qed.

Lemma issue_writes_count (transfers len : Z) (v : list Z) :
  triple e (fun s => remote_writes s = v) (issue_writes transfers len)
    (fun _ s => remote_writes s = v ++ repeat len (Z.to_nat transfers))
    (fun _ _ => True).
Proof.
  unfold issue_writes.
  apply triple_conseq with (P := fun s => remote_writes s = v ++ repeat len 0)
    (Q := fun _ s => remote_writes s = v ++ repeat len (Z.to_nat transfers))
    (E := fun _ _ => True).
  - apply (triple_for_count e transfers _
             (fun j s => remote_writes s = v ++ repeat len j)).
    + intros j Hj. apply (triple_ext_ e any_answer (any_answer_ok e)).
      intros s r Hs _. rewrite remote_writes_snoc, Hs. cbn [write_of repeat].
      rewrite repeat_cons, app_assoc. reflexivity.
    + auto.
  - intros s Hs. cbn. now rewrite app_nil_r.
  - auto.
  - auto.
Qed.

Lemma before_issue_silent (fuel : nat) (len transfers : Z) :
  emits (silent write_of) (wait_completed fuel transfers ;; Scatter.fan_out len).
Proof.
  unfold Scatter.fan_out, Scatter.copy_chunks, Scatter.sync_gpus. emits_auto.
Qed.

Lemma bench_round_writes (fuel : nat) (len transfers : Z) (v : list Z) :
  triple e (fun s => remote_writes s = v)
    (Scatter.bench_round fuel len transfers true)
    (fun _ s => remote_writes s = v ++ repeat len (Z.to_nat transfers))
    (fun _ _ => True).
Proof.
  unfold Scatter.bench_round, remote_writes.
  apply triple_frame_bind; [ emits_auto | intros ? ].
  apply triple_frame_bind; [ emits_auto | intros ? ].
  apply triple_frame_bind; [ emits_auto | intros ? ].
  apply triple_frame_bind;
    [ unfold Scatter.fan_out, Scatter.copy_chunks, Scatter.sync_gpus; emits_auto
    | intros ? ].
  apply issue_writes_count.
Qed.

Lemma run_bench_writes (fuel : nat) (len transfers n_runs : Z) :
  triple e (fun s => remote_writes s = [])
    (Scatter.run_bench fuel len transfers n_runs true)
    (fun _ s => remote_writes s
                = repeat len (Z.to_nat n_runs * Z.to_nat transfers))
    (fun _ _ => True).
Proof.
  unfold Scatter.run_bench, remote_writes.
  apply triple_frame_bind; [ emits_auto | intros ? ].
  apply triple_frame_bind; [ emits_auto | intros ? ].
  apply triple_frame_bind; [ unfold Scatter.create_streams; emits_auto | intros ? ].
  eapply triple_bind.
  - apply (triple_for_count e n_runs _
             (fun j s => flat_map write_of s = repeat len (j * Z.to_nat transfers))).
    + intros j Hj.
      apply triple_conseq with
        (P := fun s => remote_writes s = repeat len (j * Z.to_nat transfers))
        (Q := fun _ s => remote_writes s
                         = repeat len (j * Z.to_nat transfers)
                           ++ repeat len (Z.to_nat transfers))
        (E := fun _ _ => True); [ apply bench_round_writes | auto | | auto ].
      intros ? s Hs. unfold remote_writes in Hs. rewrite Hs, <- repeat_app.
      f_equal. lia.
    + auto.
  - intros ?. apply emits_frame; [ | auto ].
    unfold Scatter.destroy_streams. emits_auto.
Qed.

End Writes.

(** A call of [run_bench] for the write benchmark that returns has submitted
    exactly [transfers] remote writes in each of its [n_runs] rounds, every one
    of the transfer size of the call. *)
Theorem run_bench_remote_writes (e : env) (h : trace) (fuel : nat)
    (len transfers n_runs : Z) :
  fst (Scatter.run_bench fuel len transfers n_runs true e h) = Done tt ->
  remote_writes (snd (Scatter.run_bench fuel len transfers n_runs true e h))
  = repeat len (Z.to_nat n_runs * Z.to_nat transfers).
Proof.
  intros Hd.
  pose proof (run_bench_writes e fuel len transfers n_runs h [] eq_refl) as H.
  destruct (Scatter.run_bench fuel len transfers n_runs true e h) as [[a | x] n];
    cbn [fst snd app] in *; [ exact H | discriminate ].
Qed.

Lemma run_bench_remote_writes_witness :
  fst (Scatter.run_bench 1 4096 2 3 true (all_ok 2) []) = Done tt /\
  remote_writes (snd (Scatter.run_bench 1 4096 2 3 true (all_ok 2) []))
  = repeat 4096 (Z.to_nat 3 * Z.to_nat 2).
Proof.
  split; [ reflexivity | ].
  apply (run_bench_remote_writes (all_ok 2) [] 1 4096 2 3). reflexivity.
Defined.

(** ** The protocol with the peer *)

Lemma handshakes_S (k : nat) :
  handshakes (S k) = handshakes k ++ [None; Some IS_CLIENT].
Proof. unfold handshakes. rewrite seq_S, flat_map_app. reflexivity. Qed.

Lemma handshakes_add (a b : nat) :
  handshakes (a + b) = handshakes a ++ handshakes b.
Proof.
  induction b as [ | b IH ].
  - rewrite Nat.add_0_r. cbn. now rewrite app_nil_r.
  - rewrite Nat.add_succ_r, !handshakes_S, IH, app_assoc. reflexivity.
Qed.

Lemma flat_map_handshakes {A : Type} (l : list A) (k : nat) :
  flat_map (fun _ => handshakes k) l = handshakes (List.length l * k).
Proof.
  induction l as [ | a l IH ]; [ reflexivity | ].
  cbn [flat_map List.length]. rewrite IH, <- handshakes_add. reflexivity.
Qed.

Lemma protocol_snoc (s : trace) (ev : event) :
  protocol (s ++ [ev]) = protocol s ++ protocol_of ev.
Proof. unfold protocol. rewrite flat_map_app. cbn [flat_map]. now rewrite app_nil_r. Qed.

Section Protocol.

Variable e : env.

Lemma after_barrier_silent (fuel : nat) (len transfers : Z) (operation : bool) :
  emits (silent protocol_of)
    (if operation
     then wait_completed fuel transfers ;; Scatter.fan_out len ;; issue_writes transfers len
     else ret tt).
Proof.
  unfold Scatter.fan_out, Scatter.copy_chunks, Scatter.sync_gpus, issue_writes.
  emits_auto.
Qed.

(** A round, whether it ends or not, is one clearing of the flags and then
    one meeting with the peer. *)
Lemma bench_round_protocol (fuel : nat) (len transfers : Z) (operation : bool)
    (v : list (option bool)) :
  triple e (fun s => protocol s = v)
    (Scatter.bench_round fuel len transfers operation)
    (fun _ s => protocol s = v ++ [None; Some IS_CLIENT])
    (fun _ s => protocol s = v ++ [None; Some IS_CLIENT]).
Proof.
  unfold Scatter.bench_round.
  apply triple_bind with (R := fun _ s => protocol s = v ++ [None]).
  { apply (triple_ext_ e any_answer (any_answer_ok e)).
    intros s r Hs _. now rewrite protocol_snoc, Hs. }
  intros ?.
  apply triple_bind with (R := fun _ s => protocol s = v ++ [None; Some IS_CLIENT]).
  { apply (triple_ext_ e any_answer (any_answer_ok e)).
    intros s r Hs _. rewrite protocol_snoc, Hs, <- app_assoc. reflexivity. }
  intros ?. apply emits_frame; [ apply after_barrier_silent | auto ].
Qed.

Lemma run_bench_protocol (fuel : nat) (len transfers n_runs : Z) (operation : bool)
    (v : list (option bool)) :
  triple e (fun s => protocol s = v)
    (Scatter.run_bench fuel len transfers n_runs operation)
    (fun _ s => protocol s = v ++ handshakes (Z.to_nat n_runs))
    (fun _ s => exists k, (k <= Z.to_nat n_runs)%nat /\ protocol s = v ++ handshakes k).
Proof.
  unfold Scatter.run_bench.
  apply triple_bind with (R := fun _ s => protocol s = v ++ handshakes 0).
  { apply triple_emit. intros s Hs. rewrite protocol_snoc, Hs. cbn.
    now rewrite !app_nil_r. }
  intros ?.
  apply triple_bind with (R := fun _ s => protocol s = v ++ handshakes 0).
  { apply triple_emit. intros s Hs. now rewrite protocol_snoc, Hs, app_nil_r. }
  intros ?.
  apply triple_bind with (R := fun _ s => protocol s = v ++ handshakes 0).
  { apply emits_frame.
    - unfold Scatter.create_streams. emits_auto.
    - intros x s Hs. exists 0%nat. split; [ lia | exact Hs ]. }
  intros ?.
  apply triple_bind with (R := fun _ s => protocol s = v ++ handshakes (Z.to_nat n_runs)).
  { apply (triple_for_count e n_runs _ (fun j s => protocol s = v ++ handshakes j)).
    - intros j Hj.
      apply triple_conseq with
        (P := fun s => protocol s = v ++ handshakes j)
        (Q := fun _ s => protocol s = (v ++ handshakes j) ++ [None; Some IS_CLIENT])
        (E := fun _ s => protocol s = (v ++ handshakes j) ++ [None; Some IS_CLIENT]).
      + apply bench_round_protocol.
      + auto.
      + intros ? s Hs. now rewrite Hs, handshakes_S, app_assoc.
      + intros ? s Hs. exists (S j). split; [ lia | ].
        now rewrite Hs, handshakes_S, app_assoc.
    - intros j s Hj _ Hs. exists (S j). split; [ lia | exact Hs ]. }
  intros ?. apply emits_frame.
  - unfold Scatter.destroy_streams. emits_auto.
  - intros x s Hs. exists (Z.to_nat n_runs). split; [ lia | exact Hs ].
Qed.

End Protocol.

(** In any call of [run_bench] the completion flags are cleared and the peer
    met, as server, once per round and at no other time, each clearing
    followed by its meeting: [n_runs] times when the call returns, fewer when
    it is cut short. *)
Theorem run_bench_meets_peer_each_round (e : env) (h : trace) (fuel : nat)
    (len transfers n_runs : Z) (operation : bool) :
  exists k, (k <= Z.to_nat n_runs)%nat /\
    protocol (snd (Scatter.run_bench fuel len transfers n_runs operation e h))
    = handshakes k /\
    (fst (Scatter.run_bench fuel len transfers n_runs operation e h) = Done tt ->
     k = Z.to_nat n_runs).
Proof.
  pose proof (run_bench_protocol e fuel len transfers n_runs operation [] h [] eq_refl) as H.
  destruct (Scatter.run_bench fuel len transfers n_runs operation e h) as [[a | x] n];
    cbn [fst snd app] in *.
  - exists (Z.to_nat n_runs). auto.
  - destruct H as (k & Hk & Hp). exists k. repeat split; auto. discriminate.
Qed.

Section MainProtocol.

Variable N_LATENCY_REPS : Z.
Variable e : env.
Variables (fuel : nat) (operation : bool) (n_runs min_size max_size : Z).
Hypothesis min_pos : 0 < min_size.
Hypothesis min_le_max : min_size <= max_size.
Hypothesis max_small : max_size < 2 ^ 31.

Lemma scatter_main_protocol :
  triple e (fun s => protocol s = [])
    (Scatter.main N_LATENCY_REPS fuel operation n_runs min_size max_size)
    (fun _ s => protocol s
                = handshakes (List.length (doubling_sizes min_size max_size)
                              * Z.to_nat (wrap32 (n_runs + 10)))
                  ++ [Some IS_CLIENT])
    (fun _ _ => True).
Proof.
  unfold Scatter.main, protocol.
  apply triple_frame_bind; [ emits_auto | intros mem ].
  apply triple_if; intros _; [ apply triple_raise; auto | ].
  apply triple_frame_bind; [ emits_auto | intros ? ].
  apply triple_frame_bind; [ emits_auto | intros v1 ].
  apply triple_frame_bind; [ emits_auto | intros v2 ].
  apply triple_frame_bind; [ emits_auto | intros v3 ].
  apply triple_frame_bind; [ emits_auto | intros v4 ].
  apply triple_if; intros _; [ apply triple_raise; auto | ].
  apply triple_frame_bind; [ emits_auto | intros ? ].
  apply triple_bind with
    (R := fun _ s => flat_map protocol_of s
                     = handshakes (List.length (doubling_sizes min_size max_size)
                                   * Z.to_nat (wrap32 (n_runs + 10)))).
  - apply triple_conseq with
      (P := fun s => flat_map protocol_of s = [])
      (Q := fun _ s => exists k : nat,
              flat_map protocol_of s
              = [] ++ flat_map (fun _ => handshakes (Z.to_nat (wrap32 (n_runs + 10))))
                        (map (fun j => min_size * 2 ^ Z.of_nat j) (seq 0 k)) /\
              (forall j, (j < k)%nat -> min_size * 2 ^ Z.of_nat j <= max_size) /\
              max_size < min_size * 2 ^ Z.of_nat k)
      (E := fun _ _ => True).
    + unfold Scatter.sweep_bench.
      apply (sweep_collects protocol_of e
               (fun _ => handshakes (Z.to_nat (wrap32 (n_runs + 10))))); auto.
      intros c v.
      apply triple_conseq with
        (P := fun s => protocol s = v)
        (Q := fun _ s => protocol s = v ++ handshakes (Z.to_nat (wrap32 (n_runs + 10))))
        (E := fun _ s => exists k, (k <= Z.to_nat (wrap32 (n_runs + 10)))%nat
                                   /\ protocol s = v ++ handshakes k);
        [ apply run_bench_protocol | auto | auto | auto ].
    + auto.
    + intros ? s (k & Hs & Hj & Hk). cbn [app] in Hs.
      rewrite <- flat_map_handshakes.
      eapply collected_doubling; eauto.
    + auto.
  - intros ?.
    do 8 (apply triple_frame_bind; [ emits_auto | intros ? ]).
    apply triple_bind with
      (R := fun _ s => flat_map protocol_of s
                       = handshakes (List.length (doubling_sizes min_size max_size)
                                     * Z.to_nat (wrap32 (n_runs + 10)))
                         ++ [Some IS_CLIENT]).
    + apply (triple_ext_ e any_answer (any_answer_ok e)).
      intros s r Hs _. fold (protocol (s ++ [Ext (connSync IS_CLIENT) r])).
      rewrite protocol_snoc. unfold protocol. now rewrite Hs.
    + intros ?. apply triple_ret. auto.
Qed.

End MainProtocol.

(** When [main] returns from a sweep over [0 < min_size <= max_size < 2 ^ 31],
    it has met the peer, always as server, once in each of the [n_runs + 10]
    rounds of each size, after clearing the completion flags, and once more
    at the very end: the peer has to arrive at as many meetings. *)
Theorem main_meets_peer (N_LATENCY_REPS : Z) (e : env) (h : trace) (fuel : nat)
    (operation : bool) (n_runs min_size max_size r : Z) :
  0 < min_size -> min_size <= max_size -> max_size < 2 ^ 31 ->
  fst (Scatter.main N_LATENCY_REPS fuel operation n_runs min_size max_size e h) = Done r ->
  protocol (snd (Scatter.main N_LATENCY_REPS fuel operation n_runs min_size max_size e h))
  = handshakes (List.length (doubling_sizes min_size max_size)
                * Z.to_nat (wrap32 (n_runs + 10)))
    ++ [Some IS_CLIENT].
Proof.
  intros Hmin Hle Hmax Hd.
  pose proof (scatter_main_protocol N_LATENCY_REPS e fuel operation n_runs
                min_size max_size Hmin Hle Hmax h [] eq_refl) as H.
  destruct (Scatter.main _ _ _ _ _ _ e h) as [[a | x] n]; [ | discriminate ].
  exact H.
Qed.

Lemma main_meets_peer_witness :
  0 < 64 /\ 64 <= 128 /\ 128 < 2 ^ 31 /\
  fst (Scatter.main 1 40 false 0 64 128 (all_ok 1) []) = Done 0 /\
  protocol (snd (Scatter.main 1 40 false 0 64 128 (all_ok 1) []))
  = handshakes (List.length (doubling_sizes 64 128) * Z.to_nat (wrap32 (0 + 10)))
    ++ [Some IS_CLIENT].
Proof.
  split; [ lia | ]. split; [ lia | ]. split; [ lia | ].
  split; [ vm_compute; reflexivity | ].
  apply (main_meets_peer 1 (all_ok 1) [] 40 false 0 64 128 0);
    [ lia | lia | lia | vm_compute; reflexivity ].
Defined.

(** ** A stream or an event that cannot be created *)

Section StreamFailure.

Variable e : env.

(** Nothing has been said to the peer and every stream asked for was made. *)
Let fresh (s : trace) : Prop := protocol s = [] /\ stream_failures s = [].

(** If a stream or an event could not be made, that is why the call ends,
    before anything was said to the peer. *)
Let unmet (x : abort) (s : trace) : Prop :=
  stream_failures s <> [] ->
  (x = Throw stream_msg \/ x = Throw event_msg) /\ protocol s = [].

Lemma fresh_snoc (s : trace) (ev : event) :
  fresh s -> protocol_of ev = [] -> stream_failure_of ev = [] -> fresh (s ++ [ev]).
Proof.
  intros [Hp Hf] H1 H2. unfold fresh, stream_failures in *.
  rewrite protocol_snoc, flat_map_app, Hp, Hf, H1. cbn [flat_map]. now rewrite H2.
Qed.

Lemma fresh_unmet (x : abort) (s : trace) : fresh s -> unmet x s.
Proof. intros [_ Hf] Hne. contradiction. Qed.

Lemma create_checked (c : call) (msg : string) (k : M unit) :
  (forall r, protocol_of (Ext c r) = []) ->
  (forall r, (r =? hipSuccess) = true -> stream_failure_of (Ext c r) = []) ->
  msg = stream_msg \/ msg = event_msg ->
  triple e fresh k (fun _ => fresh) unmet ->
  triple e fresh
    (rc <- ext c ;; if negb (rc =? hipSuccess) then raise (Throw msg) else k)
    (fun _ => fresh) unmet.
Proof.
  intros Hp Hf Hmsg Hk.
  apply triple_bind with
    (R := fun rc s => exists s0, s = s0 ++ [Ext c rc] /\ fresh s0).
  - apply (triple_ext e any_answer (any_answer_ok e)). eauto.
  - intros rc. apply triple_if; intros Hrc.
    + apply triple_raise. intros s (s0 & -> & [Hp0 Hf0]) _.
      split; [ destruct Hmsg as [-> | ->]; auto | ].
      now rewrite protocol_snoc, Hp0, Hp.
    + eapply triple_conseq; [ exact Hk | | auto | auto ].
      intros s (s0 & -> & Hs0). apply fresh_snoc; auto.
      apply Hf. now apply negb_false_iff in Hrc.
Qed.

Lemma create_streams_fresh :
  triple e fresh Scatter.create_streams (fun _ => fresh) unmet.
Proof.
  unfold Scatter.create_streams.
  apply triple_for_inv; [ intros j _ | apply fresh_unmet ].
  apply triple_bind with (R := fun _ => fresh).
  { apply (triple_select_gpu e any_answer (any_answer_ok e)).
    - intros s Hs _. apply fresh_snoc; auto.
    - intros s r Hs _ _. apply fresh_unmet. apply fresh_snoc; auto. }
  intros ?.
  apply create_checked; [ reflexivity | | now left | ].
  { intros r Hr. cbn. now rewrite Hr. }
  apply create_checked; [ reflexivity | | now right | ].
  { intros r Hr. cbn. now rewrite Hr. }
  apply triple_ret. auto.
Qed.

Lemma after_create_silent (fuel : nat) (len transfers n_runs : Z) (operation : bool) :
  emits (silent stream_failure_of)
    (for_int n_runs (fun _ => Scatter.bench_round fuel len transfers operation) ;;
     Scatter.destroy_streams).
Proof.
  unfold Scatter.bench_round, Scatter.fan_out, Scatter.copy_chunks, Scatter.sync_gpus,
    issue_writes, Scatter.destroy_streams.
  emits_auto.
Qed.

Lemma run_bench_fresh (fuel : nat) (len transfers n_runs : Z) (operation : bool) :
  triple e fresh (Scatter.run_bench fuel len transfers n_runs operation)
    (fun _ s => stream_failures s = []) unmet.
Proof.
  unfold Scatter.run_bench.
  apply triple_bind with (R := fun _ => fresh).
  { apply triple_emit. intros s Hs. apply fresh_snoc; auto. }
  intros ?.
  apply triple_bind with (R := fun _ => fresh).
  { apply triple_emit. intros s Hs. apply fresh_snoc; auto. }
  intros ?.
  eapply triple_bind; [ apply create_streams_fresh | intros ? ].
  eapply triple_conseq.
  - apply (emits_frame stream_failure_of _ e [] unmet).
    + apply after_create_silent.
    + intros x s Hs Hne. contradiction.
  - intros s [_ Hf]. exact Hf.
  - auto.
  - auto.
Qed.

End StreamFailure.

(** If a stream or an event cannot be created, [run_bench] throws for that
    reason before its first round: the completion flags are not cleared and
    the peer, which waits at its own barrier, is never met. *)
Theorem stream_failure_precedes_rounds (e : env) (h : trace) (fuel : nat)
    (len transfers n_runs : Z) (operation : bool) :
  stream_failures (snd (Scatter.run_bench fuel len transfers n_runs operation e h)) <> [] ->
  (fst (Scatter.run_bench fuel len transfers n_runs operation e h)
   = Abort (Throw stream_msg) \/
   fst (Scatter.run_bench fuel len transfers n_runs operation e h)
   = Abort (Throw event_msg)) /\
  protocol (snd (Scatter.run_bench fuel len transfers n_runs operation e h)) = [].
Proof.
  intros Hne.
  pose proof (run_bench_fresh e fuel len transfers n_runs operation h []
                (conj eq_refl eq_refl)) as H.
  destruct (Scatter.run_bench fuel len transfers n_runs operation e h) as [[a | x] n];
    cbn [fst snd app] in *.
  - contradiction.
  - destruct (H Hne) as [[-> | ->] Hp]; auto.
Qed.

Lemma stream_failure_precedes_rounds_witness :
  stream_failures (snd (Scatter.run_bench 1 4096 1 3 true (stream_fails_on 1 1) [])) <> [] /\
  (fst (Scatter.run_bench 1 4096 1 3 true (stream_fails_on 1 1) [])
   = Abort (Throw stream_msg) \/
   fst (Scatter.run_bench 1 4096 1 3 true (stream_fails_on 1 1) [])
   = Abort (Throw event_msg)) /\
  protocol (snd (Scatter.run_bench 1 4096 1 3 true (stream_fails_on 1 1) [])) = [].
Proof.
  split; [ discriminate | ].
  apply (stream_failure_precedes_rounds (stream_fails_on 1 1) [] 1 4096 1 3 true).
  discriminate.
Defined.

(** ** A completion count that never equals the quota *)

Lemma bind_abort {A B : Type} (m : M A) (f : A -> M B) (e : env) (h : trace)
    (x : abort) (n : trace) :
  m e h = (Abort x, n) -> bind m f e h = (Abort x, n).
Proof. intros H. unfold bind. now rewrite H. Qed.

Lemma bind_done {A B : Type} (m : M A) (f : A -> M B) (e : env) (h : trace)
    (a : A) (n : trace) :
  m e h = (Done a, n) ->
  bind m f e h = (fst (f a e (h ++ n)), n ++ snd (f a e (h ++ n))).
Proof. intros H. unfold bind. rewrite H. now destruct (f a e (h ++ n)). Qed.

(** The busy wait compares with [!=]: a count that is never equal to the
    quota, be it larger, keeps the loop running for any amount of fuel. *)
Lemma wait_completed_spins (e : env) (transfers : Z) :
  (forall h, e h (checkCompleted LOCAL_WRITE) <> transfers) ->
  forall fuel h,
    fst (wait_completed fuel transfers e h) = Abort Spin /\
    List.length (polls (snd (wait_completed fuel transfers e h))) = fuel /\
    copies (snd (wait_completed fuel transfers e h)) = [] /\
    remote_writes (snd (wait_completed fuel transfers e h)) = [].
Proof.
  intros He. induction fuel as [ | fuel IH ]; intros h.
  - cbn. auto.
  - rewrite wait_completed_unfold. cbn zeta.
    destruct (Z.eqb_spec (e h (checkCompleted LOCAL_WRITE)) transfers) as [Heq | _].
    + now destruct (He h).
    + specialize (IH (h ++ [Ext (checkCompleted LOCAL_WRITE)
                              (e h (checkCompleted LOCAL_WRITE))])).
      destruct (wait_completed fuel transfers e _) as [o n]. cbn [fst snd] in *.
      destruct IH as (Ho & Hl & Hc & Hw). repeat split; auto.
      unfold polls in *. cbn. now rewrite Hl.
Qed.

(** If the completion count never reads equal to the quota, a write round
    stays in its busy wait however long it is let run: it reads the count
    again and again, and neither copies anything nor submits a remote write. *)
Theorem round_waits_for_exact_count (e : env) (h : trace) (fuel : nat)
    (len transfers : Z) :
  (forall h', e h' (checkCompleted LOCAL_WRITE) <> transfers) ->
  fst (Scatter.bench_round fuel len transfers true e h) = Abort Spin /\
  List.length (polls (snd (Scatter.bench_round fuel len transfers true e h))) = fuel /\
  copies (snd (Scatter.bench_round fuel len transfers true e h)) = [] /\
  remote_writes (snd (Scatter.bench_round fuel len transfers true e h)) = [].
Proof.
  intros He. unfold Scatter.bench_round.
  rewrite (bind_done _ _ e h tt [Ext clearCompleted (e h clearCompleted)]) by reflexivity.
  set (h1 := h ++ [Ext clearCompleted (e h clearCompleted)]).
  rewrite (bind_done _ _ e h1 tt [Ext (connSync IS_CLIENT) (e h1 (connSync IS_CLIENT))])
    by reflexivity.
  set (h2 := h1 ++ [Ext (connSync IS_CLIENT) (e h1 (connSync IS_CLIENT))]).
  destruct (wait_completed_spins e transfers He fuel h2) as (Ho & Hl & Hc & Hw).
  destruct (wait_completed fuel transfers e h2) as [o n] eqn:Hwait.
  cbn [fst snd] in *. subst o.
  rewrite (bind_abort _ _ e h2 Spin n Hwait). cbn [fst snd].
  unfold polls, copies, remote_writes in *.
  rewrite !flat_map_app. cbn [flat_map poll_of copy_of write_of app].
  rewrite Hl, Hc, Hw. auto.
Qed.

Lemma round_waits_for_exact_count_witness :
  (forall h', all_ok 5 h' (checkCompleted LOCAL_WRITE) <> 2) /\
  fst (Scatter.bench_round 7 4096 2 true (all_ok 5) []) = Abort Spin /\
  List.length (polls (snd (Scatter.bench_round 7 4096 2 true (all_ok 5) []))) = 7%nat /\
  copies (snd (Scatter.bench_round 7 4096 2 true (all_ok 5) [])) = [] /\
  remote_writes (snd (Scatter.bench_round 7 4096 2 true (all_ok 5) [])) = [].
Proof.
  split; [ intros h'; discriminate | ].
  apply (round_waits_for_exact_count (all_ok 5) [] 7 4096 2).
  intros h'. discriminate.
Defined.

(** ** A sweep that wraps around *)

Lemma sweep_sizes_power_of_two (max_size : Z) :
  2 ^ 31 <= max_size ->
  forall fuel k, 0 <= k <= 31 -> sweep_sizes fuel (2 ^ k) max_size = None.
Proof.
  intros Hmax. induction fuel as [ | fuel IH ]; intros k Hk; [ reflexivity | ].
  cbn [sweep_sizes].
  assert (Hle : 2 ^ k <= 2 ^ 31) by (apply Z.pow_le_mono_r; lia).
  destruct (Z.leb_spec (2 ^ k) max_size) as [ _ | Hgt ]; [ | lia ].
  destruct (Z.eq_dec k 31) as [-> | Hne].
  - change (wrap32 (2 ^ 31 * 2)) with 0. rewrite sweep_sizes_zero by lia. reflexivity.
  - replace (2 ^ k * 2) with (2 ^ (k + 1)) by (rewrite Z.pow_add_r by lia; lia).
    assert (2 ^ (k + 1) <= 2 ^ 31) by (apply Z.pow_le_mono_r; lia).
    assert (0 < 2 ^ (k + 1)) by (apply Z.pow_pos_nonneg; lia).
    rewrite wrap32_small by lia. rewrite IH by lia. reflexivity.
Qed.

Lemma sweep_from_power_of_two (e : env) (fuel : nat) (max_size : Z) (body : Z -> M unit)
    (k : Z) :
  2 ^ 31 <= max_size -> 0 <= k <= 31 ->
  triple e (fun _ => True) (sweep fuel (2 ^ k) max_size body)
    (fun _ _ => False) (fun _ _ => True).
Proof.
  intros Hmax Hk.
  pose (I := fun (c : Z) (_ : trace) => c = 0 \/ exists j, 0 <= j <= 31 /\ c = 2 ^ j).
  assert (H : triple e (I (2 ^ k)) (sweep fuel (2 ^ k) max_size body)
                (fun _ _ => False) (fun _ _ => True)).
  { apply (triple_sweep e fuel max_size body I).
    - intros c Hc h s Hi. destruct (body c e h) as [[a | x] n]; [ | exact Logic.I ].
      unfold I in *. destruct Hi as [-> | (j & Hj & ->)].
      + left. reflexivity.
      + destruct (Z.eq_dec j 31) as [-> | Hne]; [ left; reflexivity | right ].
        exists (j + 1). split; [ lia | ].
        assert (2 ^ (j + 1) <= 2 ^ 31) by (apply Z.pow_le_mono_r; lia).
        assert (0 < 2 ^ (j + 1)) by (apply Z.pow_pos_nonneg; lia).
        replace (2 ^ j * 2) with (2 ^ (j + 1)) by (rewrite Z.pow_add_r by lia; lia).
        apply wrap32_small. lia.
    - intros c s Hc Hi. unfold I in Hi. destruct Hi as [-> | (j & Hj & ->)]; [ lia | ].
      assert (2 ^ j <= 2 ^ 31) by (apply Z.pow_le_mono_r; lia). lia.
    - auto. }
  intros h s _. apply (H h s). right. exists k. auto.
Qed.

(** With [max_size] at [2 ^ 31] or above and [min_size] a power of two, the
    size doubles up to [2 ^ 31], wraps around to 0 and stays there: the sweep
    has no end and [main] never returns, whatever the environment. *)
Theorem sweep_wraps_around (N_LATENCY_REPS : Z) (e : env) (h : trace) (fuel : nat)
    (operation : bool) (n_runs max_size k r : Z) :
  0 <= k <= 31 -> 2 ^ 31 <= max_size ->
  sweep_sizes fuel (2 ^ k) max_size = None /\
  fst (Scatter.main N_LATENCY_REPS fuel operation n_runs (2 ^ k) max_size e h) <> Done r.
Proof.
  intros Hk Hmax. split; [ now apply sweep_sizes_power_of_two | ].
  assert (Hm : triple e (fun _ => True)
                 (Scatter.main N_LATENCY_REPS fuel operation n_runs (2 ^ k) max_size)
                 (fun _ _ => False) (fun _ _ => True)).
  { unfold Scatter.main, Scatter.sweep_bench.
    eapply triple_bind; [ apply triple_any | intros mem ].
    apply triple_if; intros _; [ apply triple_raise; auto | ].
    eapply triple_bind; [ apply triple_any | intros ? ].
    eapply triple_bind; [ apply triple_any | intros v1 ].
    eapply triple_bind; [ apply triple_any | intros v2 ].
    eapply triple_bind; [ apply triple_any | intros v3 ].
    eapply triple_bind; [ apply triple_any | intros v4 ].
    apply triple_if; intros _; [ apply triple_raise; auto | ].
    eapply triple_bind; [ apply triple_any | intros ? ].
    eapply triple_bind with (R := fun _ _ => False).
    - now apply sweep_from_power_of_two.
    - intros ? ? ? []. }
  specialize (Hm h [] I).
  destruct (Scatter.main N_LATENCY_REPS fuel operation n_runs (2 ^ k) max_size e h)
    as [[a | x] n]; [ destruct Hm | discriminate ].
Qed.

Lemma sweep_wraps_around_witness :
  0 <= 6 <= 31 /\ 2 ^ 31 <= 2 ^ 31 /\
  sweep_sizes 100 (2 ^ 6) (2 ^ 31) = None /\
  fst (Scatter.main 1 100 false 0 (2 ^ 6) (2 ^ 31) (all_ok 1) []) <> Done 0.
Proof.
  split; [ lia | ]. split; [ lia | ].
  apply (sweep_wraps_around 1 (all_ok 1) [] 100 false 0 (2 ^ 31) 6 0); lia.
Defined.

(** ** What the copies read *)

(** From two chunks on, the last copy of a fan-out that returns reads the
    host buffer beyond the [len] bytes of the transfer: it ends at byte
    [16384 * (len / 4096) - 12288]. *)
Theorem fan_out_reads_past_region (e : env) (h : trace) (len : Z) :
  4096 <= len < 2 ^ 32 ->
  fst (Scatter.fan_out len e h) = Done tt ->
  exists c, In c (copies (snd (Scatter.fan_out len e h))) /\
            src_off c + nbytes c = 16384 * (len / 4096) - 12288 /\
            (8192 <= len -> len < src_off c + nbytes c).
Proof.
  intros Hlen Hdone.
  destruct (fan_out_run e h len) as (k & Hk & Hd & Hc); [ lia | ].
  specialize (Hd Hdone). subst k.
  assert (Hq : 1 <= len / 4096) by (apply Z.div_le_lower_bound; lia).
  exists (chunk_copy (len / 4096 - 1)). split; [ | split ].
  - rewrite Hc. apply (nth_error_In _ (Z.to_nat (len / 4096 - 1))).
    apply nth_error_chunk_copies. lia.
  - unfold chunk_copy, sizeof_int. cbn [src_off nbytes]. lia.
  - intros H8. unfold chunk_copy, sizeof_int. cbn [src_off nbytes].
    pose proof (Z.mul_succ_div_gt len 4096 ltac:(lia)).
    assert (2 <= len / 4096) by (apply Z.div_le_lower_bound; lia).
    lia.
Qed.

Lemma fan_out_reads_past_region_witness :
  4096 <= 8192 < 2 ^ 32 /\
  fst (Scatter.fan_out 8192 (all_ok 1) []) = Done tt /\
  exists c, In c (copies (snd (Scatter.fan_out 8192 (all_ok 1) []))) /\
            src_off c + nbytes c = 16384 * (8192 / 4096) - 12288 /\
            (8192 <= 8192 -> 8192 < src_off c + nbytes c).
Proof.
  split; [ lia | ]. split; [ reflexivity | ].
  apply (fan_out_reads_past_region (all_ok 1) [] 8192); [ lia | reflexivity ].
Defined.

(** ** Setting memory up and tearing it down *)

Lemma forallb_flat_map {X : Type} (f : event -> list X) (psi : X -> bool) (n : trace) :
  forallb (fun ev => forallb psi (f ev)) n = true ->
  forallb psi (flat_map f n) = true.
Proof.
  induction n as [ | ev n IH ]; cbn; [ reflexivity | ].
  intros H. apply andb_true_iff in H as [Hev Hn].
  rewrite forallb_app, Hev. now apply IH.
Qed.

Lemma forallb_and (phi psi : event -> bool) (n : trace) :
  forallb (fun ev => phi ev && psi ev) n = true ->
  forallb phi n = true /\ forallb psi n = true.
Proof.
  induction n as [ | ev n IH ]; cbn; [ auto | ].
  intros H. apply andb_true_iff in H as [Hev Hn].
  apply andb_true_iff in Hev as [-> ->]. destruct (IH Hn) as [-> ->]. auto.
Qed.

Section Setup.

Variable e : env.

(** No allocation so far returned null; the set-up log is [L], then
    benchmark calls only, then [T]. *)
Let laid (L T : list event) (s : trace) : Prop :=
  null_allocs s = [] /\
  exists mid, setup_log s = L ++ mid ++ T /\ forallb is_enter mid = true.

Lemma laid_frame {A : Type} (m : M A) (L T : list event) :
  emits (fun ev => silent null_of ev && silent setup_of ev) m ->
  triple e (laid L T) m (fun _ => laid L T) (fun _ => laid L T).
Proof.
  intros Hm h s [Hn (mid & Hl & Hmid)]. specialize (Hm e h).
  assert (H : laid L T (s ++ snd (m e h))).
  { apply forallb_and in Hm as [H1 H2]. split.
    - unfold null_allocs in *. now rewrite flat_map_app, (silent_flat_map _ _ H1), app_nil_r.
    - exists mid. split; [ | exact Hmid ].
      unfold setup_log in *. now rewrite flat_map_app, (silent_flat_map _ _ H2), app_nil_r. }
  destruct (m e h) as [[a | x] n]; exact H.
Qed.

Lemma laid_benchmarks {A : Type} (m : M A) (L : list event) :
  emits (fun ev => silent null_of ev && forallb is_enter (setup_of ev)) m ->
  triple e (laid L []) m (fun _ => laid L []) (fun _ => laid L []).
Proof.
  intros Hm h s [Hn (mid & Hl & Hmid)]. specialize (Hm e h).
  assert (H : laid L [] (s ++ snd (m e h))).
  { apply forallb_and in Hm as [H1 H2]. split.
    - unfold null_allocs in *. now rewrite flat_map_app, (silent_flat_map _ _ H1), app_nil_r.
    - exists (mid ++ setup_log (snd (m e h))). split.
      + unfold setup_log in *. rewrite flat_map_app, Hl, !app_nil_r. now rewrite app_assoc.
      + rewrite forallb_app, Hmid. now apply forallb_flat_map. }
  destruct (m e h) as [[a | x] n]; exact H.
Qed.

Lemma laid_free (L T : list event) (k : Z) :
  triple e (laid L T) (ext_ (hipFree k))
    (fun _ => laid L (T ++ [Ext (hipFree k) 0])) (fun _ => laid L T).
Proof.
  apply (triple_ext_ e any_answer (any_answer_ok e)).
  intros s r [Hn (mid & Hl & Hmid)] _. split.
  - unfold null_allocs in *. rewrite flat_map_app, Hn. reflexivity.
  - exists mid. split; [ | exact Hmid ].
    unfold setup_log in *. rewrite flat_map_app, Hl. cbn [flat_map setup_of app].
    now rewrite <- !app_assoc.
Qed.

Lemma laid_null {A : Type} (m : M A) (P : trace -> Prop) Q (L T : list event) :
  triple e P m Q (fun _ => laid L T) ->
  triple e P m Q (fun _ s => null_allocs s = []).
Proof.
  intros H. apply triple_conseq with (P := P) (Q := Q) (E := fun _ => laid L T); auto.
  intros x s [Hn _]. exact Hn.
Qed.

Lemma scatter_benchmarks_laid (N_LATENCY_REPS : Z) (fuel : nat) (operation : bool)
    (n_runs min_size max_size : Z) :
  emits (fun ev => silent null_of ev && forallb is_enter (setup_of ev))
    (Scatter.sweep_bench N_LATENCY_REPS fuel operation n_runs min_size max_size).
Proof.
  unfold Scatter.sweep_bench, Scatter.run_bench, Scatter.create_streams,
    Scatter.bench_round, Scatter.fan_out, Scatter.copy_chunks, Scatter.sync_gpus,
    issue_writes, Scatter.destroy_streams.
  emits_auto.
Qed.

Lemma baseline_benchmarks_laid (N_THROUGHPUT_REPS N_LATENCY_REPS : Z) (fuel : nat)
    (operation : bool) (n_runs min_size max_size : Z) :
  emits (fun ev => silent null_of ev && forallb is_enter (setup_of ev))
    (Baseline.sweep_bench N_THROUGHPUT_REPS N_LATENCY_REPS fuel operation
       n_runs min_size max_size).
Proof.
  unfold Baseline.sweep_bench, Baseline.run_bench, Baseline.bench_round, issue_writes.
  emits_auto.
Qed.

(** How [Scatter.main] ends when an allocation returned null. *)
Let stopped (max_size : Z) (x : abort) (s : trace) : Prop :=
  (s = [Ext (initRDMA max_size) 0] /\ x = Throw mem_msg) \/
  (exists p v1 v2 v3 v4,
     p <> 0 /\
     s = [Ext (initRDMA max_size) p; Ext (hipSetDevice 0) 0;
          Ext (getMem max_size 0) v1; Ext (getMem max_size 1) v2;
          Ext (getMem max_size 2) v3; Ext (getMem max_size 3) v4] /\
     x = Throw buffers_msg).

(** What the set-up log of [Scatter.main] is when it returns. *)
Let torn_down (max_size : Z) (r : Z) (s : trace) : Prop :=
  r = EXIT_SUCCESS /\
  exists p v1 v2 v3 v4 mid,
    p <> 0 /\ v1 <> 0 /\ v2 <> 0 /\ v3 <> 0 /\ v4 <> 0 /\
    setup_log s
    = [Ext (initRDMA max_size) p;
       Ext (getMem max_size 0) v1; Ext (getMem max_size 1) v2;
       Ext (getMem max_size 2) v3; Ext (getMem max_size 3) v4]
      ++ mid
      ++ [Ext (hipFree 0) 0; Ext (hipFree 1) 0; Ext (hipFree 2) 0; Ext (hipFree 3) 0] /\
    forallb is_enter mid = true.

Lemma scatter_main_setup (N_LATENCY_REPS : Z) (fuel : nat) (operation : bool)
    (n_runs min_size max_size : Z) :
  triple e (fun s => s = [])
    (Scatter.main N_LATENCY_REPS fuel operation n_runs min_size max_size)
    (fun r s => null_allocs s = [] /\ torn_down max_size r s)
    (fun x s => null_allocs s <> [] -> stopped max_size x s).
Proof.
  unfold Scatter.main.
  apply triple_bind with (R := fun mem s => s = [Ext (initRDMA max_size) mem]).
  { apply (triple_ext e any_answer (any_answer_ok e)). intros s r -> _. reflexivity. }
  intros p. apply triple_if; intros Hp.
  { apply triple_raise. intros s -> _. left. apply Z.eqb_eq in Hp. subst p. auto. }
  apply triple_bind with
    (R := fun _ s => s = [Ext (initRDMA max_size) p; Ext (hipSetDevice 0) 0]).
  { apply (triple_select_gpu e any_answer (any_answer_ok e)).
    - intros s -> _. reflexivity.
    - intros s r -> _ _ Hnull. exfalso. apply Hnull.
      cbn. now rewrite Hp. }
  intros ?.
  apply triple_bind with
    (R := fun v1 s => s = [Ext (initRDMA max_size) p; Ext (hipSetDevice 0) 0;
                           Ext (getMem max_size 0) v1]).
  { apply (triple_ext e any_answer (any_answer_ok e)). intros s r -> _. reflexivity. }
  intros v1.
  apply triple_bind with
    (R := fun v2 s => s = [Ext (initRDMA max_size) p; Ext (hipSetDevice 0) 0;
                           Ext (getMem max_size 0) v1; Ext (getMem max_size 1) v2]).
  { apply (triple_ext e any_answer (any_answer_ok e)). intros s r -> _. reflexivity. }
  intros v2.
  apply triple_bind with
    (R := fun v3 s => s = [Ext (initRDMA max_size) p; Ext (hipSetDevice 0) 0;
                           Ext (getMem max_size 0) v1; Ext (getMem max_size 1) v2;
                           Ext (getMem max_size 2) v3]).
  { apply (triple_ext e any_answer (any_answer_ok e)). intros s r -> _. reflexivity. }
  intros v3.
  apply triple_bind with
    (R := fun v4 s => s = [Ext (initRDMA max_size) p; Ext (hipSetDevice 0) 0;
                           Ext (getMem max_size 0) v1; Ext (getMem max_size 1) v2;
                           Ext (getMem max_size 2) v3; Ext (getMem max_size 3) v4]).
  { apply (triple_ext e any_answer (any_answer_ok e)). intros s r -> _. reflexivity. }
  intros v4. apply triple_if; intros Hv.
  { apply triple_raise. intros s -> _. right. exists p, v1, v2, v3, v4.
    apply Z.eqb_neq in Hp. auto. }
  apply orb_false_iff in Hv as [Hv H4]. apply orb_false_iff in Hv as [Hv H3].
  apply orb_false_iff in Hv as [H1 H2].
  pose (L := [Ext (initRDMA max_size) p;
              Ext (getMem max_size 0) v1; Ext (getMem max_size 1) v2;
              Ext (getMem max_size 2) v3; Ext (getMem max_size 3) v4]).
  apply triple_conseq with
    (P := laid L [])
    (Q := fun r s => r = EXIT_SUCCESS /\
            laid L [Ext (hipFree 0) 0; Ext (hipFree 1) 0;
                    Ext (hipFree 2) 0; Ext (hipFree 3) 0] s)
    (E := fun _ s => null_allocs s = []).
  - assert (Hsel : forall d T, triple e (laid L T) (select_gpu d)
                     (fun _ => laid L T) (fun _ s => null_allocs s = [])).
    { intros d T. apply (laid_null _ _ _ L T).
      apply (laid_frame (select_gpu d) L T). emits_auto. }
    assert (Hfree : forall k T, triple e (laid L T) (ext_ (hipFree k))
                      (fun _ => laid L (T ++ [Ext (hipFree k) 0]))
                      (fun _ s => null_allocs s = [])).
    { intros k T. apply (laid_null _ _ _ L T). apply (laid_free L T k). }
    eapply triple_bind; [ apply (Hsel 0 []) | intros ? ].
    apply triple_bind with (R := fun _ => laid L []).
    { apply (laid_null _ _ _ L []).
      apply (laid_benchmarks _ L). apply scatter_benchmarks_laid. }
    intros ?.
    eapply triple_bind; [ apply (Hsel 0 []) | intros ? ].
    eapply triple_bind; [ apply (Hfree 0 []) | intros ? ].
    eapply triple_bind; [ apply (Hsel 1) | intros ? ].
    eapply triple_bind; [ apply (Hfree 1) | intros ? ].
    eapply triple_bind; [ apply (Hsel 2) | intros ? ].
    eapply triple_bind; [ apply (Hfree 2) | intros ? ].
    eapply triple_bind; [ apply (Hsel 3) | intros ? ].
    eapply triple_bind; [ apply (Hfree 3) | intros ? ].
    apply triple_bind with
      (R := fun _ => laid L [Ext (hipFree 0) 0; Ext (hipFree 1) 0;
                             Ext (hipFree 2) 0; Ext (hipFree 3) 0]).
    { apply (laid_null _ _ _ L [Ext (hipFree 0) 0; Ext (hipFree 1) 0;
                                Ext (hipFree 2) 0; Ext (hipFree 3) 0]).
      apply (laid_frame (ext_ (connSync IS_CLIENT)) L). emits_auto. }
    intros ?. apply triple_ret. auto.
  - intros s ->. split.
    + cbn. now rewrite Hp, H1, H2, H3, H4.
    + exists []. split; reflexivity.
  - intros r s [-> [Hn (mid & Hl & Hmid)]]. split; [ exact Hn | ].
    split; [ reflexivity | ].
    exists p, v1, v2, v3, v4, mid.
    apply Z.eqb_neq in Hp, H1, H2, H3, H4. repeat split; auto.
  - intros x s Hn Hne. contradiction.
Qed.

(** No allocation returned null and the set-up log is exactly [L]. *)
Let logged (L : list event) (s : trace) : Prop :=
  null_allocs s = [] /\ setup_log s = L.

Lemma logged_csr (L : list event) (v k : Z) E :
  triple e (logged L) (ext_ (setCSR v k))
    (fun _ => logged (L ++ [Ext (setCSR v k) 0])) E.
Proof.
  apply (triple_ext_ e any_answer (any_answer_ok e)).
  intros s r [Hn Hl] _. split.
  - unfold null_allocs in *. rewrite flat_map_app, Hn. reflexivity.
  - unfold setup_log in *. rewrite flat_map_app, Hl. reflexivity.
Qed.

(** What the set-up log of [Baseline.main] is once the registers are
    written. *)
Let programmed (DEFAULT_GPU_ID max_size : Z) (s : trace) : Prop :=
  exists p v1 v2 v3 v4 mid,
    p <> 0 /\ v1 <> 0 /\ v2 <> 0 /\ v3 <> 0 /\ v4 <> 0 /\
    setup_log s
    = [Ext (initRDMA max_size) p;
       Ext (getMem max_size DEFAULT_GPU_ID) v1;
       Ext (getMem max_size DEFAULT_GPU_ID) v2;
       Ext (getMem max_size DEFAULT_GPU_ID) v3;
       Ext (getMem max_size DEFAULT_GPU_ID) v4;
       Ext (setCSR v1 (Baseline.reg_index Baseline.VADDR_1)) 0;
       Ext (setCSR v2 (Baseline.reg_index Baseline.VADDR_2)) 0;
       Ext (setCSR v3 (Baseline.reg_index Baseline.VADDR_3)) 0;
       Ext (setCSR v4 (Baseline.reg_index Baseline.VADDR_4)) 0;
       Ext (setCSR 1 (Baseline.reg_index Baseline.VADDR_VALID)) 0]
      ++ mid /\
    forallb is_enter mid = true.

Lemma baseline_main_setup (N_THROUGHPUT_REPS N_LATENCY_REPS DEFAULT_GPU_ID : Z)
    (fuel : nat) (operation : bool) (n_runs min_size max_size : Z) :
  triple e (fun s => s = [])
    (Baseline.main N_THROUGHPUT_REPS N_LATENCY_REPS DEFAULT_GPU_ID
       fuel operation n_runs min_size max_size)
    (fun _ s => programmed DEFAULT_GPU_ID max_size s)
    (fun _ s => null_allocs s = [] -> failed_selects s = [] ->
                programmed DEFAULT_GPU_ID max_size s).
Proof.
  unfold Baseline.main.
  apply triple_bind with (R := fun mem s => s = [Ext (initRDMA max_size) mem]).
  { apply (triple_ext e any_answer (any_answer_ok e)). intros s r -> _. reflexivity. }
  intros p. apply triple_if; intros Hp.
  { apply triple_raise. intros s -> Hnull _. exfalso. revert Hnull.
    cbn. rewrite Hp. discriminate. }
  apply triple_bind with
    (R := fun _ s => s = [Ext (initRDMA max_size) p; Ext (hipSetDevice DEFAULT_GPU_ID) 0]).
  { apply (triple_select_gpu e any_answer (any_answer_ok e)).
    - intros s -> _. reflexivity.
    - intros s r -> Hr _ _ Hsel. exfalso. revert Hsel.
      cbn. apply Z.eqb_neq in Hr. rewrite Hr. discriminate. }
  intros ?.
  apply triple_bind with
    (R := fun v1 s => s = [Ext (initRDMA max_size) p; Ext (hipSetDevice DEFAULT_GPU_ID) 0;
                           Ext (getMem max_size DEFAULT_GPU_ID) v1]).
  { apply (triple_ext e any_answer (any_answer_ok e)). intros s r -> _. reflexivity. }
  intros v1.
  apply triple_bind with
    (R := fun v2 s => s = [Ext (initRDMA max_size) p; Ext (hipSetDevice DEFAULT_GPU_ID) 0;
                           Ext (getMem max_size DEFAULT_GPU_ID) v1;
                           Ext (getMem max_size DEFAULT_GPU_ID) v2]).
  { apply (triple_ext e any_answer (any_answer_ok e)). intros s r -> _. reflexivity. }
  intros v2.
  apply triple_bind with
    (R := fun v3 s => s = [Ext (initRDMA max_size) p; Ext (hipSetDevice DEFAULT_GPU_ID) 0;
                           Ext (getMem max_size DEFAULT_GPU_ID) v1;
                           Ext (getMem max_size DEFAULT_GPU_ID) v2;
                           Ext (getMem max_size DEFAULT_GPU_ID) v3]).
  { apply (triple_ext e any_answer (any_answer_ok e)). intros s r -> _. reflexivity. }
  intros v3.
  apply triple_bind with
    (R := fun v4 s => s = [Ext (initRDMA max_size) p; Ext (hipSetDevice DEFAULT_GPU_ID) 0;
                           Ext (getMem max_size DEFAULT_GPU_ID) v1;
                           Ext (getMem max_size DEFAULT_GPU_ID) v2;
                           Ext (getMem max_size DEFAULT_GPU_ID) v3;
                           Ext (getMem max_size DEFAULT_GPU_ID) v4]).
  { apply (triple_ext e any_answer (any_answer_ok e)). intros s r -> _. reflexivity. }
  intros v4. apply triple_if; intros Hv.
  { apply triple_raise. intros s -> Hnull _. exfalso. revert Hnull.
    cbn. rewrite Hp.
    destruct (v1 =? 0); [ discriminate | ]. destruct (v2 =? 0); [ discriminate | ].
    destruct (v3 =? 0); [ discriminate | ]. destruct (v4 =? 0); discriminate. }
  apply orb_false_iff in Hv as [Hv H4]. apply orb_false_iff in Hv as [Hv H3].
  apply orb_false_iff in Hv as [H1 H2].
  pose (L0 := [Ext (initRDMA max_size) p;
               Ext (getMem max_size DEFAULT_GPU_ID) v1;
               Ext (getMem max_size DEFAULT_GPU_ID) v2;
               Ext (getMem max_size DEFAULT_GPU_ID) v3;
               Ext (getMem max_size DEFAULT_GPU_ID) v4]).
  pose (L := L0 ++ [Ext (setCSR v1 (Baseline.reg_index Baseline.VADDR_1)) 0;
                    Ext (setCSR v2 (Baseline.reg_index Baseline.VADDR_2)) 0;
                    Ext (setCSR v3 (Baseline.reg_index Baseline.VADDR_3)) 0;
                    Ext (setCSR v4 (Baseline.reg_index Baseline.VADDR_4)) 0;
                    Ext (setCSR 1 (Baseline.reg_index Baseline.VADDR_VALID)) 0]).
  assert (Hend : forall s, laid L [] s -> programmed DEFAULT_GPU_ID max_size s).
  { intros s [_ (mid & Hl & Hmid)]. exists p, v1, v2, v3, v4, mid.
    apply Z.eqb_neq in Hp, H1, H2, H3, H4. repeat split; auto.
    rewrite Hl, app_nil_r. reflexivity. }
  apply triple_conseq with
    (P := logged L0)
    (Q := fun (_ : Z) s => laid L [] s)
    (E := fun _ s => laid L [] s).
  - eapply triple_bind; [ apply logged_csr | intros ? ].
    eapply triple_bind; [ apply logged_csr | intros ? ].
    eapply triple_bind; [ apply logged_csr | intros ? ].
    eapply triple_bind; [ apply logged_csr | intros ? ].
    eapply triple_bind; [ apply logged_csr | intros ? ].
    apply triple_conseq with
      (P := laid L []) (Q := fun (_ : Z) s => laid L [] s) (E := fun _ s => laid L [] s);
      [ | | auto | auto ].
    + apply triple_bind with (R := fun _ => laid L []).
      { apply laid_benchmarks. apply baseline_benchmarks_laid. }
      intros ?.
      apply triple_bind with (R := fun _ => laid L []).
      { apply (laid_frame (ext_ (connSync IS_CLIENT)) L []). emits_auto. }
      intros ?. apply triple_ret. auto.
    + intros s [Hn Hl]. split; [ exact Hn | ].
      exists []. split; [ | reflexivity ].
      rewrite Hl. unfold L. now rewrite <- !app_assoc.
  - intros s ->. split.
    + cbn. now rewrite Hp, H1, H2, H3, H4.
    + reflexivity.
  - intros ? s Hs. now apply Hend.
  - intros x s Hs _ _. now apply Hend.
Qed.

End Setup.

(** When an allocation returns null, [Scatter.main] stops there with the
    matching exception.  If it is the RDMA buffer, nothing else was called.
    If it is a device buffer, all four allocations were attempted first and
    none of the buffers obtained is freed.  In both cases no benchmark was
    begun and the peer was never met. *)
Theorem null_allocation_stops_main (N_LATENCY_REPS : Z) (e : env) (h : trace)
    (fuel : nat) (operation : bool) (n_runs min_size max_size : Z) :
  null_allocs (snd (Scatter.main N_LATENCY_REPS fuel operation n_runs min_size max_size e h))
  <> [] ->
  (snd (Scatter.main N_LATENCY_REPS fuel operation n_runs min_size max_size e h)
   = [Ext (initRDMA max_size) 0] /\
   fst (Scatter.main N_LATENCY_REPS fuel operation n_runs min_size max_size e h)
   = Abort (Throw mem_msg)) \/
  (exists p v1 v2 v3 v4,
     p <> 0 /\
     snd (Scatter.main N_LATENCY_REPS fuel operation n_runs min_size max_size e h)
     = [Ext (initRDMA max_size) p; Ext (hipSetDevice 0) 0;
        Ext (getMem max_size 0) v1; Ext (getMem max_size 1) v2;
        Ext (getMem max_size 2) v3; Ext (getMem max_size 3) v4] /\
     fst (Scatter.main N_LATENCY_REPS fuel operation n_runs min_size max_size e h)
     = Abort (Throw buffers_msg)).
Proof.
  intros Hnull.
  pose proof (scatter_main_setup e N_LATENCY_REPS fuel operation n_runs min_size max_size
                h [] eq_refl) as H.
  destruct (Scatter.main N_LATENCY_REPS fuel operation n_runs min_size max_size e h)
    as [[r | x] n]; cbn [fst snd app] in *.
  - destruct H as [Hn _]. contradiction.
  - destruct (H Hnull) as [[-> ->] | (p & v1 & v2 & v3 & v4 & Hp & -> & ->)].
    + left. auto.
    + right. exists p, v1, v2, v3, v4. auto.
Qed.

Lemma null_allocation_stops_main_witness :
  null_allocs (snd (Scatter.main 1 5 true 0 4096 8192 (alloc_fails_on 2 1) [])) <> [] /\
  ((snd (Scatter.main 1 5 true 0 4096 8192 (alloc_fails_on 2 1) [])
    = [Ext (initRDMA 8192) 0] /\
    fst (Scatter.main 1 5 true 0 4096 8192 (alloc_fails_on 2 1) [])
    = Abort (Throw mem_msg)) \/
   (exists p v1 v2 v3 v4,
      p <> 0 /\
      snd (Scatter.main 1 5 true 0 4096 8192 (alloc_fails_on 2 1) [])
      = [Ext (initRDMA 8192) p; Ext (hipSetDevice 0) 0;
         Ext (getMem 8192 0) v1; Ext (getMem 8192 1) v2;
         Ext (getMem 8192 2) v3; Ext (getMem 8192 3) v4] /\
      fst (Scatter.main 1 5 true 0 4096 8192 (alloc_fails_on 2 1) [])
      = Abort (Throw buffers_msg))).
Proof.
  split; [ discriminate | ].
  apply (null_allocation_stops_main 1 (alloc_fails_on 2 1) [] 5 true 0 4096 8192).
  discriminate.
Defined.

(** When [Scatter.main] returns, it returns [EXIT_SUCCESS] and its memory
    calls were, in this order: the RDMA buffer and the four device buffers,
    one per device, all of [max_size] bytes and none null; then benchmark
    calls only; then each of the four device buffers freed once. *)
Theorem main_frees_what_it_allocates (N_LATENCY_REPS : Z) (e : env) (h : trace)
    (fuel : nat) (operation : bool) (n_runs min_size max_size r : Z) :
  fst (Scatter.main N_LATENCY_REPS fuel operation n_runs min_size max_size e h) = Done r ->
  r = EXIT_SUCCESS /\
  exists p v1 v2 v3 v4 mid,
    p <> 0 /\ v1 <> 0 /\ v2 <> 0 /\ v3 <> 0 /\ v4 <> 0 /\
    setup_log (snd (Scatter.main N_LATENCY_REPS fuel operation n_runs min_size max_size e h))
    = [Ext (initRDMA max_size) p;
       Ext (getMem max_size 0) v1; Ext (getMem max_size 1) v2;
       Ext (getMem max_size 2) v3; Ext (getMem max_size 3) v4]
      ++ mid
      ++ [Ext (hipFree 0) 0; Ext (hipFree 1) 0; Ext (hipFree 2) 0; Ext (hipFree 3) 0] /\
    forallb is_enter mid = true.
Proof.
  intros Hdone.
  pose proof (scatter_main_setup e N_LATENCY_REPS fuel operation n_runs min_size max_size
                h [] eq_refl) as H.
  destruct (Scatter.main N_LATENCY_REPS fuel operation n_runs min_size max_size e h)
    as [[r' | x] n]; cbn [fst snd app] in *; [ | discriminate ].
  injection Hdone as ->. destruct H as [_ H]. exact H.
Qed.

Lemma main_frees_what_it_allocates_witness :
  fst (Scatter.main 1 5 true 0 4096 8192 (all_ok 1) []) = Done 0 /\
  0 = EXIT_SUCCESS /\
  exists p v1 v2 v3 v4 mid,
    p <> 0 /\ v1 <> 0 /\ v2 <> 0 /\ v3 <> 0 /\ v4 <> 0 /\
    setup_log (snd (Scatter.main 1 5 true 0 4096 8192 (all_ok 1) []))
    = [Ext (initRDMA 8192) p;
       Ext (getMem 8192 0) v1; Ext (getMem 8192 1) v2;
       Ext (getMem 8192 2) v3; Ext (getMem 8192 3) v4]
      ++ mid
      ++ [Ext (hipFree 0) 0; Ext (hipFree 1) 0; Ext (hipFree 2) 0; Ext (hipFree 3) 0] /\
    forallb is_enter mid = true.
Proof.
  split; [ reflexivity | ].
  apply (main_frees_what_it_allocates 1 (all_ok 1) [] 5 true 0 4096 8192 0).
  reflexivity.
Defined.

(** If no allocation returns null and the device is selected,
    [Baseline.main] writes the four device pointers it was given to the
    registers [VADDR_1] to [VADDR_4], in this order, then 1 to [VADDR_VALID],
    and only then begins the benchmarks; it writes no other register. *)
Theorem baseline_programs_registers
    (N_THROUGHPUT_REPS N_LATENCY_REPS DEFAULT_GPU_ID : Z) (e : env) (h : trace)
    (fuel : nat) (operation : bool) (n_runs min_size max_size : Z) :
  null_allocs (snd (Baseline.main N_THROUGHPUT_REPS N_LATENCY_REPS DEFAULT_GPU_ID
                      fuel operation n_runs min_size max_size e h)) = [] ->
  failed_selects (snd (Baseline.main N_THROUGHPUT_REPS N_LATENCY_REPS DEFAULT_GPU_ID
                         fuel operation n_runs min_size max_size e h)) = [] ->
  exists p v1 v2 v3 v4 mid,
    p <> 0 /\ v1 <> 0 /\ v2 <> 0 /\ v3 <> 0 /\ v4 <> 0 /\
    setup_log (snd (Baseline.main N_THROUGHPUT_REPS N_LATENCY_REPS DEFAULT_GPU_ID
                      fuel operation n_runs min_size max_size e h))
    = [Ext (initRDMA max_size) p;
       Ext (getMem max_size DEFAULT_GPU_ID) v1;
       Ext (getMem max_size DEFAULT_GPU_ID) v2;
       Ext (getMem max_size DEFAULT_GPU_ID) v3;
       Ext (getMem max_size DEFAULT_GPU_ID) v4;
       Ext (setCSR v1 (Baseline.reg_index Baseline.VADDR_1)) 0;
       Ext (setCSR v2 (Baseline.reg_index Baseline.VADDR_2)) 0;
       Ext (setCSR v3 (Baseline.reg_index Baseline.VADDR_3)) 0;
       Ext (setCSR v4 (Baseline.reg_index Baseline.VADDR_4)) 0;
       Ext (setCSR 1 (Baseline.reg_index Baseline.VADDR_VALID)) 0]
      ++ mid /\
    forallb is_enter mid = true.
Proof.
  intros Hnull Hsel.
  pose proof (baseline_main_setup e N_THROUGHPUT_REPS N_LATENCY_REPS DEFAULT_GPU_ID
                fuel operation n_runs min_size max_size h [] eq_refl) as H.
  destruct (Baseline.main N_THROUGHPUT_REPS N_LATENCY_REPS DEFAULT_GPU_ID
              fuel operation n_runs min_size max_size e h)
    as [[r | x] n]; cbn [fst snd app] in *; auto.
Qed.

Lemma baseline_programs_registers_witness :
  null_allocs (snd (Baseline.main 2 1 0 5 true 3 4096 8192 (all_ok 1) [])) = [] /\
  failed_selects (snd (Baseline.main 2 1 0 5 true 3 4096 8192 (all_ok 1) [])) = [] /\
  exists p v1 v2 v3 v4 mid,
    p <> 0 /\ v1 <> 0 /\ v2 <> 0 /\ v3 <> 0 /\ v4 <> 0 /\
    setup_log (snd (Baseline.main 2 1 0 5 true 3 4096 8192 (all_ok 1) []))
    = [Ext (initRDMA 8192) p;
       Ext (getMem 8192 0) v1;
       Ext (getMem 8192 0) v2;
       Ext (getMem 8192 0) v3;
       Ext (getMem 8192 0) v4;
       Ext (setCSR v1 (Baseline.reg_index Baseline.VADDR_1)) 0;
       Ext (setCSR v2 (Baseline.reg_index Baseline.VADDR_2)) 0;
       Ext (setCSR v3 (Baseline.reg_index Baseline.VADDR_3)) 0;
       Ext (setCSR v4 (Baseline.reg_index Baseline.VADDR_4)) 0;
       Ext (setCSR 1 (Baseline.reg_index Baseline.VADDR_VALID)) 0]
      ++ mid /\
    forallb is_enter mid = true.
Proof.
  split; [ reflexivity | ]. split; [ reflexivity | ].
  apply (baseline_programs_registers 2 1 0 (all_ok 1) [] 5 true 3 4096 8192);
    reflexivity.
Defined.

(** ** Device writes stay inside the buffers *)

Lemma emits_for_from_bounded (phi : event -> bool) (body : Z -> M unit) :
  forall k i,
    (forall j, i <= j < i + Z.of_nat k -> emits phi (body j)) ->
    emits phi (for_from k i body).
Proof.
  induction k as [ | k IH ]; intros i Hb; cbn [for_from].
  - apply emits_ret.
  - apply emits_bind; [ apply Hb; lia | intros _ ].
    apply emits_bind; [ | intros _; apply IH; intros j Hj; apply Hb; lia ].
    unfold incr_int. apply emits_if; [ apply emits_ret | apply emits_raise ].
Qed.

Lemma emits_for_int_bounded (phi : event -> bool) (bound : Z) (body : Z -> M unit) :
  (forall j, 0 <= j < bound -> emits phi (body j)) -> emits phi (for_int bound body).
Proof.
  intros Hb. unfold for_int. apply emits_for_from_bounded.
  intros j Hj. apply Hb. lia.
Qed.

Lemma emits_sweep_nonneg (phi : event -> bool) (max_size : Z) (body : Z -> M unit) :
  (forall c, 0 <= c <= max_size -> emits phi (body c)) ->
  forall fuel c, 0 <= c -> emits phi (sweep fuel c max_size body).
Proof.
  intros Hb. induction fuel as [ | fuel IH ]; intros c Hc; cbn [sweep].
  - apply emits_raise.
  - destruct (Z.leb_spec c max_size) as [Hle | _]; [ | apply emits_ret ].
    apply emits_bind; [ apply Hb; lia | intros _; apply IH ].
    unfold wrap32. apply Z.mod_pos_bound. lia.
Qed.

Lemma copy_chunks_within (max_size len : Z) :
  len <= max_size -> emits (within max_size) (Scatter.copy_chunks len).
Proof.
  intros Hlen. unfold Scatter.copy_chunks.
  apply emits_for_int_bounded. intros j Hj.
  apply emits_bind; [ emits_auto | intros ? ].
  apply emits_bind; [ emits_auto | intros idx ].
  apply emits_ext_. intros r. cbn [within].
  assert (H4096 : 4096 <= len).
  { destruct (Z_lt_le_dec len 4096) as [Hlt | Hge]; [ | exact Hge ].
    assert (len / 4096 <= 0); [ | lia ].
    destruct (Z_lt_le_dec len 0) as [Hneg | Hpos].
    - pose proof (Z.div_lt_upper_bound len 4096 0 ltac:(lia) ltac:(lia)). lia.
    - rewrite Z.div_small by lia. lia. }
  pose proof (Z.rem_bound_pos j 4 ltac:(lia) ltac:(lia)) as Hrem.
  repeat (apply andb_true_intro; split).
  - apply Z.leb_le. lia.
  - apply Z.ltb_lt. lia.
  - reflexivity.
  - reflexivity.
  - apply Z.leb_le. lia.
Qed.

Lemma run_bench_within (max_size : Z) (fuel : nat) (len transfers n_runs : Z)
    (operation : bool) :
  0 <= len <= max_size ->
  emits (within max_size) (Scatter.run_bench fuel len transfers n_runs operation).
Proof.
  intros Hlen. unfold Scatter.run_bench.
  apply emits_bind; [ | intros ? ].
  { apply emits_emit. cbn [within]. apply andb_true_intro. split; apply Z.leb_le; lia. }
  apply emits_bind; [ apply emits_emit; reflexivity | intros ? ].
  apply emits_bind; [ unfold Scatter.create_streams; emits_auto | intros ? ].
  apply emits_bind; [ | intros ?; unfold Scatter.destroy_streams; emits_auto ].
  apply emits_for_int. intros ?. unfold Scatter.bench_round.
  apply emits_bind; [ emits_auto | intros ? ].
  apply emits_bind; [ emits_auto | intros ? ].
  apply emits_if; [ | apply emits_ret ].
  apply emits_bind; [ emits_auto | intros ? ].
  apply emits_bind; [ | intros ?; unfold issue_writes; emits_auto ].
  unfold Scatter.fan_out.
  apply emits_bind; [ apply copy_chunks_within; lia | intros ? ].
  unfold Scatter.sync_gpus. emits_auto.
Qed.

(** Every benchmark [main] begins is for a size between 0 and [max_size],
    the size of the buffers, and every copy to a device lands in one of the
    four device buffers and ends within its [max_size] bytes, also when the
    sweep wraps around or the run is cut short. *)
Theorem device_writes_in_bounds (N_LATENCY_REPS : Z) (e : env) (h : trace)
    (fuel : nat) (operation : bool) (n_runs min_size max_size : Z) :
  0 <= min_size ->
  forallb (within max_size)
    (snd (Scatter.main N_LATENCY_REPS fuel operation n_runs min_size max_size e h))
  = true.
Proof.
  intros Hmin. revert e h.
  change (emits (within max_size)
            (Scatter.main N_LATENCY_REPS fuel operation n_runs min_size max_size)).
  unfold Scatter.main.
  apply emits_bind; [ emits_auto | intros ? ].
  apply emits_if; [ apply emits_raise | ].
  apply emits_bind; [ emits_auto | intros ? ].
  apply emits_bind; [ emits_auto | intros ? ].
  apply emits_bind; [ emits_auto | intros ? ].
  apply emits_bind; [ emits_auto | intros ? ].
  apply emits_bind; [ emits_auto | intros ? ].
  apply emits_if; [ apply emits_raise | ].
  apply emits_bind; [ emits_auto | intros ? ].
  apply emits_bind; [ | intros ?; emits_auto ].
  unfold Scatter.sweep_bench.
  apply emits_sweep_nonneg; [ | exact Hmin ].
  intros c Hc. now apply run_bench_within.
Qed.

Lemma device_writes_in_bounds_witness :
  0 <= 4096 /\
  forallb (within 8192) (snd (Scatter.main 1 5 true 0 4096 8192 (all_ok 1) [])) = true.
Proof.
  split; [ lia | ].
  apply (device_writes_in_bounds 1 (all_ok 1) [] 5 true 0 4096 8192). lia.
Defined.

(** ** The staging buffer *)

Lemma fill_from_spec (zero : bool) :
  forall k i mem j,
    fill_from k i zero mem j
    = if (i <=? j) && (j <? i + Z.of_nat k) then (if zero then 0 else j) else mem j.
Proof.
  induction k as [ | k IH ]; intros i mem j; cbn [fill_from].
  - destruct (Z.leb_spec i j), (Z.ltb_spec j (i + Z.of_nat 0)); cbn; try reflexivity; lia.
  - rewrite IH.
    destruct (Z.leb_spec (i + 1) j), (Z.ltb_spec j (i + 1 + Z.of_nat k)),
      (Z.leb_spec i j), (Z.ltb_spec j (i + Z.of_nat (S k))), (Z.eqb_spec j i);
      cbn; try reflexivity; try lia.
    subst j. reflexivity.
Qed.

Lemma fill_spec (n : Z) (zero : bool) (mem : host_mem) (j : Z) :
  fill n zero mem j
  = if (0 <=? j) && (j <? n) then (if zero then 0 else j) else mem j.
Proof.
  unfold fill. rewrite fill_from_spec.
  destruct (Z.leb_spec 0 j), (Z.ltb_spec j (0 + Z.of_nat (Z.to_nat n))),
    (Z.ltb_spec j n); cbn; try reflexivity; lia.
Qed.

Lemma host_after_no_fill (n : trace) :
  forallb (fun ev => negb (is_fill ev)) n = true ->
  forall mem, host_after n mem = mem.
Proof.
  unfold host_after.
  induction n as [ | ev n IH ]; cbn; [ reflexivity | ].
  intros H mem. apply andb_true_iff in H as [Hev Hn].
  destruct ev; cbn in *; try discriminate; now apply IH.
Qed.

Lemma after_fill_no_fill (fuel : nat) (len transfers n_runs : Z) (operation : bool) :
  emits (fun ev => negb (is_fill ev))
    (Scatter.create_streams ;;
     for_int n_runs (fun _ => Scatter.bench_round fuel len transfers operation) ;;
     Scatter.destroy_streams).
Proof.
  unfold Scatter.create_streams, Scatter.bench_round, Scatter.fan_out,
    Scatter.copy_chunks, Scatter.sync_gpus, issue_writes, Scatter.destroy_streams.
  emits_auto.
Qed.

(** Of its own stores, [run_bench] leaves the staging buffer with its first
    [len / 4] elements set, to 0 for a write benchmark and to their own index
    for a read benchmark, and every other element as it was; this holds
    however the call ends. *)
Theorem run_bench_fills_buffer (e : env) (h : trace) (fuel : nat)
    (len transfers n_runs : Z) (operation : bool) (mem : host_mem) (j : Z) :
  host_after (snd (Scatter.run_bench fuel len transfers n_runs operation e h)) mem j
  = if (0 <=? j) && (j <? len / sizeof_int)
    then (if operation then 0 else j)
    else mem j.
Proof.
  unfold Scatter.run_bench.
  rewrite (bind_done _ _ e h tt [Enter len transfers n_runs operation]) by reflexivity.
  cbn [snd].
  rewrite (bind_done _ _ e _ tt [Fill (len / sizeof_int) operation]) by reflexivity.
  cbn [snd].
  unfold host_after. rewrite !fold_left_app. cbn [fold_left fill_step].
  fold (host_after
          (snd ((Scatter.create_streams ;;
                 for_int n_runs (fun _ => Scatter.bench_round fuel len transfers operation) ;;
                 Scatter.destroy_streams) e
                  ((h ++ [Enter len transfers n_runs operation])
                     ++ [Fill (len / sizeof_int) operation])))
          (fill (len / sizeof_int) operation mem)).
  rewrite host_after_no_fill by apply after_fill_no_fill.
  apply fill_spec.
Qed.

(** ** The benchmark of the FPGA-side server *)

Lemma baseline_run_bench_host_only (fuel : nat) (len transfers n_runs : Z)
    (operation : bool) :
  emits (fun ev => negb (device_call ev))
    (Baseline.run_bench fuel len transfers n_runs operation).
Proof.
  unfold Baseline.run_bench, Baseline.bench_round, issue_writes. emits_auto.
Qed.

Lemma baseline_run_bench_ends (fuel : nat) (len transfers n_runs : Z)
    (operation : bool) :
  ends no_throw (Baseline.run_bench fuel len transfers n_runs operation).
Proof.
  unfold Baseline.run_bench, Baseline.bench_round, issue_writes. ends_auto.
Qed.

(** The benchmark of the FPGA-side server leaves the devices alone and has no
    failure path: whatever the environment, it makes no call into the HIP run
    time and no exception leaves it. *)
Theorem baseline_run_bench_host_side (e : env) (h : trace) (fuel : nat)
    (len transfers n_runs : Z) (operation : bool) :
  forallb (fun ev => negb (device_call ev))
    (snd (Baseline.run_bench fuel len transfers n_runs operation e h)) = true /\
  forall msg,
    fst (Baseline.run_bench fuel len transfers n_runs operation e h) <> Abort (Throw msg).
Proof.
  split; [ apply baseline_run_bench_host_only | ].
  intros msg Hx.
  pose proof (baseline_run_bench_ends fuel len transfers n_runs operation e h) as H.
  rewrite Hx in H. discriminate.
Qed.

Section BaselineRounds.

Variable e : env.

Lemma baseline_round_writes (fuel : nat) (len transfers : Z) (v : list Z) :
  triple e (fun s => remote_writes s = v)
    (Baseline.bench_round fuel len transfers true)
    (fun _ s => remote_writes s = v ++ repeat len (Z.to_nat transfers))
    (fun _ _ => True).
Proof.
  unfold Baseline.bench_round, remote_writes.
  apply triple_frame_bind; [ emits_auto | intros ? ].
  apply triple_frame_bind; [ emits_auto | intros ? ].
  apply triple_frame_bind; [ emits_auto | intros ? ].
  apply issue_writes_count.
Qed.

Lemma baseline_run_bench_writes (fuel : nat) (len transfers n_runs : Z) :
  triple e (fun s => remote_writes s = [])
    (Baseline.run_bench fuel len transfers n_runs true)
    (fun _ s => remote_writes s
                = repeat len (Z.to_nat n_runs * Z.to_nat transfers))
    (fun _ _ => True).
Proof.
  unfold Baseline.run_bench, remote_writes.
  apply triple_frame_bind; [ emits_auto | intros ? ].
  apply triple_frame_bind; [ emits_auto | intros ? ].
  apply (triple_for_count e n_runs _
           (fun j s => flat_map write_of s = repeat len (j * Z.to_nat transfers))).
  - intros j Hj.
    apply triple_conseq with
      (P := fun s => remote_writes s = repeat len (j * Z.to_nat transfers))
      (Q := fun _ s => remote_writes s
                       = repeat len (j * Z.to_nat transfers)
                         ++ repeat len (Z.to_nat transfers))
      (E := fun _ _ => True); [ apply baseline_round_writes | auto | | auto ].
    intros ? s Hs. unfold remote_writes in Hs. rewrite Hs, <- repeat_app.
    f_equal. lia.
  - auto.
Qed.

Lemma baseline_round_protocol (fuel : nat) (len transfers : Z) (operation : bool)
    (v : list (option bool)) :
  triple e (fun s => protocol s = v)
    (Baseline.bench_round fuel len transfers operation)
    (fun _ s => protocol s = v ++ [None; Some IS_CLIENT])
    (fun _ _ => True).
Proof.
  unfold Baseline.bench_round.
  apply triple_bind with (R := fun _ s => protocol s = v ++ [None]).
  { apply (triple_ext_ e any_answer (any_answer_ok e)).
    intros s r Hs _. now rewrite protocol_snoc, Hs. }
  intros ?.
  apply triple_bind with (R := fun _ s => protocol s = v ++ [None; Some IS_CLIENT]).
  { apply (triple_ext_ e any_answer (any_answer_ok e)).
    intros s r Hs _. rewrite protocol_snoc, Hs, <- app_assoc. reflexivity. }
  intros ?. apply emits_frame; [ | auto ].
  unfold issue_writes. emits_auto.
Qed.

Lemma baseline_run_bench_protocol (fuel : nat) (len transfers n_runs : Z)
    (operation : bool) :
  triple e (fun s => protocol s = [])
    (Baseline.run_bench fuel len transfers n_runs operation)
    (fun _ s => protocol s = handshakes (Z.to_nat n_runs))
    (fun _ _ => True).
Proof.
  unfold Baseline.run_bench.
  apply triple_bind with (R := fun _ s => protocol s = handshakes 0).
  { apply triple_emit. intros s Hs. now rewrite protocol_snoc, Hs. }
  intros ?.
  apply triple_bind with (R := fun _ s => protocol s = handshakes 0).
  { apply triple_emit. intros s Hs. now rewrite protocol_snoc, Hs. }
  intros ?.
  apply (triple_for_count e n_runs _ (fun j s => protocol s = handshakes j)).
  - intros j Hj.
    apply triple_conseq with
      (P := fun s => protocol s = handshakes j)
      (Q := fun _ s => protocol s = handshakes j ++ [None; Some IS_CLIENT])
      (E := fun _ _ => True);
      [ apply baseline_round_protocol | auto | | auto ].
    intros ? s Hs. now rewrite Hs, handshakes_S.
  - auto.
Qed.

End BaselineRounds.

(** A call of the FPGA-side [run_bench] for the write benchmark that returns
    has run [n_runs] rounds, each one a clearing of the completion flags, a
    meeting with the peer and then [transfers] remote writes of the transfer
    size. *)
Theorem baseline_run_bench_rounds (e : env) (h : trace) (fuel : nat)
    (len transfers n_runs : Z) :
  fst (Baseline.run_bench fuel len transfers n_runs true e h) = Done tt ->
  protocol (snd (Baseline.run_bench fuel len transfers n_runs true e h))
  = handshakes (Z.to_nat n_runs) /\
  remote_writes (snd (Baseline.run_bench fuel len transfers n_runs true e h))
  = repeat len (Z.to_nat n_runs * Z.to_nat transfers).
Proof.
  intros Hd.
  pose proof (baseline_run_bench_writes e fuel len transfers n_runs h [] eq_refl) as Hw.
  pose proof (baseline_run_bench_protocol e fuel len transfers n_runs true h [] eq_refl)
    as Hp.
  destruct (Baseline.run_bench fuel len transfers n_runs true e h) as [[a | x] n];
    cbn [fst snd app] in *; [ auto | discriminate ].
Qed.

Lemma baseline_run_bench_rounds_witness :
  fst (Baseline.run_bench 1 4096 2 3 true (all_ok 2) []) = Done tt /\
  protocol (snd (Baseline.run_bench 1 4096 2 3 true (all_ok 2) []))
  = handshakes (Z.to_nat 3) /\
  remote_writes (snd (Baseline.run_bench 1 4096 2 3 true (all_ok 2) []))
  = repeat 4096 (Z.to_nat 3 * Z.to_nat 2).
Proof.
  split; [ reflexivity | ].
  apply (baseline_run_bench_rounds (all_ok 2) [] 1 4096 2 3). reflexivity.
Defined.
